(** * Grid path search of egret-vite: hexagonal A* and the bucket search

    A shallow embedding of [src/game/AStar.ts] (class [AStar]) and of the
    bucket search of class [Main] ([search], [get_cost], [createNodes]),
    together with the properties the specification states about them.

    Conventions of the embedding.
    - A JavaScript number holding a coordinate, a size, a cost or a token is
      an integer and is modelled by [Z]; the values [g], [h] and [f] of a
      search node are half-integers (the heuristic divides by two) and are
      modelled by [Q], on which the comparisons of the source are exact.
    - An object that is mutated in place and reached through several
      references (a [PathNode], a [MapNode]) lives in an arena, a list whose
      index is the identity of the object; a reference is that index.
    - [SimpleSet<string>] and [SimpleMap<string, PathNode>] store their
      entries in a JavaScript object under [JSON.stringify] of the key, which
      is injective on strings: they are a [gset string] and a
      [gmap string nat].
    - A loop of the source becomes a function with fuel; running out of fuel
      is the separate outcome [OutOfFuel], never confused with a result of
      the program.  A property access on [undefined] is the outcome
      [Throw TypeError]. *)

From Stdlib Require Import ZArith QArith Lia Lqa Ascii String.
From stdpp Require Import base tactics option list gmap strings pretty.

Local Open Scope Z_scope.

#[local] Set Warnings "-clear-no-such-hyp".
#[local] Set Default Proof Using "Type".

(** ** Outcomes of a call *)

(** The five messages thrown by the source, and the runtime's own error. *)
Inductive error : Type :=
  | InvalidGrid        (* constructor: map size must be greater than 0 *)
  | InvalidStart       (* findPath: start coordinate invalid *)
  | InvalidEnd         (* findPath: end coordinate invalid *)
  | BlockedStart       (* findPath: start must not be an obstacle *)
  | BlockedEnd         (* findPath: end must not be an obstacle *)
  | TypeError.         (* property access on undefined *)

Inductive outcome (A : Type) : Type :=
  | Return (a : A)
  | Throw (e : error)
  | OutOfFuel.
Arguments Return {A} a.
Arguments Throw {A} e.
Arguments OutOfFuel {A}.

Global Instance outcome_bind : MBind outcome := λ A B k m,
  match m with
  | Return a => k a
  | Throw e => Throw e
  | OutOfFuel => OutOfFuel
  end.

(** [for (const v of l) { s = body(s, v) }] with a body that may throw. *)
Fixpoint forEach {S V} (body : S → V → outcome S) (l : list V) (s : S)
  : outcome S :=
  match l with
  | [] => Return s
  | v :: l' => s' ← body s v; forEach body l' s'
  end.

(** ** The A* path finder *)

Module AStar.

Record PathNode : Type := mkNode {
  x : Z;
  y : Z;
  g : Q;
  h : Q;
  f : Q;
  parent : option nat
}.

(** The object: [endPos] is unset until the first call of [findPath]. *)
Record t : Type := mkAStar {
  mapSize : Z;
  obstacles : gset string;
  endPos : option (Z * Z)
}.

Definition oddRowDirections : list (Z * Z) :=
  [(0, -1); (1, -1); (1, 0); (1, 1); (0, 1); (-1, 0)].

Definition evenRowDirections : list (Z * Z) :=
  [(-1, -1); (0, -1); (1, 0); (0, 1); (-1, 1); (-1, 0)].

(** [new AStar(mapSize, obstacles)] *)
Definition constructor (mapSize : Z) (obstacles : option (list string))
  : outcome t :=
  if mapSize <=? 0 then Throw InvalidGrid
  else Return (mkAStar mapSize (list_to_set (default [] obstacles)) None).

(** The template literal [`${x},${y}`]: an integer prints in decimal, with
    a leading minus sign when negative. *)
Definition key (x y : Z) : string := pretty x +:+ "," +:+ pretty y.

Definition isValidCoordinate (this : t) (x y : Z) : bool :=
  (0 <=? x) && (x <? mapSize this) && (0 <=? y) && (y <? mapSize this).

Definition isValidPosition (this : t) (x y : Z) : bool :=
  isValidCoordinate this x y && bool_decide (key x y ∉ obstacles this).

Definition Qltb (a b : Q) : bool :=
  match Qcompare a b with Lt => true | _ => false end.

Definition calculateHeuristic (this : t) (x y : Z) : outcome Q :=
  match endPos this with
  | None => Throw TypeError
  | Some (ex, ey) =>
      let dx := Z.abs (x - ex) in
      let dy := Z.abs (y - ey) in
      Return (inject_Z (Z.max dx dy) + inject_Z (Z.min dx dy) / 2)%Q
  end.

Definition getNeighbors (this : t) (node : PathNode) : list PathNode :=
  let directions :=
    if Z.rem (y node) 2 =? 0 then evenRowDirections else oddRowDirections in
  flat_map (λ dir : Z * Z,
    let newX := x node + dir.1 in
    let newY := y node + dir.2 in
    if isValidPosition this newX newY
    then [mkNode newX newY 0 0 0 None]
    else []) directions.

(** Dereference of a node reference. *)
Definition getNode (arena : list PathNode) (r : nat) : outcome PathNode :=
  match arena !! r with
  | Some n => Return n
  | None => Throw TypeError
  end.

Definition getMinFNode (arena : list PathNode) (list : list nat)
  : outcome nat :=
  match list with
  | [] => Throw TypeError
  | r0 :: rest =>
      forEach (λ minNode r,
        n ← getNode arena r;
        m ← getNode arena minNode;
        Return (if Qltb (f n) (f m) then r else minNode)) rest r0
  end.

Fixpoint removeFromOpenList (arena : list PathNode) (openList : list nat)
  (node : PathNode) : outcome (list nat) :=
  match openList with
  | [] => Return []
  | r :: rest =>
      n ← getNode arena r;
      if (x n =? x node) && (y n =? y node) then Return rest
      else rest' ← removeFromOpenList arena rest node; Return (r :: rest')
  end.

Fixpoint buildPath_loop (fuel : nat) (arena : list PathNode)
  (current : option nat) (path : list PathNode) : outcome (list PathNode) :=
  match current with
  | None => Return path
  | Some r =>
      match fuel with
      | O => OutOfFuel
      | S fuel' =>
          n ← getNode arena r;
          buildPath_loop fuel' arena (parent n) (n :: path)
      end
  end.

(** The parent chain of a node of the arena visits each node at most once
    (see [chain_length]), so one unit of fuel per node of the arena is
    enough. *)
Definition buildPath (arena : list PathNode) (endNode : nat)
  : outcome (list PathNode) :=
  buildPath_loop (length arena) arena (Some endNode) [].

(** The local state of one call of [findPath]. *)
Record state : Type := mkState {
  arena : list PathNode;
  openList : list nat;
  openSet : gmap string nat;
  closedSet : gset string
}.

(** One turn of [for (const neighbor of neighbors)]. *)
Definition visitNeighbor (this : t) (currentNode : nat) (st : state)
  (neighbor : PathNode) : outcome state :=
  let neighborKey := key (x neighbor) (y neighbor) in
  if bool_decide (neighborKey ∈ closedSet st) then Return st
  else
    cur ← getNode (arena st) currentNode;
    let gScore := (g cur + 1)%Q in
    match openSet st !! neighborKey with
    | None =>
        hn ← calculateHeuristic this (x neighbor) (y neighbor);
        let neighbor' :=
          mkNode (x neighbor) (y neighbor) gScore hn (gScore + hn)%Q
            (Some currentNode) in
        let r := length (arena st) in
        Return (mkState (arena st ++ [neighbor']) (openList st ++ [r])
                  (<[neighborKey := r]> (openSet st)) (closedSet st))
    | Some e =>
        existingNode ← getNode (arena st) e;
        if Qltb gScore (g existingNode) then
          let existingNode' :=
            mkNode (x existingNode) (y existingNode) gScore (h existingNode)
              (gScore + h existingNode)%Q (Some currentNode) in
          Return (mkState (<[e := existingNode']> (arena st)) (openList st)
                    (openSet st) (closedSet st))
        else Return st
    end.

(** The body of [while (openList.length > 0) { ... }], with the test of the
    loop: a turn either leaves the call with its value ([inr], the path or
    [null]) or hands the next state to the following turn ([inl]). *)
Definition turn (this : t) (end_ : Z * Z) (st : state)
  : outcome (state + option (list PathNode)) :=
  match openList st with
  | [] => Return (inr None)
  | _ :: _ =>
      currentNode ← getMinFNode (arena st) (openList st);
      cur ← getNode (arena st) currentNode;
      let currentKey := key (x cur) (y cur) in
      if (x cur =? end_.1) && (y cur =? end_.2) then
        path ← buildPath (arena st) currentNode; Return (inr (Some path))
      else
        openList' ← removeFromOpenList (arena st) (openList st) cur;
        let st1 :=
          mkState (arena st) openList' (delete currentKey (openSet st))
            ({[currentKey]} ∪ closedSet st) in
        st2 ← forEach (visitNeighbor this currentNode)
                (getNeighbors this cur) st1;
        Return (inl st2)
  end.

Fixpoint findPath_loop (fuel : nat) (this : t) (end_ : Z * Z) (st : state)
  : outcome (option (list PathNode)) :=
  match fuel with
  | O => OutOfFuel
  | S fuel' =>
      r ← turn this end_ st;
      match r with
      | inl st' => findPath_loop fuel' this end_ st'
      | inr v => Return v
      end
  end.

(** Every turn of the main loop but the last closes one more cell of the
    [mapSize * mapSize] grid (see [findPath_loop_fuel]). *)
Definition findPath_fuel (this : t) : nat :=
  S (Z.to_nat (mapSize this * mapSize this)).

Definition set_endPos (this : t) (end_ : Z * Z) : t :=
  mkAStar (mapSize this) (obstacles this) (Some end_).

(** The state at the first test of the loop: the start node alone, open. *)
Definition initial (start : Z * Z) (startNode : PathNode) : state :=
  mkState [startNode] [0%nat] {[key start.1 start.2 := 0%nat]} ∅.

(** [findPath(start, end)]: the result and the object after the call. *)
Definition findPath (this : t) (start end_ : Z * Z)
  : outcome (option (list PathNode)) * t :=
  if negb (isValidCoordinate this start.1 start.2) then
    (Throw InvalidStart, this)
  else if negb (isValidCoordinate this end_.1 end_.2) then
    (Throw InvalidEnd, this)
  else
    let startKey := key start.1 start.2 in
    let endKey := key end_.1 end_.2 in
    if bool_decide (startKey ∈ obstacles this) then (Throw BlockedStart, this)
    else if bool_decide (endKey ∈ obstacles this) then (Throw BlockedEnd, this)
    else
      let this' := set_endPos this end_ in
      (h0 ← calculateHeuristic this' start.1 start.2;
       findPath_loop (findPath_fuel this') this' end_
         (initial start (mkNode start.1 start.2 0 h0 (0 + h0)%Q None)),
       this').

End AStar.


(** ** The grid as a graph, and exhaustive breadth-first search *)

Definition pos (n : AStar.PathNode) : Z * Z := (AStar.x n, AStar.y n).

Definition coords (p : list AStar.PathNode) : list (Z * Z) := pos <$> p.

(** The cells one step away from [p] under the rule of [p]'s own row. *)
Definition neighbors_of (this : AStar.t) (p : Z * Z) : list (Z * Z) :=
  coords (AStar.getNeighbors this (AStar.mkNode p.1 p.2 0 0 0 None)).

(** [walk this p q n]: [q] is reached from [p] in exactly [n] steps. *)
Inductive walk (this : AStar.t) : Z * Z → Z * Z → nat → Prop :=
  | walk_here p : walk this p p 0
  | walk_step p q r n :
      q ∈ neighbors_of this p → walk this q r n → walk this p r (S n).

(** Consecutive cells of [l] are one step apart, by the rule of the earlier. *)
Fixpoint stepwise (this : AStar.t) (l : list (Z * Z)) : Prop :=
  match l with
  | p :: (q :: _) as l' => q ∈ neighbors_of this p ∧ stepwise this l'
  | _ => True
  end.

(** Breadth-first search by levels: [frontier] holds the cells at distance
    [d] from the start, [visited] those at distance at most [d]. *)
Fixpoint bfs_loop (fuel : nat) (this : AStar.t) (end_ : Z * Z)
  (visited frontier : list (Z * Z)) (d : nat) : option nat :=
  match fuel with
  | O => None
  | S fuel' =>
      if bool_decide (end_ ∈ frontier) then Some d
      else
        let next :=
          remove_dups
            (list_difference (flat_map (neighbors_of this) frontier) visited) in
        match next with
        | [] => None
        | _ :: _ =>
            bfs_loop fuel' this end_ (visited ++ next) next (S d)
        end
  end.

Definition bfs (this : AStar.t) (start end_ : Z * Z) : option nat :=
  bfs_loop (AStar.findPath_fuel this) this end_ [start] [start] 0.

(** ** The bucket search of class [Main] *)

Module Main.

(** The fields of [MapNode] that the search reads or writes ([pos] and [c]
    are never used).  [nodes] and [prev] hold references into the array of
    nodes built by [createNodes]. *)
Record MapNode : Type := mkMapNode {
  nodes : list nat;
  x : Z;
  y : Z;
  v : Z;
  prev : option nat;
  cost : Z;
  token : Z
}.

Definition search_token : Z := 1.

Definition get_cost (start_x start_y end_x end_y : Z) : Z :=
  Z.abs (end_x - start_x) + Z.abs (end_y - start_y).

Definition idx_to_pos_x (idx w h : Z) : Z := Z.rem idx w.
Definition idx_to_pos_y (idx w h : Z) : Z := Z.quot idx w.
Definition pos_to_idx (x y w h : Z) : Z := x + y * w.

(** [data[idx] == 0 && r[i].nodes.push(r[idx])] *)
Definition link (data : list Z) (idx : Z) : list nat :=
  match data !! Z.to_nat idx with
  | Some 0 => [Z.to_nat idx]
  | _ => []
  end.

(** [createNodes(w, h, data)], for [w > 0]. *)
Definition createNodes (w h : Z) (data : list Z) : list MapNode :=
  imap (λ (i : nat) (d : Z),
    let x := idx_to_pos_x (Z.of_nat i) w h in
    let y := idx_to_pos_y (Z.of_nat i) w h in
    let left := if 0 <? x then link data (pos_to_idx (x - 1) y w h) else [] in
    let right :=
      if x <? w - 1 then link data (pos_to_idx (x + 1) y w h) else [] in
    let up :=
      if 0 <? y then
        link data (pos_to_idx x (y - 1) w h) ++
        (if x <? w - 1 then link data (pos_to_idx (x + 1) (y - 1) w h) else [])
      else [] in
    let down :=
      if y <? h - 1 then
        link data (pos_to_idx x (y + 1) w h) ++
        (if x <? w - 1 then link data (pos_to_idx (x + 1) (y + 1) w h) else [])
      else [] in
    mkMapNode (left ++ right ++ up ++ down)
      (Z.rem (Z.of_nat i) w) (Z.quot (Z.of_nat i) w) d None 0 0) data.

Definition getNode (graph : list MapNode) (r : nat) : outcome MapNode :=
  match graph !! r with
  | Some n => Return n
  | None => Throw TypeError
  end.

(** [opens[idx]], undefined outside of the array. *)
Definition bucket (opens : list (list nat)) (idx : Z) : option (list nat) :=
  if idx <? 0 then None else opens !! Z.to_nat idx.

(** One turn of [for (let i of cur.nodes)]. *)
Definition visit (end_x end_y base_cost : Z) (cur : nat)
  (s : list MapNode * list (list nat)) (i : nat)
  : outcome (list MapNode * list (list nat)) :=
  let '(graph, opens) := s in
  ni ← getNode graph i;
  if token ni <? search_token then
    c ← getNode graph cur;
    let ni' :=
      mkMapNode (nodes ni) (x ni) (y ni) (v ni) (Some cur) (cost c + 1)
        search_token in
    let idx := get_cost (x ni) (y ni) end_x end_y + cost ni' - base_cost in
    match bucket opens idx with
    | None => Throw TypeError
    | Some b =>
        Return (<[i := ni']> graph, <[Z.to_nat idx := b ++ [i]]> opens)
    end
  else Return s.

(** [while (cur.prev && cur.prev != start) path.push(cur = cur.prev)] *)
Fixpoint walk_prev (fuel : nat) (graph : list MapNode) (start cur : nat)
  (path : list nat) : outcome (list nat) :=
  match fuel with
  | O => OutOfFuel
  | S fuel' =>
      c ← getNode graph cur;
      match prev c with
      | Some p =>
          if bool_decide (p ≠ start)
          then walk_prev fuel' graph start p (path ++ [p])
          else Return path
      | None => Return path
      end
  end.

Definition all_empty (opens : list (list nat)) : outcome bool :=
  match opens with
  | [b0; b1; b2; b3] =>
      Return (bool_decide (b0 = []) && bool_decide (b1 = []) &&
              bool_decide (b2 = []) && bool_decide (b3 = []))
  | _ => Throw TypeError
  end.

(** [opens[0].pop()]: the last element, which leaves the array. *)
Definition pop (b : list nat) : option (nat * list nat) :=
  match reverse b with
  | [] => None
  | r :: rest => Some (r, reverse rest)
  end.

(** [while (true) { ... }]; the list [searched] only feeds the debug
    drawing and is left out.  When [pop] finds nothing, [opens[0]] is empty
    and the test [opens[0].length == 0] that guards the rotation holds. *)
Fixpoint search_loop (fuel : nat) (graph : list MapNode)
  (opens : list (list nat)) (base_cost : Z) (start end_ : nat)
  (end_x end_y : Z) : outcome (option (list nat)) :=
  match fuel with
  | O => OutOfFuel
  | S fuel' =>
      e ← all_empty opens;
      if e : bool then Return None
      else
        match opens with
        | [] => Throw TypeError
        | b0 :: others =>
            match pop b0 with
            | Some (cur, b0') =>
                if bool_decide (cur = end_) then
                  path ← walk_prev (length graph) graph start cur [cur];
                  Return (Some path)
                else
                  c ← getNode graph cur;
                  s ← forEach (visit end_x end_y base_cost cur) (nodes c)
                        (graph, b0' :: others);
                  search_loop fuel' s.1 s.2 base_cost start end_ end_x end_y
            | None =>
                search_loop fuel' graph (others ++ [[]]) (base_cost + 1)
                  start end_ end_x end_y
            end
        end
  end.

(** [search(start, end)] on the array of nodes [graph]. *)
Definition search (fuel : nat) (graph : list MapNode) (start end_ : nat)
  : outcome (option (list nat)) :=
  s ← getNode graph start;
  e ← getNode graph end_;
  let end_x := x e in
  let end_y := y e in
  let base_cost := get_cost (x s) (y s) (x e) (y e) in
  search_loop fuel graph [[start]; []; []; []] base_cost start end_
    end_x end_y.

Definition cells (graph : list MapNode) (path : list nat) : list (Z * Z) :=
  omap (λ r, (λ n, (x n, y n)) <$> graph !! r) path.

End Main.

(** ** Predicates of the specification *)

(** Every in-bounds cell of the grid, row after row of the list. *)
Definition cells (this : AStar.t) : list (Z * Z) :=
  x ← seqZ 0 (AStar.mapSize this);
  y ← seqZ 0 (AStar.mapSize this);
  [(x, y)].

Definition in_bounds (this : AStar.t) (p : Z * Z) : Prop :=
  AStar.isValidCoordinate this p.1 p.2 = true.

Definition is_obstacle (this : AStar.t) (p : Z * Z) : Prop :=
  AStar.key p.1 p.2 ∈ AStar.obstacles this.

(** What the specification asks of a returned path. *)
Record ValidPath (this : AStar.t) (start end_ : Z * Z)
  (path : list AStar.PathNode) : Prop := {
  path_first : head (coords path) = Some start;
  path_last : last (coords path) = Some end_;
  path_steps : stepwise this (coords path);
  path_cells :
    Forall (λ p, in_bounds this p ∧ ¬ is_obstacle this p) (coords path)
}.

(** ** The invariant of the main loop of [findPath] *)

Definition nkey (n : AStar.PathNode) : string :=
  AStar.key (AStar.x n) (AStar.y n).

(** [chain a r l]: [l] lists the references met from [r] along [parent]. *)
Inductive chain (a : list AStar.PathNode) : nat → list nat → Prop :=
  | chain_root r nd :
      a !! r = Some nd → AStar.parent nd = None → chain a r [r]
  | chain_link r nd p l :
      a !! r = Some nd → AStar.parent nd = Some p → chain a p l →
      chain a r (r :: l).

Definition present (st : AStar.state) (q : Z * Z) : Prop :=
  ∃ r nd, AStar.arena st !! r = Some nd ∧ pos nd = q.

Section invariant.
Context (this : AStar.t) (start end_ : Z * Z).

Record Inv (st : AStar.state) : Prop := {
  inv_open : ∀ r, r ∈ AStar.openList st →
    ∃ nd, AStar.arena st !! r = Some nd ∧
          AStar.openSet st !! nkey nd = Some r ∧
          nkey nd ∉ AStar.closedSet st;
  inv_openSet : ∀ k r, AStar.openSet st !! k = Some r →
    r ∈ AStar.openList st ∧
    ∃ nd, AStar.arena st !! r = Some nd ∧ nkey nd = k;
  inv_nodup : NoDup (AStar.openList st);
  inv_valid : ∀ r nd, AStar.arena st !! r = Some nd →
    AStar.isValidPosition this (AStar.x nd) (AStar.y nd) = true;
  inv_status : ∀ r nd, AStar.arena st !! r = Some nd →
    r ∈ AStar.openList st ∨
    (nkey nd ∈ AStar.closedSet st ∧ pos nd ≠ end_);
  inv_parent : ∀ r nd p, AStar.arena st !! r = Some nd →
    AStar.parent nd = Some p →
    ∃ pn, AStar.arena st !! p = Some pn ∧
          nkey pn ∈ AStar.closedSet st ∧
          pos nd ∈ neighbors_of this (pos pn);
  inv_root : ∀ r nd, AStar.arena st !! r = Some nd →
    AStar.parent nd = None → pos nd = start;
  inv_chain : ∀ r nd, AStar.arena st !! r = Some nd →
    ∃ l, chain (AStar.arena st) r l ∧ NoDup l;
  inv_closed : ∀ k, k ∈ AStar.closedSet st →
    ∃ r nd, AStar.arena st !! r = Some nd ∧ nkey nd = k;
  inv_start : present st start
}.

(** Every neighbour of a closed cell has a node, but for the cells [todo]
    around the cell [c] that is being expanded. *)
Definition CompleteBut (c : Z * Z) (todo : list (Z * Z))
  (st : AStar.state) : Prop :=
  ∀ p q, AStar.key p.1 p.2 ∈ AStar.closedSet st →
    q ∈ neighbors_of this p →
    present st q ∨ (p = c ∧ q ∈ todo).

Definition Complete (st : AStar.state) : Prop := CompleteBut start [] st.

(** [turns k st st']: [k] turns of the main loop lead from [st] to [st']. *)
Inductive turns : nat → AStar.state → AStar.state → Prop :=
  | turns_O st : turns 0 st st
  | turns_S k st st' st'' :
      turns k st st' → AStar.turn this end_ st' = Return (inl st'') →
      turns (S k) st st''.
End invariant.

(** No character of [s] is the separator of a key. *)
Fixpoint comma_free (s : string) : Prop :=
  match s with
  | EmptyString => True
  | String c s' => c ≠ ","%char ∧ comma_free s'
  end.

(** Reachability along the [nodes] links of a graph of [MapNode]. *)
Definition linked (graph : list Main.MapNode) (i j : nat) : Prop :=
  ∃ n, graph !! i = Some n ∧ j ∈ Main.nodes n ∧ is_Some (graph !! j).

(** ** Cells of a [w] x [h] box *)

Definition inbox (w h : Z) (p : Z * Z) : Prop :=
  0 ≤ p.1 < w ∧ 0 ≤ p.2 < h.

(** [q] is next to [p] along one of the two axes. *)
Definition axis_adjacent (p q : Z * Z) : Prop :=
  q = (p.1 + 1, p.2) ∨ q = (p.1 - 1, p.2) ∨
  q = (p.1, p.2 + 1) ∨ q = (p.1, p.2 - 1).

(** The index of the cell [(x, y)] in the array built by [createNodes]. *)
Definition cell_index (w : Z) (p : Z * Z) : nat := Z.to_nat (p.1 + p.2 * w).

(** ** Concrete grids of the examples *)

(** A 3 x 3 grid without obstacles, as built by [new AStar(3)]. *)
Definition grid3 : AStar.t := AStar.mkAStar 3 ∅ None.

(** What [findPath] returns on [grid3] from [(0, 0)] to [(2, 0)]. *)
Definition path3 : list AStar.PathNode :=
  Eval vm_compute in
    match (AStar.findPath grid3 (0, 0) (2, 0)).1 with
    | Return (Some p) => p
    | _ => []
    end.

(** A 2 x 2 grid without obstacles. *)
Definition grid2 : AStar.t := AStar.mkAStar 2 ∅ None.

(** A 7 x 7 grid whose only obstacle is the cell [(3, 1)], as built by
    [new AStar(7, ["3,1"])]. *)
Definition grid7 : AStar.t := AStar.mkAStar 7 {["3,1"]} None.

(** What [findPath] returns on [grid7] from [(4, 0)] to [(0, 6)]. *)
Definition path7 : list AStar.PathNode :=
  Eval vm_compute in
    match (AStar.findPath grid7 (4, 0) (0, 6)).1 with
    | Return (Some p) => p
    | _ => []
    end.

(** A 4 x 4 grid with the obstacles [(2, 1)] and [(3, 2)], as built by
    [new AStar(4, ["2,1", "3,2"])]. *)
Definition grid4 : AStar.t := AStar.mkAStar 4 {["2,1"; "3,2"]} None.

(** What [findPath] returns on [grid4] from [(0, 0)] to [(3, 1)]. *)
Definition path4 : list AStar.PathNode :=
  Eval vm_compute in
    match (AStar.findPath grid4 (0, 0) (3, 1)).1 with
    | Return (Some p) => p
    | _ => []
    end.

(** A 3 x 3 grid of which the middle column alone is free, as built by
    [new AStar(3, ["0,0", "2,0", "0,1", "2,1", "0,2", "2,2"])], and the
    entries of its cells, row after row, as [createNodes] reads them. *)
Definition grid_column : AStar.t :=
  AStar.mkAStar 3 {["0,0"; "2,0"; "0,1"; "2,1"; "0,2"; "2,2"]} None.

Definition data_column : list Z := [1; 0; 1; 1; 0; 1; 1; 0; 1].

(** The 2 x 2 map without obstacles, as [createNodes] links it. *)
Definition graph2 : list Main.MapNode := Main.createNodes 2 2 [0; 0; 0; 0].

(** ** The statements of the specification that the code is tested against *)

(** The heuristic never exceeds the number of steps of a walk to [end]. *)
Definition admissible (this : AStar.t) : Prop :=
  ∀ p end_ k hv,
    in_bounds this p → in_bounds this end_ → walk this p end_ k →
    AStar.calculateHeuristic (AStar.set_endPos this end_) p.1 p.2 = Return hv →
    (hv <= inject_Z (Z.of_nat k))%Q.

(** The path returned has as many steps as breadth-first search counts. *)
Definition optimal (this : AStar.t) (start end_ : Z * Z) : Prop :=
  ∀ path,
    (AStar.findPath this start end_).1 = Return (Some path) →
    bfs this start end_ = Some (length path - 1)%nat.

(** One step of the grid: [getNeighbors] lists [q] around [p]. *)
Definition hop (this : AStar.t) (p q : Z * Z) : Prop :=
  q ∈ neighbors_of this p.

(** The bucket search is given the grid of [this] as [createNodes] links
    it, with an entry of [data] for each cell, row after row.  The two
    strategies search the same graph from [start] when, at every cell that
    the steps of [getNeighbors] lead to from [start], the cells of the
    nodes linked to the node of the cell are the cells that [getNeighbors]
    lists around it. *)
Definition same_links (this : AStar.t) (data : list Z) (start : Z * Z)
  : Prop :=
  let n := AStar.mapSize this in
  ∀ p nd, rtc (hop this) start p →
    Main.createNodes n n data !! cell_index n p = Some nd →
    ∀ q, q ∈ neighbors_of this p ↔
         q ∈ Main.cells (Main.createNodes n n data) (Main.nodes nd).

(** The cells of the way that a sequence returned by [search] stands for:
    the sequence runs from [end] back to the node after [start], and is
    [start] alone when [start] is [end]. *)
Definition route (graph : list Main.MapNode) (start end_ : nat)
  (path : list nat) : list (Z * Z) :=
  Main.cells graph
    (if decide (start = end_) then path else start :: reverse path).

(** ** Further notions about the code *)

(** The offsets that [getNeighbors] tries for a cell of row [y]. *)
Definition directions_of (y : Z) : list (Z * Z) :=
  if Z.rem y 2 =? 0 then AStar.evenRowDirections else AStar.oddRowDirections.

(** The larger of the two coordinate distances between two cells. *)
Definition span (p q : Z * Z) : Z :=
  Z.max (Z.abs (p.1 - q.1)) (Z.abs (p.2 - q.2)).

(** What the nodes of the arena record, besides the invariant [Inv]: a cell
    has one node at most, [h] is the heuristic of the cell, [f] is [g + h],
    and [g] is one more than the [g] of the parent. *)
Record Scores (this : AStar.t) (a : list AStar.PathNode) : Prop := {
  scores_distinct : ∀ r1 r2 n1 n2,
    a !! r1 = Some n1 → a !! r2 = Some n2 → nkey n1 = nkey n2 → r1 = r2;
  scores_h : ∀ r nd, a !! r = Some nd →
    AStar.calculateHeuristic this (AStar.x nd) (AStar.y nd)
      = Return (AStar.h nd) ∧
    AStar.f nd = (AStar.g nd + AStar.h nd)%Q;
  scores_g : ∀ r nd, a !! r = Some nd →
    match AStar.parent nd with
    | None => AStar.g nd = 0%Q
    | Some p => ∃ pn, a !! p = Some pn ∧ AStar.g nd = (AStar.g pn + 1)%Q
    end
}.

(** The offsets, in columns and rows, of the cells whose nodes
    [createNodes] may link to the node of a cell: left, right, up, up right,
    down, down right. *)
Definition link_offsets : list (Z * Z) :=
  [(-1, 0); (1, 0); (0, -1); (1, -1); (0, 1); (1, 1)].

(** ** The state of the bucket search *)

(** A graph whose nodes are as [new MapNode] leaves them: token 0, cost 0
    and no [prev]. *)
Definition fresh (graph : list Main.MapNode) : Prop :=
  ∀ r nd, graph !! r = Some nd →
    Main.token nd = 0 ∧ Main.prev nd = None ∧ Main.cost nd = 0.

(** Each node of [l] is linked to the next one of [l]. *)
Fixpoint link_path (graph : list Main.MapNode) (l : list nat) : Prop :=
  match l with
  | i :: l' =>
      match l' with
      | j :: _ => linked graph i j ∧ link_path graph l'
      | [] => True
      end
  | [] => True
  end.

(** The test [this.search_token > i.token] fails: the node has been given
    a cost and a [prev] by the running search. *)
Definition stamped (nd : Main.MapNode) : Prop :=
  ¬ Main.token nd < Main.search_token.

Definition unstamped (graph : list Main.MapNode) : nat :=
  length (filter (λ nd, Main.token nd < Main.search_token) graph).

(** What the search keeps true of the array of nodes [g], started on
    [g0]: links and coordinates stay; a node that is not stamped has cost 0;
    a stamped node has a [prev] that is linked to it and, unless that is
    [start], is one step cheaper. *)
Record Stamps (g0 : list Main.MapNode) (start : nat)
  (g : list Main.MapNode) : Prop := {
  stamps_static :
    Forall2 (λ n0 n, Main.nodes n = Main.nodes n0 ∧
                     Main.x n = Main.x n0 ∧ Main.y n = Main.y n0) g0 g;
  stamps_fresh : ∀ r nd, g !! r = Some nd → ¬ stamped nd → Main.cost nd = 0;
  stamps_prev : ∀ r nd, g !! r = Some nd → stamped nd →
    ∃ p np, Main.prev nd = Some p ∧ g !! p = Some np ∧ r ∈ Main.nodes np ∧
      1 ≤ Main.cost nd ∧
      Z.of_nat (unstamped g) + Main.cost nd ≤ Z.of_nat (length g) ∧
      (p ≠ start → stamped np ∧ Main.cost nd = Main.cost np + 1)
}.

(** The state while the links of the node [cur] are visited: [D] holds the
    nodes whose links have all been visited before. *)
Record Mid (g0 : list Main.MapNode) (start cur : nat) (D : gset nat)
  (g : list Main.MapNode) (opens : list (list nat)) : Prop := {
  mid_stamps : Stamps g0 start g;
  mid_cur : ∃ c, g !! cur = Some c ∧ (stamped c ∨ cur = start);
  mid_open : ∀ b r, b ∈ opens → r ∈ b → ∃ nd, g !! r = Some nd ∧ stamped nd;
  mid_closed : ∀ r nd0 j, r ∈ D → g0 !! r = Some nd0 → j ∈ Main.nodes nd0 →
    ∃ nj, g !! j = Some nj ∧ stamped nj;
  mid_covered : ∀ r nd, g !! r = Some nd → stamped nd →
    r ∈ D ∨ r = cur ∨ ∃ b, b ∈ opens ∧ r ∈ b
}.

(** The state at the test of the loop, after the first turn. *)
Record Frontier (g0 : list Main.MapNode) (start end_ : nat) (D : gset nat)
  (g : list Main.MapNode) (opens : list (list nat)) : Prop := {
  frontier_stamps : Stamps g0 start g;
  frontier_open :
    ∀ b r, b ∈ opens → r ∈ b → ∃ nd, g !! r = Some nd ∧ stamped nd;
  frontier_start : start ∈ D;
  frontier_end : end_ ∉ D;
  frontier_closed : ∀ r nd0 j,
    r ∈ D → g0 !! r = Some nd0 → j ∈ Main.nodes nd0 →
    ∃ nj, g !! j = Some nj ∧ stamped nj;
  frontier_covered : ∀ r nd, g !! r = Some nd → stamped nd →
    r ∈ D ∨ ∃ b, b ∈ opens ∧ r ∈ b
}.

(** The nodes met from [cur] along [prev], up to the one whose [prev] is
    [start]. *)
Inductive trail (g : list Main.MapNode) (start : nat)
  : nat → list nat → Prop :=
  | trail_last cur nd :
      g !! cur = Some nd → Main.prev nd = Some start → trail g start cur []
  | trail_more cur nd p l :
      g !! cur = Some nd → Main.prev nd = Some p → p ≠ start →
      trail g start p l → trail g start cur (p :: l).

(** Bucket [j] holds nodes whose estimate plus cost is [base_cost + j]. *)
Definition Buckets (g : list Main.MapNode) (opens : list (list nat))
  (base_cost end_x end_y : Z) : Prop :=
  length opens = 4%nat ∧
  ∀ j b r nd, opens !! j = Some b → r ∈ b → g !! r = Some nd →
    Main.get_cost (Main.x nd) (Main.y nd) end_x end_y + Main.cost nd
    = base_cost + Z.of_nat j.

(** The measure that every turn of the loop of [search] lowers. *)
Fixpoint weight (k : nat) (opens : list (list nat)) : nat :=
  match opens with
  | [] => 0
  | b :: rest => k * length b + weight (S k) rest
  end.

Definition potential (g : list Main.MapNode) (opens : list (list nat)) : nat :=
  4 * unstamped g + weight 1 opens.

(** Every link of [graph] leads to another node of [graph], whose estimate
    of the way to the cell [(end_x, end_y)] is lower by at most 1 and higher
    by at most 2. *)
Definition gentle (graph : list Main.MapNode) (end_x end_y : Z) : Prop :=
  ∀ r n j, graph !! r = Some n → j ∈ Main.nodes n →
    j ≠ r ∧
    ∃ m, graph !! j = Some m ∧
      -1 ≤ Main.get_cost (Main.x m) (Main.y m) end_x end_y
           - Main.get_cost (Main.x n) (Main.y n) end_x end_y ≤ 2.

(** The same without the lower bound: no link raises the estimate by more
    than 2. *)
Definition reined (graph : list Main.MapNode) (end_x end_y : Z) : Prop :=
  ∀ r n j, graph !! r = Some n → j ∈ Main.nodes n →
    j ≠ r ∧
    ∃ m, graph !! j = Some m ∧
      Main.get_cost (Main.x m) (Main.y m) end_x end_y
      - Main.get_cost (Main.x n) (Main.y n) end_x end_y ≤ 2.

(** The lower bound of [gentle], asked only of the links of the nodes that
    the links lead to from [start]. *)
Definition gentle_from (graph : list Main.MapNode) (start : nat)
  (end_x end_y : Z) : Prop :=
  ∀ r n j m, rtc (linked graph) start r →
    graph !! r = Some n → j ∈ Main.nodes n → graph !! j = Some m →
    -1 ≤ Main.get_cost (Main.x m) (Main.y m) end_x end_y
         - Main.get_cost (Main.x n) (Main.y n) end_x end_y.

(** ** The ES5 stand-ins for [Map] and [Set] *)

(** Both classes keep their entries in a plain object, under the text that
    [JSON.stringify] gives for the key.  [stringify] stands for that
    function; its results (quoted strings, numbers, bracketed texts, [null],
    [true], [false], [undefined]) never name a property that a plain object
    inherits, so reading [items[keyStr]] sees own properties only. *)
Module SimpleMap.
Section simple_map.
Context {K V : Type} (stringify : K → string).

Record t : Type := mk {
  items : gmap string V;
  keyMap : gmap string K
}.

(** [new SimpleMap()] *)
Definition constructor : t := mk ∅ ∅.

Definition set (this : t) (key : K) (value : V) : t :=
  let keyStr := stringify key in
  mk (<[keyStr := value]> (items this)) (<[keyStr := key]> (keyMap this)).

Definition get (this : t) (key : K) : option V :=
  let keyStr := stringify key in
  items this !! keyStr.

Definition has (this : t) (key : K) : bool :=
  let keyStr := stringify key in
  bool_decide (is_Some (items this !! keyStr)).

Definition delete (this : t) (key : K) : t :=
  let keyStr := stringify key in
  mk (base.delete keyStr (items this)) (base.delete keyStr (keyMap this)).

Definition clear (this : t) : t := mk ∅ ∅.

(** [keyMap] mirrors [items]: the same property names, each with a key
    that has this name as its text. *)
Definition mirrored (this : t) : Prop :=
  ∀ keyStr,
    match keyMap this !! keyStr with
    | Some key => stringify key = keyStr ∧ is_Some (items this !! keyStr)
    | None => items this !! keyStr = None
    end.

End simple_map.
End SimpleMap.

Arguments SimpleMap.t : clear implicits.
Arguments SimpleMap.constructor : clear implicits.

Module SimpleSet.
Section simple_set.
Context {T : Type} (stringify : T → string).

(** The field [items]. *)
Definition t : Type := gmap string T.

Definition add (this : t) (value : T) : t :=
  let key := stringify value in
  <[key := value]> this.

(** [new SimpleSet(values)] *)
Definition constructor (values : option (list T)) : t :=
  match values with
  | Some values => foldl add ∅ values
  | None => ∅
  end.

Definition has (this : t) (value : T) : bool :=
  let key := stringify value in
  bool_decide (is_Some (this !! key)).

Definition delete (this : t) (value : T) : t :=
  let key := stringify value in
  base.delete key this.

Definition clear (this : t) : t := ∅.

End simple_set.
End SimpleSet.

Arguments SimpleSet.t : clear implicits.

(** The text that [JSON.stringify] gives for a string in which nothing is
    to be escaped, as the keys of [AStar] are: the string between double
    quotes. *)
Definition quoted (s : string) : string :=
  String (ascii_of_nat 34) (s +:+ String (ascii_of_nat 34) "").

(** ** The map view *)

(** The state of a [MapView] that its click handlers read and write: the
    obstacle keys, the two chosen cells, and for each key of [grids] the
    colour that [drawHexagon] filled its shape with last. *)
Module MapView.

Definition MAP_SIZE : Z := 100.

Record t : Type := mk {
  obstacles : list string;
  startPos : option (Z * Z);
  endPos : option (Z * Z);
  grids : gmap string Z
}.

Definition isObstacle (this : t) (position : string) : bool :=
  bool_decide (position ∈ obstacles this).

(** [this.drawHexagon(this.grids[position], color)]; a missing shape has
    no [graphics]. *)
Definition drawHexagon (this : t) (position : string) (color : Z)
  : outcome t :=
  match grids this !! position with
  | Some _ =>
      Return (mk (obstacles this) (startPos this) (endPos this)
                (<[position := color]> (grids this)))
  | None => Throw TypeError
  end.

(** The cells in the order of the loops over [row] and [col]. *)
Definition positions : list (Z * Z) :=
  row ← seqZ 0 MAP_SIZE; col ← seqZ 0 MAP_SIZE; [(col, row)].

(** [initMap()]: a shape for every cell, red on obstacles, white elsewhere. *)
Definition initMap (this : t) : t :=
  mk (obstacles this) (startPos this) (endPos this)
    (foldl (λ grids p,
       let position := AStar.key p.1 p.2 in
       <[position := if isObstacle this position then 0xFF0000 else 0xFFFFFF]>
         grids) (grids this) positions).

(** The cells that [initMap] gives a click handler. *)
Definition clickable (this : t) (p : Z * Z) : Prop :=
  (0 ≤ p.1 < MAP_SIZE ∧ 0 ≤ p.2 < MAP_SIZE) ∧
  isObstacle this (AStar.key p.1 p.2) = false.

Definition resetMap (this : t) : outcome t :=
  this' ← forEach (λ this p,
             let position := AStar.key p.1 p.2 in
             if isObstacle this position then Return this
             else drawHexagon this position 0xFFFFFF) positions this;
  Return (mk (obstacles this') None None (grids this')).

(** The nodes [path[1]] to [path[path.length - 2]]. *)
Definition inner (path : list AStar.PathNode) : list AStar.PathNode :=
  take (length path - 2) (drop 1 path).

Definition findPath (this : t) : outcome t :=
  match startPos this, endPos this with
  | Some start, Some end_ =>
      astar ← AStar.constructor MAP_SIZE (Some (obstacles this));
      path ← (AStar.findPath astar start end_).1;
      match path with
      | Some path =>
          if (2 <? length path)%nat then
            forEach (λ this node,
              drawHexagon this (AStar.key (AStar.x node) (AStar.y node))
                0x0000FF) (inner path) this
          else Return this
      | None => Return this
      end
  | _, _ => Return this
  end.

Definition onGridClick (this : t) (x y : Z) : outcome t :=
  let position := AStar.key x y in
  this ← (match startPos this, endPos this with
          | Some _, Some _ => resetMap this
          | _, _ => Return this
          end);
  match startPos this with
  | None =>
      drawHexagon (mk (obstacles this) (Some (x, y)) (endPos this)
                     (grids this)) position 0x00FF00
  | Some _ =>
      match endPos this with
      | None =>
          this ← drawHexagon (mk (obstacles this) (startPos this)
                                (Some (x, y)) (grids this)) position 0xFF00FF;
          findPath this
      | Some _ => Return this
      end
  end.

(** What holds of the view between two clicks. *)
Record Ready (this : t) : Prop := {
  ready_grids : ∀ x y,
    0 ≤ x < MAP_SIZE → 0 ≤ y < MAP_SIZE →
    is_Some (grids this !! AStar.key x y);
  ready_start : ∀ p, startPos this = Some p → clickable this p;
  ready_end : ∀ p,
    endPos this = Some p → clickable this p ∧ is_Some (startPos this);
  ready_red : ∀ x y,
    0 ≤ x < MAP_SIZE → 0 ≤ y < MAP_SIZE →
    isObstacle this (AStar.key x y) = true →
    grids this !! AStar.key x y = Some 0xFF0000
}.

(** A view as [onAddToStage] leaves it, with [obstacles] for the keys that
    [generateObstacles] drew. *)
Definition start_view (obstacles : list string) : t :=
  initMap (mk obstacles None None ∅).

(** The handlers of the cells of [clicks] run one after the other. *)
Definition clicks (this : t) (clicks : list (Z * Z)) : outcome t :=
  forEach (λ this p, onGridClick this p.1 p.2) clicks this.

(** The loop of [generateObstacles()].  The numbers that
    [Math.floor(Math.random() * this.MAP_SIZE)] gives are read off [draws],
    a pair for the two calls of each round; a loop that has used up
    [draws] is still running. *)
Fixpoint generateObstacles_loop (obstacleCount : Z) (draws : list (Z * Z))
    (obstacles : list string) : outcome (list string) :=
  if bool_decide (Z.of_nat (length obstacles) < obstacleCount) then
    match draws with
    | [] => OutOfFuel
    | (col, row) :: draws =>
        let position := AStar.key col row in
        generateObstacles_loop obstacleCount draws
          (if bool_decide (position ∈ obstacles) then obstacles
           else obstacles ++ [position])
    end
  else Return obstacles.

(** [count] is the number that [Math.floor(Math.random() * 100)] gives. *)
Definition generateObstacles (this : t) (count : Z) (draws : list (Z * Z))
  : outcome t :=
  let obstacleCount := count + 600 in
  obstacles ← generateObstacles_loop obstacleCount draws (obstacles this);
  Return (mk obstacles (startPos this) (endPos this) (grids this)).

(** The fields of a new view. *)
Definition constructor : t := mk [] None None ∅.

Definition onAddToStage (this : t) (count : Z) (draws : list (Z * Z))
  : outcome t :=
  this ← generateObstacles this count draws;
  Return (initMap this).

End MapView.

(** ** The scene of class [Main] *)

Module Scene.

(** [createMap(w, h)]; [random i] tells whether the call of [Math.random]
    for entry [i] gave more than 0.7.  [true] and [false] are written 1 and
    0, as which [== 1] and [== 0] read them. *)
Definition createMap (random : nat → bool) (w h : Z) : list Z :=
  (λ i, if random i then 1 else 0) <$> seq 0 (Z.to_nat (w * h)).

(** The turns that [search] gets: enough for every search towards the
    first column on a map of [n] entries (see [search_first_column]). *)
Definition search_fuel (n : nat) : nat := 4 * n + 2.

(** [createGameScene()]: the cells drawn black and the cells drawn red.
    A [null] path cannot be iterated. *)
Definition createGameScene (random : nat → bool)
  : outcome (list (Z * Z) * list (Z * Z)) :=
  let w := 50 in
  let h := 50 in
  let map_data := createMap random w h in
  let map_data := <[0%nat := 0]> map_data in
  let map_data := <[240%nat := 0]> map_data in
  let map_node := Main.createNodes w h map_data in
  let black :=
    omap (λ n, if Main.v n =? 1 then Some (Main.x n, Main.y n) else None)
      map_node in
  let start := 240%nat in
  let end_ := 0%nat in
  path ← Main.search (search_fuel (length map_node)) map_node start end_;
  match path with
  | Some path => Return (black, Main.cells map_node path)
  | None => Throw TypeError
  end.

End Scene.

(** ** The square map view *)

(** [MapView2] finds its paths itself, on a square grid with steps along
    the rows and columns.  Its nodes are never changed once they are in a
    list, so a node is the value of its fields, its parent included.  A cell
    is a pair of a row and a column. *)
Module MapView2.

Definition MAP_SIZE : Z := 8.

#[warnings="-register-all"] Inductive Node : Type :=
  mkNode (row col g h f : Z) (parent : option Node).

Definition row (n : Node) : Z := let 'mkNode r _ _ _ _ _ := n in r.
Definition col (n : Node) : Z := let 'mkNode _ c _ _ _ _ := n in c.
Definition g (n : Node) : Z := let 'mkNode _ _ g _ _ _ := n in g.
Definition h (n : Node) : Z := let 'mkNode _ _ _ h _ _ := n in h.
Definition f (n : Node) : Z := let 'mkNode _ _ _ _ f _ := n in f.
Definition parent (n : Node) : option Node :=
  let 'mkNode _ _ _ _ _ p := n in p.

Record t : Type := mk {
  obstacles : list string;
  startPos : option (Z * Z);
  endPos : option (Z * Z);
  grids : gmap string Z
}.

Definition isObstacle (this : t) (position : string) : bool :=
  bool_decide (position ∈ obstacles this).

Definition directions : list (Z * Z) := [(-1, 0); (1, 0); (0, -1); (0, 1)].

Definition getNeighbors (this : t) (node : Node) : list Node :=
  flat_map (λ d : Z * Z,
    let newRow := row node + d.1 in
    let newCol := col node + d.2 in
    if (0 <=? newRow) && (newRow <? MAP_SIZE) &&
       (0 <=? newCol) && (newCol <? MAP_SIZE)
    then
      if negb (isObstacle this (AStar.key newRow newCol))
      then [mkNode newRow newCol 0 0 0 None]
      else []
    else []) directions.

Definition isInList (node : Node) (list : list Node) : bool :=
  existsb (λ item, (row item =? row node) && (col item =? col node)) list.

(** [getMinFNode(list)], for a list that is not empty. *)
Definition getMinFNode (minNode : Node) (rest : list Node) : Node :=
  foldl (λ minNode n, if f n <? f minNode then n else minNode) minNode rest.

Definition isStartOrEnd (this : t) (row col : Z) : bool :=
  match startPos this with
  | Some s => (s.1 =? row) && (s.2 =? col)
  | None => false
  end ||
  match endPos this with
  | Some e => (e.1 =? row) && (e.2 =? col)
  | None => false
  end.

(** The five calls on [this.grids[position].graphics] that fill the shape
    with [color]; a missing shape has no [graphics]. *)
Definition fill (this : t) (position : string) (color : Z) : outcome t :=
  match grids this !! position with
  | Some _ =>
      Return (mk (obstacles this) (startPos this) (endPos this)
                (<[position := color]> (grids this)))
  | None => Throw TypeError
  end.

Fixpoint drawPath (this : t) (current : Node) : outcome t :=
  match current with
  | mkNode row col _ _ _ (Some parent) =>
      this ← (if isStartOrEnd this row col then Return this
              else fill this (AStar.key row col) 0x0000FF);
      drawPath this parent
  | mkNode _ _ _ _ _ None => Return this
  end.

(** One turn of the loop over [neighbors]. *)
Definition visitNeighbor (end_ : Z * Z) (currentNode : Node)
  (closedList openList : list Node) (neighbor : Node) : list Node :=
  if isInList neighbor closedList then openList
  else
    let gScore := g currentNode + 1 in
    let inOpenList := isInList neighbor openList in
    if negb inOpenList || (gScore <? g neighbor) then
      let h' := Z.abs (end_.1 - row neighbor) + Z.abs (end_.2 - col neighbor) in
      let neighbor' :=
        mkNode (row neighbor) (col neighbor) gScore h' (gScore + h')
          (Some currentNode) in
      if negb inOpenList then openList ++ [neighbor'] else openList
    else openList.

(** [while (openList.length > 0) { ... }] *)
Fixpoint findPath_loop (fuel : nat) (this : t) (end_ : Z * Z)
  (openList closedList : list Node) : outcome t :=
  match fuel with
  | O => OutOfFuel
  | S fuel' =>
      match openList with
      | [] => Return this
      | minNode :: rest =>
          let currentNode := getMinFNode minNode rest in
          if (row currentNode =? end_.1) && (col currentNode =? end_.2)
          then drawPath this currentNode
          else
            let openList :=
              filter (λ node, ¬ (row node = row currentNode ∧
                                 col node = col currentNode)) openList in
            let closedList := closedList ++ [currentNode] in
            let openList :=
              foldl (visitNeighbor end_ currentNode closedList) openList
                (getNeighbors this currentNode) in
            findPath_loop fuel' this end_ openList closedList
      end
  end.

(** Every turn of the loop but the last moves a node of one more cell to
    the closed list. *)
Definition findPath_fuel : nat := S (Z.to_nat (MAP_SIZE * MAP_SIZE)).

Definition findPath (this : t) : outcome t :=
  match startPos this, endPos this with
  | Some s, Some e =>
      let h := Z.abs (e.1 - s.1) + Z.abs (e.2 - s.2) in
      let startNode := mkNode s.1 s.2 0 h (0 + h) None in
      findPath_loop findPath_fuel this e [startNode] []
  | _, _ => Throw TypeError
  end.

(** The cells in the order of the loops over [row] and [col]. *)
Definition positions : list (Z * Z) :=
  row ← seqZ 0 MAP_SIZE; col ← seqZ 0 MAP_SIZE; [(row, col)].

(** [initMap()]: a shape for every cell, red on obstacles, white elsewhere. *)
Definition initMap (this : t) : t :=
  mk (obstacles this) (startPos this) (endPos this)
    (foldl (λ grids p,
       let position := AStar.key p.1 p.2 in
       <[position := if isObstacle this position then 0xFF0000 else 0xFFFFFF]>
         grids) (grids this) positions).

Definition resetMap (this : t) : outcome t :=
  this' ← forEach (λ this p,
             let position := AStar.key p.1 p.2 in
             if negb (isObstacle this position)
             then fill this position 0xFFFFFF
             else Return this) positions this;
  Return (mk (obstacles this') None None (grids this')).

Definition onGridClick (this : t) (row col : Z) : outcome t :=
  let position := AStar.key row col in
  this ← (match startPos this, endPos this with
          | Some _, Some _ => resetMap this
          | _, _ => Return this
          end);
  match startPos this with
  | None =>
      fill (mk (obstacles this) (Some (row, col)) (endPos this) (grids this))
        position 0x00FF00
  | Some _ =>
      match endPos this with
      | None =>
          this ← fill (mk (obstacles this) (startPos this) (Some (row, col))
                         (grids this)) position 0xFF00FF;
          findPath this
      | Some _ => Return this
      end
  end.

(** The handlers of the cells of [clicks] run one after the other. *)
Definition clicks (this : t) (clicks : list (Z * Z)) : outcome t :=
  forEach (λ this p, onGridClick this p.1 p.2) clicks this.

(** A view as [onAddToStage] leaves it, with [obstacles] for the keys that
    [generateObstacles] drew. *)
Definition start_view (obstacles : list string) : t :=
  initMap (mk obstacles None None ∅).

(** The loop of [generateObstacles()], with [draws] for the pairs of numbers
    that [Math.floor(Math.random() * this.MAP_SIZE)] gives, the row first. *)
Fixpoint generateObstacles_loop (obstacleCount : Z) (draws : list (Z * Z))
    (obstacles : list string) : outcome (list string) :=
  if bool_decide (Z.of_nat (length obstacles) < obstacleCount) then
    match draws with
    | [] => OutOfFuel
    | (row, col) :: draws =>
        let position := AStar.key row col in
        generateObstacles_loop obstacleCount draws
          (if bool_decide (position ∈ obstacles) then obstacles
           else obstacles ++ [position])
    end
  else Return obstacles.

(** [count] is the number that [Math.floor(Math.random() * 3)] gives. *)
Definition generateObstacles (this : t) (count : Z) (draws : list (Z * Z))
  : outcome t :=
  let obstacleCount := count + 3 in
  obstacles ← generateObstacles_loop obstacleCount draws (obstacles this);
  Return (mk obstacles (startPos this) (endPos this) (grids this)).

(** The fields of a new view. *)
Definition constructor : t := mk [] None None ∅.

Definition onAddToStage (this : t) (count : Z) (draws : list (Z * Z))
  : outcome t :=
  this ← generateObstacles this count draws;
  Return (initMap this).

(** A cell of the map that is no obstacle. *)
Definition passable (this : t) (p : Z * Z) : Prop :=
  (0 ≤ p.1 < MAP_SIZE ∧ 0 ≤ p.2 < MAP_SIZE) ∧
  AStar.key p.1 p.2 ∉ obstacles this.

(** [q] is a passable cell next to [p] in its row or its column. *)
Definition step (this : t) (p q : Z * Z) : Prop :=
  passable this q ∧ (q.1 - p.1, q.2 - p.2) ∈ directions.

Definition cell (n : Node) : Z * Z := (row n, col n).

(** The cells of the nodes from [n] along [parent]. *)
Fixpoint cells (n : Node) : list (Z * Z) :=
  match n with
  | mkNode row col _ _ _ (Some parent) => (row, col) :: cells parent
  | mkNode row col _ _ _ None => [(row, col)]
  end.

(** The parents of [n] lead back to [start], step by step. *)
Fixpoint rooted (this : t) (start : Z * Z) (n : Node) : Prop :=
  match n with
  | mkNode row col _ _ _ (Some parent) =>
      step this (cell parent) (row, col) ∧ rooted this start parent
  | mkNode row col _ _ _ None => (row, col) = start
  end.

(** Each cell of [l] is a step from the one before. *)
Fixpoint steps (this : t) (l : list (Z * Z)) : Prop :=
  match l with
  | p :: l' =>
      match l' with
      | q :: _ => step this p q ∧ steps this l'
      | [] => True
      end
  | [] => True
  end.

(** What the loop keeps true of its two lists. *)
Record Lists (this : t) (start end_ : Z * Z)
  (openList closedList : list Node) : Prop := {
  lists_rooted : ∀ n, n ∈ openList ++ closedList → rooted this start n;
  lists_passable : ∀ n, n ∈ openList ++ closedList → passable this (cell n);
  lists_distinct : NoDup (cell <$> openList ++ closedList);
  lists_start : start ∈ cell <$> openList ++ closedList;
  lists_end : end_ ∉ cell <$> closedList;
  lists_closed : ∀ n q, n ∈ closedList → step this (cell n) q →
    q ∈ cell <$> openList ++ closedList
}.

(** What holds of the view between two clicks. *)
Record Ready (this : t) : Prop := {
  ready_grids : ∀ p,
    0 ≤ p.1 < MAP_SIZE ∧ 0 ≤ p.2 < MAP_SIZE →
    is_Some (grids this !! AStar.key p.1 p.2);
  ready_start : ∀ p, startPos this = Some p → passable this p;
  ready_end : ∀ p,
    endPos this = Some p → passable this p ∧ is_Some (startPos this)
}.

End MapView2.

(** * Properties *)

(** ** The key of a cell *)

Lemma pretty_N_char_comma n : pretty_N_char n ≠ ","%char.
Proof. unfold pretty_N_char. by repeat case_match. Qed.

Lemma pretty_N_go_comma_free n s : comma_free s → comma_free (pretty_N_go n s).
Proof.
  revert s. induction (N.lt_wf_0 n) as [n _ IH]; intros s Hs.
  destruct (decide (n = 0)%N) as [->|Hn]; [by rewrite pretty_N_go_0|].
  rewrite pretty_N_go_step by lia.
  apply IH; [apply N.div_lt; lia|].
  split; [apply pretty_N_char_comma | done].
Qed.

Lemma pretty_N_comma_free (n : N) : comma_free (pretty n).
Proof.
  unfold pretty, pretty_N. case_decide; [by compute|].
  by apply pretty_N_go_comma_free.
Qed.

Lemma pretty_Z_comma_free (z : Z) : comma_free (pretty z).
Proof.
  destruct z as [|p|p]; unfold pretty, pretty_Z.
  - by compute.
  - apply pretty_N_comma_free.
  - split; [done | apply pretty_N_comma_free].
Qed.

Lemma append_nil (t : string) : "" +:+ t = t.
Proof. reflexivity. Qed.

Lemma append_cons c (s t : string) : String c s +:+ t = String c (s +:+ t).
Proof. reflexivity. Qed.

Lemma comma_split s1 s2 t1 t2 :
  comma_free s1 → comma_free s2 →
  s1 +:+ "," +:+ t1 = s2 +:+ "," +:+ t2 → s1 = s2 ∧ t1 = t2.
Proof.
  revert s2. induction s1 as [|c s1 IH]; intros [|c' s2];
    repeat (rewrite append_nil || rewrite append_cons); simpl.
  - intros _ _ [= ->]. done.
  - intros _ [Hc _] [= <-]. done.
  - intros [Hc _] _ [= ->]. done.
  - intros [_ H1] [_ H2] [= -> Heq]. destruct (IH s2 H1 H2 Heq) as [-> ->]. done.
Qed.

Lemma key_inj x y x' y' : AStar.key x y = AStar.key x' y' → x = x' ∧ y = y'.
Proof.
  unfold AStar.key. intros Heq.
  apply comma_split in Heq as [Hx Hy]; try apply pretty_Z_comma_free.
  split; by apply (inj pretty).
Qed.

(** ** Node references and neighbours *)

Lemma getNode_Some a r nd : a !! r = Some nd → AStar.getNode a r = Return nd.
Proof. unfold AStar.getNode. by intros ->. Qed.

Lemma getNeighbors_coords this nd :
  coords (AStar.getNeighbors this nd) = neighbors_of this (pos nd).
Proof. reflexivity. Qed.

Lemma getNeighbors_valid this nd nb :
  nb ∈ AStar.getNeighbors this nd →
  AStar.isValidPosition this (AStar.x nb) (AStar.y nb) = true.
Proof.
  unfold AStar.getNeighbors. rewrite list_elem_of_In, in_flat_map.
  intros (dir & _ & Hnb).
  destruct (AStar.isValidPosition _ _ _) eqn:Hv; simpl in Hnb; [|done].
  destruct Hnb as [<-|[]]. done.
Qed.

Lemma isValidPosition_spec this x y :
  AStar.isValidPosition this x y = true ↔
  AStar.isValidCoordinate this x y = true ∧ AStar.key x y ∉ AStar.obstacles this.
Proof.
  unfold AStar.isValidPosition.
  rewrite andb_true_iff, bool_decide_eq_true. done.
Qed.

Lemma isValidCoordinate_spec this x y :
  AStar.isValidCoordinate this x y = true ↔
  0 ≤ x < AStar.mapSize this ∧ 0 ≤ y < AStar.mapSize this.
Proof. unfold AStar.isValidCoordinate. lia. Qed.

(** A step along an axis is a step of the grid, whatever the row. *)
Lemma axis_step this p q :
  AStar.isValidPosition this q.1 q.2 = true →
  (q = (p.1 + 1, p.2) ∨ q = (p.1 - 1, p.2) ∨
   q = (p.1, p.2 + 1) ∨ q = (p.1, p.2 - 1)) →
  q ∈ neighbors_of this p.
Proof.
  intros Hv Hq. unfold neighbors_of, coords, AStar.getNeighbors.
  apply list_elem_of_fmap. exists (AStar.mkNode q.1 q.2 0 0 0 None).
  split; [by destruct q|].
  rewrite list_elem_of_In, in_flat_map. simpl.
  assert (∀ d : Z * Z, q = (p.1 + d.1, p.2 + d.2) →
    In (AStar.mkNode q.1 q.2 0 0 0 None)
      (if AStar.isValidPosition this (p.1 + d.1) (p.2 + d.2)
       then [AStar.mkNode (p.1 + d.1) (p.2 + d.2) 0 0 0 None] else [])) as Hd.
  { intros d ->. simpl in *. rewrite Hv. by left. }
  destruct (Z.rem p.2 2 =? 0);
    destruct Hq as [Hq|[Hq|[Hq|Hq]]].
  - exists (1, 0). split; [simpl; tauto|]. apply Hd. rewrite Hq. f_equal; simpl; lia.
  - exists (-1, 0). split; [simpl; tauto|]. apply Hd. rewrite Hq. f_equal; simpl; lia.
  - exists (0, 1). split; [simpl; tauto|]. apply Hd. rewrite Hq. f_equal; simpl; lia.
  - exists (0, -1). split; [simpl; tauto|]. apply Hd. rewrite Hq. f_equal; simpl; lia.
  - exists (1, 0). split; [simpl; tauto|]. apply Hd. rewrite Hq. f_equal; simpl; lia.
  - exists (-1, 0). split; [simpl; tauto|]. apply Hd. rewrite Hq. f_equal; simpl; lia.
  - exists (0, 1). split; [simpl; tauto|]. apply Hd. rewrite Hq. f_equal; simpl; lia.
  - exists (0, -1). split; [simpl; tauto|]. apply Hd. rewrite Hq. f_equal; simpl; lia.
Qed.

(** ** Selection of the node of least [f] *)

Lemma Qltb_lt a b : AStar.Qltb a b = true ↔ (a < b)%Q.
Proof.
  unfold AStar.Qltb. rewrite Qlt_alt. destruct (a ?= b)%Q; split; congruence.
Qed.

Lemma Qltb_ge a b : AStar.Qltb a b = false ↔ (b <= a)%Q.
Proof.
  rewrite <-not_true_iff_false, Qltb_lt. split; [apply Qnot_lt_le | apply Qle_not_lt].
Qed.

(** The scan of [getMinFNode], started with [minNode] standing for the
    prefix [pre] of the list: the result is the first node of least [f]. *)
Lemma getMinFNode_scan a rest : ∀ pre m0 n0 i0,
  (∀ r, r ∈ rest → is_Some (a !! r)) →
  pre !! i0 = Some m0 → a !! m0 = Some n0 →
  (∀ j r n, pre !! j = Some r → a !! r = Some n → (AStar.f n0 <= AStar.f n)%Q) →
  (∀ j r n, (j < i0)%nat → pre !! j = Some r → a !! r = Some n →
     (AStar.f n0 < AStar.f n)%Q) →
  ∃ m nm i,
    forEach (λ minNode r,
      n ← AStar.getNode a r;
      m ← AStar.getNode a minNode;
      Return (if AStar.Qltb (AStar.f n) (AStar.f m) then r else minNode))
      rest m0 = Return m ∧
    (pre ++ rest) !! i = Some m ∧ a !! m = Some nm ∧
    (∀ j r n, (pre ++ rest) !! j = Some r → a !! r = Some n →
       (AStar.f nm <= AStar.f n)%Q) ∧
    (∀ j r n, (j < i)%nat → (pre ++ rest) !! j = Some r → a !! r = Some n →
       (AStar.f nm < AStar.f n)%Q).
Proof.
  induction rest as [|r rest IH]; intros pre m0 n0 i0 Hval Hi0 Hm0 Hmin Hfirst.
  - exists m0, n0, i0. rewrite app_nil_r. simpl. done.
  - destruct (Hval r) as [n Hn]; [set_solver|].
    simpl. rewrite (getNode_Some _ _ _ Hn). simpl.
    rewrite (getNode_Some _ _ _ Hm0). simpl.
    replace (pre ++ r :: rest) with ((pre ++ [r]) ++ rest)
      by (by rewrite <-app_assoc).
    assert (∀ j r' n', (pre ++ [r]) !! j = Some r' → a !! r' = Some n' →
      (j < length pre)%nat ∧ pre !! j = Some r' ∨
      (j = length pre ∧ r' = r ∧ n' = n)) as Hsplit.
    { intros j r' n' Hj Hr'. destruct (decide (j < length pre)%nat).
      - left. by rewrite lookup_app_l in Hj.
      - right. rewrite lookup_app_r in Hj by lia.
        apply list_lookup_singleton_Some in Hj as [? <-].
        split; [lia|]. split; [done|congruence]. }
    destruct (AStar.Qltb (AStar.f n) (AStar.f n0)) eqn:Hlt.
    + apply Qltb_lt in Hlt.
      apply (IH (pre ++ [r]) r n (length pre)); [set_solver| |done|..].
      * by rewrite lookup_app_r, Nat.sub_diag by lia.
      * intros j r' n' Hj Hr'.
        destruct (Hsplit j r' n' Hj Hr') as [[_ Hp]|(_ & _ & ->)]; [|apply Qle_refl].
        apply Qlt_le_weak. eapply Qlt_le_trans; [exact Hlt|]. by eapply Hmin.
      * intros j r' n' Hlen Hj Hr'.
        destruct (Hsplit j r' n' Hj Hr') as [[_ Hp]|(? & _ & _)]; [|lia].
        eapply Qlt_le_trans; [exact Hlt|]. by eapply Hmin.
    + apply Qltb_ge in Hlt.
      apply (IH (pre ++ [r]) m0 n0 i0); [set_solver| |done|..].
      * apply lookup_app_l_Some. done.
      * intros j r' n' Hj Hr'.
        destruct (Hsplit j r' n' Hj Hr') as [[_ Hp]|(_ & _ & ->)]; [|done].
        by eapply Hmin.
      * intros j r' n' Hlen Hj Hr'.
        destruct (Hsplit j r' n' Hj Hr') as [[_ Hp]|(? & _ & _)].
        -- by eapply Hfirst.
        -- apply lookup_lt_Some in Hi0. lia.
Qed.

Lemma getMinFNode_first a l :
  l ≠ [] → (∀ r, r ∈ l → is_Some (a !! r)) →
  ∃ m nm i, AStar.getMinFNode a l = Return m ∧
    l !! i = Some m ∧ a !! m = Some nm ∧
    (∀ j r n, l !! j = Some r → a !! r = Some n → (AStar.f nm <= AStar.f n)%Q) ∧
    (∀ j r n, (j < i)%nat → l !! j = Some r → a !! r = Some n →
       (AStar.f nm < AStar.f n)%Q).
Proof.
  destruct l as [|r0 rest]; [done|]. intros _ Hval.
  destruct (Hval r0) as [n0 Hn0]; [set_solver|].
  apply (getMinFNode_scan a rest [r0] r0 n0 0%nat); [set_solver|done|done|..].
  - intros j r n Hj Hr. apply list_lookup_singleton_Some in Hj as [_ <-].
    assert (n = n0) as -> by congruence. apply Qle_refl.
  - intros; lia.
Qed.

(** ** Removal from the open list *)

Lemma filter_all {A} (P : A → Prop) `{!∀ x, Decision (P x)} (l : list A) :
  Forall P l → filter P l = l.
Proof.
  induction 1 as [|x l Hx _ IH]; [done|]. by rewrite filter_cons_True, IH.
Qed.

Lemma removeFromOpenList_spec a cur cn l :
  a !! cur = Some cn → NoDup l → cur ∈ l →
  (∀ r nd, r ∈ l → a !! r = Some nd → pos nd = pos cn → r = cur) →
  (∀ r, r ∈ l → is_Some (a !! r)) →
  AStar.removeFromOpenList a l cn = Return (filter (λ r, r ≠ cur) l).
Proof.
  intros Hcur. induction l as [|r l IH]; intros Hnd Hin Hsame Hval.
  { by apply not_elem_of_nil in Hin. }
  apply NoDup_cons in Hnd as [Hr Hnd]. simpl.
  destruct (Hval r) as [nd Hnd']; [by left|].
  rewrite (getNode_Some _ _ _ Hnd'). simpl.
  destruct (decide (r = cur)) as [->|Hne].
  - assert (nd = cn) as -> by congruence.
    rewrite !Z.eqb_refl. simpl.
    rewrite filter_cons_False by naive_solver.
    f_equal. symmetry. apply filter_all, Forall_forall.
    intros r' ? ->. done.
  - destruct ((AStar.x nd =? AStar.x cn) && (AStar.y nd =? AStar.y cn)) eqn:Heq.
    + exfalso. apply Hne, (Hsame r nd); [by left|done|].
      unfold pos. f_equal; lia.
    + apply elem_of_cons in Hin as [?|Hin]; [congruence|].
      rewrite IH; [|done|done|..].
      * simpl. by rewrite filter_cons_True.
      * intros r' nd' ?. apply Hsame. by right.
      * intros r' ?. apply Hval. by right.
Qed.

(** ** Chains of parents *)

Lemma chain_valid a r l : chain a r l → ∀ i, i ∈ l → (i < length a)%nat.
Proof.
  induction 1 as [r nd Hr _|r nd p l Hr _ _ IH]; intros i Hi.
  - apply list_elem_of_singleton in Hi as ->. by eapply lookup_lt_Some.
  - apply elem_of_cons in Hi as [->|Hi]; [by eapply lookup_lt_Some | auto].
Qed.

Lemma chain_app a b r l : chain a r l → chain (a ++ b) r l.
Proof.
  induction 1; [eapply chain_root | eapply chain_link];
    eauto using lookup_app_l_Some.
Qed.

Lemma chain_insert a e nd r l :
  chain a r l → e ∉ l → chain (<[e := nd]> a) r l.
Proof.
  induction 1 as [r n Hr Hp|r n p l Hr Hp _ IH]; intros He.
  - eapply chain_root; [|done]. rewrite list_lookup_insert_ne; [done|set_solver].
  - eapply chain_link; [|done|apply IH; set_solver].
    rewrite list_lookup_insert_ne; [done|set_solver].
Qed.

(** Below its head, a chain only meets parents. *)
Lemma chain_tail a r l :
  chain a r l → ∀ i, i ∈ l → i = r ∨
    ∃ c nc, a !! c = Some nc ∧ AStar.parent nc = Some i.
Proof.
  induction 1 as [r nd Hr _|r nd p l Hr Hp Hc IH]; intros i Hi.
  - apply list_elem_of_singleton in Hi. by left.
  - apply elem_of_cons in Hi as [->|Hi]; [by left|]. right.
    destruct (IH i Hi) as [->|?]; eauto.
Qed.

(** ** Lists and sets *)

Lemma lookup_snoc_Some {A} (a : list A) x r nd :
  (a ++ [x]) !! r = Some nd →
  a !! r = Some nd ∨ (r = length a ∧ nd = x).
Proof.
  intros [?|[? Hx]]%lookup_app_Some; [by left|right].
  apply list_lookup_singleton_Some in Hx as [? ->]. split; [lia|done].
Qed.

Lemma NoDup_bounded (l : list nat) n :
  NoDup l → (∀ i, i ∈ l → (i < n)%nat) → (length l ≤ n)%nat.
Proof.
  intros Hnd Hlt.
  assert (length l ≤ length (seq 0 n))%nat as Hle.
  { apply submseteq_length, NoDup_submseteq; [done|].
    intros i Hi. apply elem_of_seq. specialize (Hlt i Hi). lia. }
  by rewrite length_seq in Hle.
Qed.

Lemma bind_length_const {A B} (f : A → list B) k (l : list A) :
  (∀ a, length (f a) = k) → length (l ≫= f) = (length l * k)%nat.
Proof.
  intros Hf. induction l as [|a l IH]; [done|].
  rewrite bind_cons, length_app, Hf, IH. simpl. lia.
Qed.

Lemma size_list_to_set_le (l : list string) :
  (size (list_to_set l : gset string) ≤ length l)%nat.
Proof.
  induction l as [|a l IH]; [by rewrite list_to_set_nil, size_empty|].
  rewrite list_to_set_cons, size_union_alt, size_singleton. simpl.
  assert (size (list_to_set l ∖ {[a]} : gset string)
          ≤ size (list_to_set l : gset string))%nat
    by (apply subseteq_size; set_solver).
  lia.
Qed.

(** ** The invariant is kept by the main loop *)

Section search.
Context (this : AStar.t) (start end_ : Z * Z).

Local Abbreviation Inv := (Inv this start end_).

Lemma Inv_open_key st r1 r2 n1 n2 :
  Inv st → r1 ∈ AStar.openList st → r2 ∈ AStar.openList st →
  AStar.arena st !! r1 = Some n1 → AStar.arena st !! r2 = Some n2 →
  nkey n1 = nkey n2 → r1 = r2.
Proof.
  intros HI H1 H2 Hn1 Hn2 Hk.
  destruct (inv_open _ _ _ _ HI r1 H1) as (n1' & Hn1' & Ho1 & _).
  destruct (inv_open _ _ _ _ HI r2 H2) as (n2' & Hn2' & Ho2 & _).
  assert (n1' = n1) as -> by congruence.
  assert (n2' = n2) as -> by congruence.
  rewrite Hk in Ho1. congruence.
Qed.

(** Closing the current node: it leaves the open list and the open set,
    and its key enters the closed set. *)
Lemma Inv_close st cur cn :
  Inv st → cur ∈ AStar.openList st → AStar.arena st !! cur = Some cn →
  pos cn ≠ end_ →
  Inv (AStar.mkState (AStar.arena st)
         (filter (λ r, r ≠ cur) (AStar.openList st))
         (delete (nkey cn) (AStar.openSet st))
         ({[nkey cn]} ∪ AStar.closedSet st)).
Proof.
  intros HI Hcur Hcn Hne.
  destruct (inv_open _ _ _ _ HI cur Hcur) as (cn' & Hcn' & Hoc & Hcc).
  assert (cn' = cn) as -> by congruence.
  split; simpl.
  - intros r [Hr Hin]%list_elem_of_filter.
    destruct (inv_open _ _ _ _ HI r Hin) as (nd & Hnd & Ho & Hc).
    assert (nkey nd ≠ nkey cn) as Hk.
    { intros Hk. apply Hr. by eapply Inv_open_key. }
    exists nd. split; [done|]. split.
    + by rewrite lookup_delete_ne.
    + set_solver.
  - intros k r Hk.
    apply lookup_delete_Some in Hk as [Hk Ho].
    destruct (inv_openSet _ _ _ _ HI k r Ho) as (Hin & nd & Hnd & Hkey).
    split; [|eauto]. apply list_elem_of_filter. split; [|done].
    intros ->. congruence.
  - apply NoDup_filter, HI.
  - apply HI.
  - intros r nd Hnd. destruct (decide (r = cur)) as [->|Hr].
    + right. assert (nd = cn) as -> by congruence. split; [set_solver|done].
    + destruct (inv_status _ _ _ _ HI r nd Hnd) as [Hin|[Hc Hp]].
      * left. by apply list_elem_of_filter.
      * right. split; [set_solver|done].
  - intros r nd p Hnd Hp.
    destruct (inv_parent _ _ _ _ HI r nd p Hnd Hp) as (pn & ? & ? & ?).
    exists pn. split; [done|]. split; [set_solver|done].
  - apply HI.
  - apply HI.
  - intros k [->%elem_of_singleton|Hk]%elem_of_union; [eauto|].
    by apply (inv_closed _ _ _ _ HI).
  - apply HI.
Qed.

(** An open node is nobody's parent, and so lies on no chain but at its
    head. *)
Lemma chain_open st r l e ne :
  Inv st → chain (AStar.arena st) r l →
  AStar.arena st !! e = Some ne → nkey ne ∉ AStar.closedSet st →
  e ≠ r → e ∉ l.
Proof.
  intros HI Hch He Hopen Hne Hin.
  destruct (chain_tail _ _ _ Hch e Hin) as [?|(c & nc & Hc & Hp)]; [done|].
  destruct (inv_parent _ _ _ _ HI c nc e Hc Hp) as (pn & Hpn & Hcl & _).
  congruence.
Qed.

Lemma present_app st q x ol os cs :
  present st q →
  present (AStar.mkState (AStar.arena st ++ [x]) ol os cs) q.
Proof.
  intros (r & nd & Hr & Hq). exists r, nd. split; [|done].
  by apply lookup_app_l_Some.
Qed.

Lemma present_insert st q e ne ne' ol os cs :
  AStar.arena st !! e = Some ne → pos ne' = pos ne →
  present st q →
  present (AStar.mkState (<[e := ne']> (AStar.arena st)) ol os cs) q.
Proof.
  intros He Hpos (r & nd & Hr & Hq). destruct (decide (r = e)) as [->|Hne].
  - exists e, ne'. simpl. split; [|congruence].
    rewrite list_lookup_insert_eq; [done|by eapply lookup_lt_Some].
  - exists r, nd. simpl. by rewrite list_lookup_insert_ne.
Qed.

(** A neighbour that is not closed and not yet open gets a node. *)
Lemma Inv_push st cur cn x y g h f :
  Inv st → AStar.arena st !! cur = Some cn →
  nkey cn ∈ AStar.closedSet st →
  AStar.isValidPosition this x y = true →
  (x, y) ∈ neighbors_of this (pos cn) →
  AStar.key x y ∉ AStar.closedSet st →
  AStar.openSet st !! AStar.key x y = None →
  Inv (AStar.mkState
         (AStar.arena st ++ [AStar.mkNode x y g h f (Some cur)])
         (AStar.openList st ++ [length (AStar.arena st)])
         (<[AStar.key x y := length (AStar.arena st)]> (AStar.openSet st))
         (AStar.closedSet st)).
Proof.
  intros HI Hcn Hcl Hv Hnb Hnc Hno.
  assert (∀ r, r ∈ AStar.openList st → (r < length (AStar.arena st))%nat)
    as Hlt.
  { intros r Hr. destruct (inv_open _ _ _ _ HI r Hr) as (nd & Hnd & _).
    by eapply lookup_lt_Some. }
  split; simpl.
  - intros r [Hr|Hr%list_elem_of_singleton]%elem_of_app.
    + destruct (inv_open _ _ _ _ HI r Hr) as (nd & Hnd & Ho & Hc).
      exists nd. split; [by apply lookup_app_l_Some|]. split; [|done].
      rewrite lookup_insert_ne; [done|]. intros Hk. congruence.
    + subst r. eexists. split.
      { rewrite lookup_app_r, Nat.sub_diag by lia. done. }
      unfold nkey. simpl. by rewrite lookup_insert_eq.
  - intros k r [[<- <-]|[Hk Ho]]%lookup_insert_Some.
    + split; [set_solver|]. eexists. split.
      * by rewrite lookup_app_r, Nat.sub_diag by lia.
      * done.
    + destruct (inv_openSet _ _ _ _ HI k r Ho) as (Hin & nd & Hnd & Hkey).
      split; [set_solver|]. exists nd. split; [|done].
      by apply lookup_app_l_Some.
  - apply NoDup_app. split; [apply HI|]. split; [|apply NoDup_singleton].
    intros r Hr ->%list_elem_of_singleton. apply Hlt in Hr. lia.
  - intros r nd [Hnd|[_ ->]]%lookup_snoc_Some; [|done].
    by eapply inv_valid.
  - intros r nd [Hnd|[-> ->]]%lookup_snoc_Some.
    + destruct (inv_status _ _ _ _ HI r nd Hnd) as [?|?]; [left|by right].
      set_solver.
    + left. set_solver.
  - intros r nd p [Hnd|[-> ->]]%lookup_snoc_Some Hp.
    + destruct (inv_parent _ _ _ _ HI r nd p Hnd Hp) as (pn & ? & ? & ?).
      exists pn. split; [by apply lookup_app_l_Some|done].
    + simpl in Hp. injection Hp as <-.
      exists cn. split; [by apply lookup_app_l_Some|done].
  - intros r nd [Hnd|[_ ->]]%lookup_snoc_Some; [|done].
    by eapply inv_root.
  - intros r nd [Hnd|[-> ->]]%lookup_snoc_Some.
    + destruct (inv_chain _ _ _ _ HI r nd Hnd) as (l & Hl & Hnodup).
      exists l. split; [by apply chain_app|done].
    + destruct (inv_chain _ _ _ _ HI cur cn Hcn) as (l & Hl & Hnodup).
      exists (length (AStar.arena st) :: l). split.
      * eapply chain_link;
          [by rewrite lookup_app_r, Nat.sub_diag by lia
          |reflexivity|by apply chain_app].
      * apply NoDup_cons. split; [|done].
        intros Hin. apply (chain_valid _ _ _ Hl) in Hin. lia.
  - intros k Hk. destruct (inv_closed _ _ _ _ HI k Hk) as (r & nd & ? & ?).
    exists r, nd. split; [by apply lookup_app_l_Some|done].
  - apply present_app, HI.
Qed.

(** A neighbour that is open and is reached at a lower cost is updated
    in place. *)
Lemma Inv_update st cur cn e ne g f :
  Inv st → AStar.arena st !! cur = Some cn →
  nkey cn ∈ AStar.closedSet st →
  AStar.arena st !! e = Some ne → nkey ne ∉ AStar.closedSet st →
  pos ne ∈ neighbors_of this (pos cn) →
  Inv (AStar.mkState
         (<[e := AStar.mkNode (AStar.x ne) (AStar.y ne) g (AStar.h ne) f
                   (Some cur)]> (AStar.arena st))
         (AStar.openList st) (AStar.openSet st) (AStar.closedSet st)).
Proof.
  intros HI Hcn Hcl He Hopen Hnb.
  set (ne' := AStar.mkNode _ _ _ _ _ _).
  assert (e ≠ cur) as Hecur by (intros ->; congruence).
  assert (e < length (AStar.arena st))%nat as Hlt
    by (by eapply lookup_lt_Some).
  assert (∀ r nd, AStar.arena st !! r = Some nd →
    ∃ nd', <[e := ne']> (AStar.arena st) !! r = Some nd' ∧
           nkey nd' = nkey nd ∧ pos nd' = pos nd) as Hfwd.
  { intros r nd Hnd. destruct (decide (r = e)) as [->|Hr].
    - exists ne'. rewrite list_lookup_insert_eq by done.
      assert (nd = ne) as -> by congruence. done.
    - exists nd. by rewrite list_lookup_insert_ne. }
  assert (∀ r nd, <[e := ne']> (AStar.arena st) !! r = Some nd →
    (r = e ∧ nd = ne') ∨ (r ≠ e ∧ AStar.arena st !! r = Some nd)) as Hbwd.
  { intros r nd [(-> & <- & _)|[? ?]]%list_lookup_insert_Some; auto. }
  assert (∀ p pn, AStar.arena st !! p = Some pn →
    nkey pn ∈ AStar.closedSet st →
    <[e := ne']> (AStar.arena st) !! p = Some pn) as Hclosed.
  { intros p pn Hp Hc. rewrite list_lookup_insert_ne; [done|].
    intros ->. congruence. }
  split; simpl.
  - intros r Hr. destruct (inv_open _ _ _ _ HI r Hr) as (nd & Hnd & Ho & Hc).
    destruct (Hfwd r nd Hnd) as (nd' & Hnd' & Hk & _).
    exists nd'. rewrite Hk. done.
  - intros k r Ho.
    destruct (inv_openSet _ _ _ _ HI k r Ho) as (Hin & nd & Hnd & Hkey).
    split; [done|]. destruct (Hfwd r nd Hnd) as (nd' & Hnd' & Hk & _).
    exists nd'. split; [done|congruence].
  - apply HI.
  - intros r nd [[-> ->]|[_ Hnd]]%Hbwd.
    + simpl. by eapply inv_valid.
    + by eapply inv_valid.
  - intros r nd [[-> ->]|[_ Hnd]]%Hbwd.
    + apply (inv_status _ _ _ _ HI e ne He).
    + by eapply inv_status.
  - intros r nd p [[-> ->]|[_ Hnd]]%Hbwd Hp.
    + simpl in Hp. injection Hp as <-. exists cn.
      split; [by apply Hclosed|done].
    + destruct (inv_parent _ _ _ _ HI r nd p Hnd Hp) as (pn & ? & ? & ?).
      exists pn. split; [by apply Hclosed|done].
  - intros r nd [[-> ->]|[_ Hnd]]%Hbwd; [done|]. by eapply inv_root.
  - intros r nd [[-> ->]|[Hr Hnd]]%Hbwd.
    + destruct (inv_chain _ _ _ _ HI cur cn Hcn) as (l & Hl & Hnodup).
      assert (e ∉ l) as Hel by (by eapply chain_open).
      exists (e :: l). split.
      * eapply chain_link;
          [by apply list_lookup_insert_eq|reflexivity|by apply chain_insert].
      * by apply NoDup_cons.
    + destruct (inv_chain _ _ _ _ HI r nd Hnd) as (l & Hl & Hnodup).
      exists l. split; [|done]. apply chain_insert; [done|].
      by eapply chain_open.
  - intros k Hk. destruct (inv_closed _ _ _ _ HI k Hk) as (r & nd & ? & ?).
    exists r, nd. split; [|done]. apply Hclosed; congruence.
  - eapply present_insert; [done|done|apply HI].
Qed.

Lemma Inv_initial startNode :
  pos startNode = start → AStar.parent startNode = None →
  AStar.isValidPosition this start.1 start.2 = true →
  Inv (AStar.initial start startNode) ∧
  Complete this start (AStar.initial start startNode).
Proof.
  intros Hpos Hpar Hv.
  assert (nkey startNode = AStar.key start.1 start.2) as Hkey
    by (by rewrite <-Hpos).
  assert (∀ r nd, [startNode] !! r = Some nd → r = 0%nat ∧ nd = startNode)
    as Hone.
  { by intros r nd [-> ->]%list_lookup_singleton_Some. }
  split; [split; simpl|].
  - intros r ->%list_elem_of_singleton. exists startNode.
    split; [done|]. rewrite Hkey, lookup_singleton_eq. set_solver.
  - intros k r [<- <-]%lookup_singleton_Some.
    split; [set_solver|]. by exists startNode.
  - apply NoDup_singleton.
  - intros r nd [-> ->]%Hone. by rewrite <-Hpos in Hv.
  - intros r nd [-> ->]%Hone. left. set_solver.
  - intros r nd p [-> ->]%Hone. congruence.
  - by intros r nd [-> ->]%Hone.
  - intros r nd [-> ->]%Hone. exists [0%nat].
    split; [by eapply chain_root|apply NoDup_singleton].
  - set_solver.
  - by exists 0%nat, startNode.
  - intros p q []%not_elem_of_empty.
Qed.

Context (Hend : is_Some (AStar.endPos this)).

Lemma calculateHeuristic_Return x y :
  ∃ hv, AStar.calculateHeuristic this x y = Return hv.
Proof using Hend.
  unfold AStar.calculateHeuristic. destruct Hend as [[ex ey] ->]. eauto.
Qed.

Lemma visitNeighbor_spec st cur cn nb :
  Inv st → AStar.arena st !! cur = Some cn →
  nkey cn ∈ AStar.closedSet st →
  AStar.isValidPosition this (AStar.x nb) (AStar.y nb) = true →
  pos nb ∈ neighbors_of this (pos cn) →
  ∃ st', AStar.visitNeighbor this cur st nb = Return st' ∧ Inv st' ∧
    AStar.closedSet st' = AStar.closedSet st ∧
    AStar.arena st' !! cur = Some cn ∧
    present st' (pos nb) ∧ (∀ q, present st q → present st' q).
Proof using Hend.
  intros HI Hcn Hcl Hv Hnb. unfold AStar.visitNeighbor.
  case_bool_decide as Hclosed.
  { exists st. do 4 (split; [done|]). split; [|done].
    destruct (inv_closed _ _ _ _ HI _ Hclosed) as (r & nd & Hnd & Hk).
    apply key_inj in Hk as [Hx Hy]. exists r, nd. split; [done|].
    unfold pos. by rewrite Hx, Hy. }
  rewrite (getNode_Some _ _ _ Hcn). simpl.
  destruct (AStar.openSet st !! _) as [e|] eqn:Ho.
  - destruct (inv_openSet _ _ _ _ HI _ _ Ho) as (Hin & ne & Hne & Hk).
    rewrite (getNode_Some _ _ _ Hne). simpl.
    assert (pos ne = pos nb) as Hpos.
    { apply key_inj in Hk as [Hx Hy]. unfold pos. by rewrite Hx, Hy. }
    assert (present st (pos nb)) as Hpres by (by exists e, ne).
    destruct (AStar.Qltb _ _); [|exists st; by do 5 (split; [done|])].
    assert (e ≠ cur) as Hecur.
    { intros ->. assert (ne = cn) as -> by congruence.
      apply Hclosed. by rewrite <-Hk. }
    eexists. split; [done|]. split.
    { eapply Inv_update; [done|done|done|done| |congruence].
      by rewrite Hk. }
    simpl. split; [done|]. split; [by rewrite list_lookup_insert_ne|].
    split; [|intros q]; by eapply present_insert.
  - destruct (calculateHeuristic_Return (AStar.x nb) (AStar.y nb))
      as [hv ->]. simpl.
    eexists. split; [done|]. split.
    { eapply Inv_push; done. }
    simpl. split; [done|]. split; [by apply lookup_app_l_Some|].
    split; [|intros q; apply present_app].
    exists (length (AStar.arena st)). eexists. simpl. split.
    + by rewrite lookup_app_r, Nat.sub_diag by lia.
    + reflexivity.
Qed.

Lemma visit_all cur cn todo nbs : ∀ st,
  Inv st → AStar.arena st !! cur = Some cn →
  nkey cn ∈ AStar.closedSet st →
  (∀ nb, nb ∈ nbs →
     AStar.isValidPosition this (AStar.x nb) (AStar.y nb) = true ∧
     pos nb ∈ neighbors_of this (pos cn)) →
  CompleteBut this (pos cn) (coords nbs ++ todo) st →
  ∃ st', forEach (AStar.visitNeighbor this cur) nbs st = Return st' ∧
    Inv st' ∧ AStar.closedSet st' = AStar.closedSet st ∧
    CompleteBut this (pos cn) todo st'.
Proof using Hend.
  induction nbs as [|nb nbs IH]; intros st HI Hcn Hcl Hnbs Hcomp.
  { exists st. done. }
  destruct (Hnbs nb) as [Hv Hnb]; [by left|].
  destruct (visitNeighbor_spec st cur cn nb HI Hcn Hcl Hv Hnb)
    as (st1 & Hrun & HI1 & Hcl1 & Hcn1 & Hp1 & Hmono).
  simpl. rewrite Hrun. simpl.
  destruct (IH st1) as (st' & Hrun' & HI' & Hcl' & Hcomp'); try done.
  - by rewrite Hcl1.
  - intros nb' ?. apply Hnbs. by right.
  - intros p q Hp Hq. rewrite Hcl1 in Hp.
    destruct (Hcomp p q Hp Hq) as [?|[-> Hin]]; [left; auto|].
    simpl in Hin. apply elem_of_cons in Hin as [->|Hin]; [by left|by right].
  - exists st'. split; [done|]. split; [done|]. split; [congruence|done].
Qed.

(** *** The path read back from the parents *)

Lemma stepwise_snoc l p q :
  stepwise this l → last l = Some p → q ∈ neighbors_of this p →
  stepwise this (l ++ [q]).
Proof.
  induction l as [|a [|b l] IH]; intros Hs Hl Hq.
  - done.
  - simpl in *. injection Hl as ->. done.
  - destruct Hs as [Hab Hs]. split; [done|]. by apply IH.
Qed.

Lemma buildPath_loop_None fuel a acc :
  AStar.buildPath_loop fuel a None acc = Return acc.
Proof. by destruct fuel. Qed.

Lemma buildPath_loop_spec st r l :
  Inv st → chain (AStar.arena st) r l → ∀ fuel acc,
  (length l ≤ fuel)%nat →
  ∃ ns nd, AStar.arena st !! r = Some nd ∧
    AStar.buildPath_loop fuel (AStar.arena st) (Some r) acc
      = Return (ns ++ acc) ∧
    head (coords ns) = Some start ∧ last (coords ns) = Some (pos nd) ∧
    stepwise this (coords ns) ∧
    Forall (λ p, in_bounds this p ∧ ¬ is_obstacle this p) (coords ns).
Proof.
  intros HI. induction 1 as [r nd Hr Hp|r nd p l Hr Hp Hc IH];
    intros [|fuel] acc Hfuel; simpl in Hfuel; try lia.
  - exists [nd], nd. simpl. rewrite (getNode_Some _ _ _ Hr). simpl.
    rewrite Hp, buildPath_loop_None. split; [done|]. split; [done|].
    split; [by rewrite (inv_root _ _ _ _ HI r nd Hr Hp)|].
    split; [done|]. split; [done|].
    apply Forall_singleton, isValidPosition_spec, (inv_valid _ _ _ _ HI r nd Hr).
  - destruct (IH fuel (nd :: acc)) as (ns & pn & Hpn & Hrun & Hh & Hl & Hs & Hv);
      [lia|].
    exists (ns ++ [nd]), nd. simpl. rewrite (getNode_Some _ _ _ Hr). simpl.
    rewrite Hp, Hrun, <-app_assoc. split; [done|]. split; [done|].
    unfold coords in *. rewrite fmap_app. simpl.
    destruct (inv_parent _ _ _ _ HI r nd p Hr Hp) as (pn' & Hpn' & _ & Hnb).
    assert (pn' = pn) as -> by congruence.
    split; [|split; [by rewrite last_snoc|split]].
    + destruct (pos <$> ns); [done|]. done.
    + by eapply stepwise_snoc.
    + apply Forall_app. split; [done|].
      apply Forall_singleton, isValidPosition_spec,
        (inv_valid _ _ _ _ HI r nd Hr).
Qed.

Lemma buildPath_spec st r nd :
  Inv st → AStar.arena st !! r = Some nd → pos nd = end_ →
  ∃ path, AStar.buildPath (AStar.arena st) r = Return path ∧
    ValidPath this start end_ path.
Proof.
  intros HI Hr Hpos.
  destruct (inv_chain _ _ _ _ HI r nd Hr) as (l & Hl & Hnodup).
  destruct (buildPath_loop_spec st r l HI Hl (length (AStar.arena st)) [])
    as (ns & nd' & Hnd' & Hrun & Hh & Hlast & Hs & Hv).
  { apply NoDup_bounded; [done|]. by eapply chain_valid. }
  assert (nd' = nd) as -> by congruence.
  exists ns. rewrite app_nil_r in Hrun. split; [done|].
  split; [done|congruence|done|done].
Qed.

(** *** One turn of the main loop *)

Lemma turn_spec st :
  Inv st → Complete this start st →
  ∃ r, AStar.turn this end_ st = Return r ∧
    match r with
    | inl st' =>
        Inv st' ∧ Complete this start st' ∧
        (∃ cur cn, cur ∈ AStar.openList st ∧
           AStar.arena st !! cur = Some cn ∧
           (nkey cn ∉ AStar.closedSet st) ∧
           AStar.closedSet st' = {[nkey cn]} ∪ AStar.closedSet st)
    | inr (Some path) => ValidPath this start end_ path
    | inr None => AStar.openList st = []
    end.
Proof using Hend.
  intros HI Hcomp. unfold AStar.turn.
  destruct (AStar.openList st) as [|r0 rest] eqn:Hol.
  { exists (inr None). done. }
  rewrite <-Hol.
  destruct (getMinFNode_first (AStar.arena st) (AStar.openList st))
    as (cur & cn & i & Hmin & Hi & Hcn & _).
  { by rewrite Hol. }
  { intros r Hr. destruct (inv_open _ _ _ _ HI r Hr) as (nd & -> & _). eauto. }
  assert (cur ∈ AStar.openList st) as Hcur
    by (by eapply list_elem_of_lookup_2).
  rewrite Hmin. simpl. rewrite (getNode_Some _ _ _ Hcn). simpl.
  destruct ((AStar.x cn =? end_.1) && (AStar.y cn =? end_.2)) eqn:Hat.
  - destruct (buildPath_spec st cur cn HI Hcn) as (path & -> & Hpath).
    { unfold pos. destruct end_. simpl in *. f_equal; lia. }
    exists (inr (Some path)). done.
  - assert (pos cn ≠ end_) as Hne.
    { intros <-. simpl in Hat. rewrite !Z.eqb_refl in Hat. done. }
    destruct (inv_open _ _ _ _ HI cur Hcur) as (cn' & Hcn' & Hoc & Hcc).
    assert (cn' = cn) as -> by congruence.
    rewrite (removeFromOpenList_spec _ cur cn); [|done|apply HI|done|..].
    2:{ intros r nd Hr Hnd Hpos. eapply Inv_open_key; [done..|].
        unfold nkey. injection Hpos as -> ->. done. }
    2:{ intros r Hr.
        destruct (inv_open _ _ _ _ HI r Hr) as (nd & -> & _). eauto. }
    simpl.
    pose proof (Inv_close st cur cn HI Hcur Hcn Hne) as HI1.
    edestruct (visit_all cur cn [] (AStar.getNeighbors this cn))
      as (st2 & Hrun & HI2 & Hcl2 & Hcomp2); [exact HI1|done|..].
    { simpl. set_solver. }
    { intros nb Hnb. split; [by eapply getNeighbors_valid|].
      rewrite <-getNeighbors_coords. unfold coords.
      apply list_elem_of_fmap. eauto. }
    { rewrite app_nil_r, getNeighbors_coords. intros p q Hp Hq. simpl in Hp.
      apply elem_of_union in Hp as [Hp%elem_of_singleton|Hp].
      - right. apply key_inj in Hp as [Hx Hy].
        assert (p = pos cn) as -> by (destruct p; unfold pos; simpl in *; congruence).
        done.
      - destruct (Hcomp p q Hp Hq) as [Hq'|[_ []%not_elem_of_nil]].
        left. exact Hq'. }
    unfold nkey in Hrun. rewrite Hrun. simpl.
    exists (inl st2). split; [done|]. split; [done|]. split.
    { intros p q Hp Hq.
      destruct (Hcomp2 p q Hp Hq) as [?|[_ []%not_elem_of_nil]]. by left. }
    exists cur, cn. done.
Qed.

(** *** The closed set stays within the grid *)

Lemma cells_spec x y :
  AStar.isValidCoordinate this x y = true → (x, y) ∈ cells this.
Proof.
  intros [Hx Hy]%isValidCoordinate_spec. unfold cells.
  apply list_elem_of_bind. exists x. split; [|apply elem_of_seqZ; lia].
  apply list_elem_of_bind. exists y. split; [|apply elem_of_seqZ; lia].
  by apply list_elem_of_singleton.
Qed.

Lemma cells_length :
  (length (cells this) ≤ Z.to_nat (AStar.mapSize this * AStar.mapSize this))%nat.
Proof.
  unfold cells.
  rewrite (bind_length_const _ (Z.to_nat (AStar.mapSize this))).
  - rewrite length_seqZ. nia.
  - intros a. rewrite (bind_length_const _ 1%nat); [|done].
    rewrite length_seqZ. lia.
Qed.

Lemma closed_bound st :
  Inv st →
  (size (AStar.closedSet st)
   ≤ Z.to_nat (AStar.mapSize this * AStar.mapSize this))%nat.
Proof.
  intros HI.
  assert (AStar.closedSet st ⊆
    list_to_set ((λ p : Z * Z, AStar.key p.1 p.2) <$> cells this)) as Hsub.
  { intros k Hk. destruct (inv_closed _ _ _ _ HI k Hk) as (r & nd & Hnd & <-).
    apply elem_of_list_to_set, list_elem_of_fmap. exists (pos nd).
    split; [done|]. apply cells_spec.
    by apply isValidPosition_spec, (inv_valid _ _ _ _ HI r nd Hnd). }
  apply subseteq_size in Hsub.
  pose proof (size_list_to_set_le
    ((λ p : Z * Z, AStar.key p.1 p.2) <$> cells this)) as Hle.
  rewrite length_fmap in Hle. pose proof cells_length. lia.
Qed.

(** *** An exhausted frontier *)

Lemma exhausted_closure st p q k :
  Inv st → Complete this start st → AStar.openList st = [] →
  walk this p q k → present st p → present st q.
Proof.
  intros HI Hcomp Hol. induction 1 as [p|p q r k Hq _ IH]; [done|].
  intros (i & nd & Hnd & Hpos). apply IH.
  destruct (inv_status _ _ _ _ HI i nd Hnd) as [Hin|[Hc _]].
  { rewrite Hol in Hin. by apply not_elem_of_nil in Hin. }
  destruct (Hcomp p q) as [?|[_ []%not_elem_of_nil]]; [|done..].
  by rewrite <-Hpos.
Qed.

Lemma exhausted_unreachable st k :
  Inv st → Complete this start st → AStar.openList st = [] →
  ¬ walk this start end_ k.
Proof.
  intros HI Hcomp Hol Hw.
  destruct (exhausted_closure st start end_ k HI Hcomp Hol Hw (inv_start _ _ _ _ HI))
    as (i & nd & Hnd & Hpos).
  destruct (inv_status _ _ _ _ HI i nd Hnd) as [Hin|[_ Hne]]; [|done].
  rewrite Hol in Hin. by apply not_elem_of_nil in Hin.
Qed.

(** *** The whole loop *)

Lemma findPath_loop_spec fuel : ∀ st,
  Inv st → Complete this start st →
  (Z.to_nat (AStar.mapSize this * AStar.mapSize this)
   < size (AStar.closedSet st) + fuel)%nat →
  ∃ res, AStar.findPath_loop fuel this end_ st = Return res ∧
    match res with
    | Some path => ValidPath this start end_ path
    | None => ∀ k, ¬ walk this start end_ k
    end.
Proof using Hend.
  induction fuel as [|fuel IH]; intros st HI Hcomp Hfuel.
  { pose proof (closed_bound st HI). lia. }
  destruct (turn_spec st HI Hcomp) as (r & Hturn & Hr).
  simpl. rewrite Hturn. simpl. destruct r as [st'|[path|]].
  - destruct Hr as (HI' & Hcomp' & cur & cn & _ & _ & Hnew & Hcl).
    apply IH; [done|done|].
    rewrite Hcl, size_union, size_singleton by set_solver. lia.
  - exists (Some path). done.
  - exists None. split; [done|]. intros k. by apply (exhausted_unreachable st).
Qed.
End search.

(** ** The call of [findPath] *)

Arguments AStar.findPath_loop : simpl never.

Lemma walk_endPos_set this e p q k :
  walk this p q k → walk (AStar.set_endPos this e) p q k.
Proof. induction 1; [apply walk_here|by eapply walk_step]. Qed.

Lemma stepwise_set_endPos this e l :
  stepwise (AStar.set_endPos this e) l → stepwise this l.
Proof.
  induction l as [|a [|b l] IH]; [done..|]. intros [? ?]. split; [done|auto].
Qed.

Lemma ValidPath_set_endPos this e start end_ path :
  ValidPath (AStar.set_endPos this e) start end_ path →
  ValidPath this start end_ path.
Proof.
  intros [H1 H2 H3 H4]. split; [done|done|by eapply stepwise_set_endPos|done].
Qed.

(** On a valid input the call returns: a valid path, or [null] when no walk
    leads from [start] to [end]. *)
Lemma findPath_valid this start end_ :
  in_bounds this start → in_bounds this end_ →
  ¬ is_obstacle this start → ¬ is_obstacle this end_ →
  ∃ res, AStar.findPath this start end_
         = (Return res, AStar.set_endPos this end_) ∧
    match res with
    | Some path => ValidPath this start end_ path
    | None => ∀ k, ¬ walk this start end_ k
    end.
Proof.
  unfold in_bounds, is_obstacle. intros Hs He Hos Hoe. unfold AStar.findPath.
  rewrite Hs, He. simpl.
  rewrite !bool_decide_eq_false_2 by done.
  unfold AStar.calculateHeuristic at 1. simpl. destruct end_ as [ex ey]. simpl.
  set (startNode := AStar.mkNode _ _ _ _ _ _).
  set (this' := AStar.set_endPos this (ex, ey)).
  destruct (Inv_initial this' start (ex, ey) startNode) as [HI Hcomp].
  { by destruct start. }
  { done. }
  { apply isValidPosition_spec. done. }
  destruct (findPath_loop_spec this' start (ex, ey) (ltac:(by eexists))
              (AStar.findPath_fuel this') _ HI Hcomp) as (res & -> & Hres).
  { unfold AStar.findPath_fuel, AStar.initial, AStar.closedSet.
    rewrite size_empty. simpl. lia. }
  exists res. split; [done|]. destruct res as [path|].
  - by eapply ValidPath_set_endPos.
  - intros k Hw. apply (Hres k). by apply walk_endPos_set.
Qed.

(** An invalid input is refused before anything else happens. *)
Lemma findPath_invalid this start end_ :
  ¬ (in_bounds this start ∧ in_bounds this end_ ∧
     ¬ is_obstacle this start ∧ ¬ is_obstacle this end_) →
  ∃ err, AStar.findPath this start end_ = (Throw err, this) ∧
    err = (if negb (AStar.isValidCoordinate this start.1 start.2)
           then InvalidStart
           else if negb (AStar.isValidCoordinate this end_.1 end_.2)
           then InvalidEnd
           else if bool_decide (AStar.key start.1 start.2 ∈ AStar.obstacles this)
           then BlockedStart
           else BlockedEnd).
Proof.
  unfold in_bounds, is_obstacle, AStar.findPath. intros Hbad.
  destruct (AStar.isValidCoordinate this start.1 start.2) eqn:Hs; simpl;
    [|eauto].
  destruct (AStar.isValidCoordinate this end_.1 end_.2) eqn:He; simpl;
    [|eauto].
  case_bool_decide as Hos; [eauto|].
  case_bool_decide as Hoe; [eauto|].
  destruct Hbad. done.
Qed.

Lemma input_cases this start end_ :
  (in_bounds this start ∧ in_bounds this end_ ∧
   ¬ is_obstacle this start ∧ ¬ is_obstacle this end_) ∨
  ¬ (in_bounds this start ∧ in_bounds this end_ ∧
     ¬ is_obstacle this start ∧ ¬ is_obstacle this end_).
Proof.
  unfold in_bounds, is_obstacle.
  destruct (AStar.isValidCoordinate this start.1 start.2);
    [|right; intros (? & _); done].
  destruct (AStar.isValidCoordinate this end_.1 end_.2);
    [|right; intros (_ & ? & _); done].
  destruct (decide (AStar.key start.1 start.2 ∈ AStar.obstacles this));
    [right; intros (_ & _ & ? & _); done|].
  destruct (decide (AStar.key end_.1 end_.2 ∈ AStar.obstacles this));
    [right; intros (_ & _ & _ & ?); done|].
  left. done.
Qed.

(** ** The properties of the specification: the A* path finder *)

(** C3. Whenever [findPath] returns a path, the path starts at [start],
    ends at [end], each of its cells is one step of the hexagonal rule away
    from the cell before it (by the rule of that earlier cell's row), every
    cell is in bounds and no cell is an obstacle. *)
Theorem findPath_path_valid this start end_ path :
  (AStar.findPath this start end_).1 = Return (Some path) →
  head (coords path) = Some start ∧
  last (coords path) = Some end_ ∧
  stepwise this (coords path) ∧
  Forall (λ p, in_bounds this p ∧ ¬ is_obstacle this p) (coords path).
Proof.
  intros Hrun.
  destruct (input_cases this start end_) as [(Hs & He & Hos & Hoe)|Hbad].
  - destruct (findPath_valid this start end_ Hs He Hos Hoe) as (res & Heq & Hres).
    rewrite Heq in Hrun. simpl in Hrun. injection Hrun as ->.
    destruct Hres. done.
  - destruct (findPath_invalid this start end_ Hbad) as (err & Heq & _).
    rewrite Heq in Hrun. done.
Qed.

Lemma findPath_path_valid_witness :
  (AStar.findPath grid3 (0, 0) (2, 0)).1 = Return (Some path3) ∧
  coords path3 = [(0, 0); (1, 0); (2, 0)] ∧
  stepwise grid3 (coords path3).
Proof.
  split; [vm_compute; reflexivity|]. split; [vm_compute; reflexivity|].
  apply (findPath_path_valid grid3 (0, 0) (2, 0) path3).
  vm_compute. reflexivity.
Defined.

(** C4. The constructor throws exactly when [mapSize <= 0].  [findPath]
    throws exactly when [start] or [end] is out of bounds or is an obstacle;
    the error tells which check failed, and it is raised before the first
    statement that follows the checks (the object still holds its former
    [endPos]).  On every other input [findPath] returns, and a loop that
    finds the frontier empty returns [null]. *)
Theorem findPath_errors :
  (∀ mapSize obstacles,
     (∃ err, AStar.constructor mapSize obstacles = Throw err) ↔ mapSize ≤ 0) ∧
  (∀ this start end_ err,
     (AStar.findPath this start end_).1 = Throw err ↔
     (err = InvalidStart ∧ ¬ in_bounds this start) ∨
     (err = InvalidEnd ∧ in_bounds this start ∧ ¬ in_bounds this end_) ∨
     (err = BlockedStart ∧ in_bounds this start ∧ in_bounds this end_ ∧
        is_obstacle this start) ∨
     (err = BlockedEnd ∧ in_bounds this start ∧ in_bounds this end_ ∧
        ¬ is_obstacle this start ∧ is_obstacle this end_)) ∧
  (∀ this start end_ err,
     (AStar.findPath this start end_).1 = Throw err →
     (AStar.findPath this start end_).2 = this) ∧
  (∀ this start end_,
     (∀ err, (AStar.findPath this start end_).1 ≠ Throw err) →
     ∃ res, (AStar.findPath this start end_).1 = Return res) ∧
  (∀ fuel this end_ st,
     AStar.openList st = [] →
     AStar.findPath_loop (S fuel) this end_ st = Return None).
Proof.
  split; [|split; [|split; [|split]]].
  - intros mapSize obstacles. unfold AStar.constructor.
    destruct (Z.leb_spec mapSize 0); split; try done; try lia; eauto.
    intros [err ?]. done.
  - intros this start end_ err.
    destruct (input_cases this start end_) as [(Hs & He & Hos & Hoe)|Hbad].
    + destruct (findPath_valid this start end_ Hs He Hos Hoe) as (res & -> & _).
      simpl. split; [done|]. intros [(_ & ?)|[(_ & _ & ?)|[(_ & _ & _ & ?)|
        (_ & _ & _ & _ & ?)]]]; done.
    + destruct (findPath_invalid this start end_ Hbad) as (err' & -> & Herr).
      simpl. revert Hbad Herr. unfold in_bounds, is_obstacle.
      destruct (decide (AStar.key end_.1 end_.2 ∈ AStar.obstacles this));
      destruct (AStar.isValidCoordinate this start.1 start.2);
        destruct (AStar.isValidCoordinate this end_.1 end_.2); simpl;
        repeat case_bool_decide; intros Hbad ->;
        (split; [intros [= <-]; naive_solver|]);
        intros [(-> & ?)|[(-> & ? & ?)|[(-> & ? & ? & ?)|(-> & ? & ? & ? & ?)]]];
        try done; naive_solver.
  - intros this start end_ err Hthrow.
    destruct (input_cases this start end_) as [(Hs & He & Hos & Hoe)|Hbad].
    + destruct (findPath_valid this start end_ Hs He Hos Hoe) as (res & Heq & _).
      rewrite Heq in Hthrow. done.
    + destruct (findPath_invalid this start end_ Hbad) as (err' & -> & _). done.
  - intros this start end_ Hno.
    destruct (input_cases this start end_) as [(Hs & He & Hos & Hoe)|Hbad].
    + destruct (findPath_valid this start end_ Hs He Hos Hoe) as (res & -> & _).
      eauto.
    + destruct (findPath_invalid this start end_ Hbad) as (err' & Heq & _).
      destruct (Hno err'). by rewrite Heq.
  - intros fuel this end_ st Hol. unfold AStar.findPath_loop, AStar.turn.
    by rewrite Hol.
Qed.

Lemma findPath_errors_witness :
  (∃ err, AStar.constructor 0 None = Throw err) ∧
  (AStar.findPath grid3 (3, 0) (0, 0)).1 = Throw InvalidStart ∧
  (AStar.findPath grid3 (3, 0) (0, 0)).2 = grid3 ∧
  (∃ res, (AStar.findPath grid3 (0, 0) (2, 2)).1 = Return res).
Proof.
  destruct findPath_errors as (Hnew & Hthrow & Hentry & Hreturn & _).
  assert ((AStar.findPath grid3 (3, 0) (0, 0)).1 = Throw InvalidStart) as Hrun.
  { apply Hthrow. left. split; [reflexivity|]. vm_compute. discriminate. }
  split; [apply Hnew; lia|]. split; [exact Hrun|].
  split; [exact (Hentry _ _ _ _ Hrun)|].
  apply Hreturn. intros err. vm_compute. discriminate.
Defined.

Lemma findPath_loop_S fuel this end_ st :
  AStar.findPath_loop (S fuel) this end_ st =
  (r ← AStar.turn this end_ st;
   match r with
   | inl st' => AStar.findPath_loop fuel this end_ st'
   | inr v => Return v
   end).
Proof. reflexivity. Qed.

(** C5. When [start] equals [end] (in bounds, not an obstacle), [findPath]
    returns the path made of that single cell, whose node has [g = 0] and no
    parent. *)
Theorem findPath_start_is_end this start :
  in_bounds this start → ¬ is_obstacle this start →
  ∃ n, (AStar.findPath this start start).1 = Return (Some [n]) ∧
    pos n = start ∧ AStar.g n = 0%Q ∧ AStar.parent n = None.
Proof.
  unfold in_bounds, is_obstacle. intros Hs Hos. unfold AStar.findPath.
  rewrite Hs. simpl. rewrite !bool_decide_eq_false_2 by done.
  unfold AStar.calculateHeuristic at 1. simpl. destruct start as [sx sy]. simpl.
  unfold AStar.findPath_fuel. rewrite findPath_loop_S.
  unfold AStar.turn, AStar.initial. simpl. rewrite !Z.eqb_refl. simpl.
  eexists. split; [reflexivity|]. done.
Qed.

Lemma findPath_start_is_end_witness :
  ∃ n, (AStar.findPath grid3 (1, 2) (1, 2)).1 = Return (Some [n]) ∧
    pos n = (1, 2) ∧ AStar.g n = 0%Q ∧ AStar.parent n = None.
Proof.
  apply (findPath_start_is_end grid3 (1, 2)).
  - vm_compute. reflexivity.
  - unfold is_obstacle. simpl. apply not_elem_of_empty.
Defined.

(** C7. [findPath] is a function of the grid, [start] and [end] alone: the
    value of [endPos] left in the object by an earlier call has no effect,
    so a second call on the same object returns what the first returned.
    The node selected by [getMinFNode] is the first of the open list, in
    insertion order, among those of least [f]. *)
Theorem findPath_deterministic :
  (∀ this1 this2 start end_,
     AStar.mapSize this1 = AStar.mapSize this2 →
     AStar.obstacles this1 = AStar.obstacles this2 →
     (AStar.findPath this1 start end_).1 = (AStar.findPath this2 start end_).1) ∧
  (∀ this start end_,
     (AStar.findPath (AStar.findPath this start end_).2 start end_).1
     = (AStar.findPath this start end_).1) ∧
  (∀ arena list,
     list ≠ [] → (∀ r, r ∈ list → is_Some (arena !! r)) →
     ∃ m nm i, AStar.getMinFNode arena list = Return m ∧
       list !! i = Some m ∧ arena !! m = Some nm ∧
       (∀ j r n, list !! j = Some r → arena !! r = Some n →
          (AStar.f nm <= AStar.f n)%Q) ∧
       (∀ j r n, (j < i)%nat → list !! j = Some r → arena !! r = Some n →
          (AStar.f nm < AStar.f n)%Q)).
Proof.
  assert (∀ this1 this2 start end_,
     AStar.mapSize this1 = AStar.mapSize this2 →
     AStar.obstacles this1 = AStar.obstacles this2 →
     (AStar.findPath this1 start end_).1 = (AStar.findPath this2 start end_).1)
    as Hdet.
  { intros [m1 o1 e1] [m2 o2 e2] start end_. simpl. intros <- <-.
    unfold AStar.findPath, AStar.isValidCoordinate, AStar.set_endPos. simpl.
    repeat (destruct (negb _); [done|]).
    repeat (case_bool_decide; [done|]). done. }
  split; [exact Hdet|]. split; [|apply getMinFNode_first].
  intros this start end_. apply Hdet.
  - unfold AStar.findPath.
    repeat (destruct (negb _); [done|]).
    repeat (case_bool_decide; [done|]). done.
  - unfold AStar.findPath.
    repeat (destruct (negb _); [done|]).
    repeat (case_bool_decide; [done|]). done.
Qed.

Lemma findPath_deterministic_witness :
  (AStar.findPath (AStar.findPath grid3 (0, 0) (2, 0)).2 (0, 0) (2, 0)).1
  = (AStar.findPath grid3 (0, 0) (2, 0)).1 ∧
  ∃ m, AStar.getMinFNode path3 [2; 1; 0]%nat = Return m.
Proof.
  destruct findPath_deterministic as (_ & Hsame & Hmin).
  split; [apply Hsame|].
  destruct (Hmin path3 [2; 1; 0]%nat) as (m & _ & _ & Hm & _).
  - discriminate.
  - intros r Hr. apply lookup_lt_is_Some. simpl.
    repeat (apply elem_of_cons in Hr as [->|Hr]; [lia|]).
    by apply not_elem_of_nil in Hr.
  - by exists m.
Defined.

(** ** Termination of the search *)

Lemma turns_Inv this start end_ startNode k st :
  pos startNode = start → AStar.parent startNode = None →
  AStar.isValidPosition this start.1 start.2 = true →
  is_Some (AStar.endPos this) →
  turns this end_ k (AStar.initial start startNode) st →
  Inv this start end_ st ∧ Complete this start st ∧
  size (AStar.closedSet st) = k.
Proof.
  intros Hpos Hpar Hv Hend.
  remember (AStar.initial start startNode) as st0 eqn:Hst0.
  induction 1 as [st|k st st' st'' _ IH Hturn]; subst st.
  - destruct (Inv_initial this start end_ startNode Hpos Hpar Hv). done.
  - destruct (IH eq_refl) as (HI & Hcomp & Hsize).
    destruct (turn_spec this start end_ Hend st' HI Hcomp) as (r & Hr & Hspec).
    rewrite Hturn in Hr. injection Hr as <-.
    destruct Hspec as (HI' & Hcomp' & cur & cn & _ & _ & Hnew & ->).
    split; [done|]. split; [done|].
    rewrite size_union, size_singleton by set_solver. lia.
Qed.

(** C10. On a valid input [findPath] returns.  After [k] turns of its main
    loop the closed set holds exactly [k] keys, so that every turn closes a
    cell that was not closed before, and [k] is at most
    [mapSize * mapSize]; the open list only holds nodes of in-bounds cells
    whose key is not in the closed set. *)
Theorem findPath_terminates this start end_ :
  in_bounds this start → in_bounds this end_ →
  ¬ is_obstacle this start → ¬ is_obstacle this end_ →
  (∃ res, (AStar.findPath this start end_).1 = Return res) ∧
  ∀ startNode k st,
    pos startNode = start → AStar.parent startNode = None →
    turns (AStar.set_endPos this end_) end_ k
      (AStar.initial start startNode) st →
    size (AStar.closedSet st) = k ∧
    (k ≤ Z.to_nat (AStar.mapSize this * AStar.mapSize this))%nat ∧
    ∀ r, r ∈ AStar.openList st →
      ∃ nd, AStar.arena st !! r = Some nd ∧ in_bounds this (pos nd) ∧
            nkey nd ∉ AStar.closedSet st.
Proof.
  intros Hs He Hos Hoe. split.
  { destruct (findPath_valid this start end_ Hs He Hos Hoe) as (res & -> & _).
    by exists res. }
  intros startNode k st Hpos Hpar Hturns.
  destruct (turns_Inv (AStar.set_endPos this end_) start end_ startNode k st)
    as (HI & _ & Hsize); try done.
  { by apply isValidPosition_spec. }
  split; [done|]. split.
  { rewrite <-Hsize. apply (closed_bound _ _ _ _ HI). }
  intros r Hr. destruct (inv_open _ _ _ _ HI r Hr) as (nd & Hnd & _ & Hc).
  exists nd. split; [done|]. split; [|done].
  by apply isValidPosition_spec, (inv_valid _ _ _ _ HI r nd Hnd).
Qed.

Lemma findPath_terminates_witness :
  ∃ res, (AStar.findPath grid3 (0, 0) (2, 0)).1 = Return res.
Proof.
  apply (findPath_terminates grid3 (0, 0) (2, 0)).
  - vm_compute. reflexivity.
  - vm_compute. reflexivity.
  - unfold is_obstacle. simpl. apply not_elem_of_empty.
  - unfold is_obstacle. simpl. apply not_elem_of_empty.
Defined.

(** ** Connected grids *)

Section box.
Context (w h : Z) (R : relation (Z * Z)).
Context (HR : ∀ p q, inbox w h p → inbox w h q → axis_adjacent p q → R p q).

Lemma box_row (n : nat) : ∀ x x' y,
  x' = x + Z.of_nat n → inbox w h (x, y) → inbox w h (x', y) →
  rtc R (x, y) (x', y) ∧ rtc R (x', y) (x, y).
Proof using HR.
  induction n as [|n IH]; intros x x' y -> [Hx Hy] [Hx' _]; simpl in *.
  { replace (x + Z.of_nat 0) with x by lia. done. }
  destruct (IH (x + 1) (x + Z.of_nat (S n)) y) as [Hgo Hback];
    [lia|split; simpl; lia|split; simpl; lia|].
  split.
  - eapply rtc_l; [|exact Hgo].
    apply HR; [split; simpl; lia|split; simpl; lia|by left].
  - eapply rtc_r; [exact Hback|].
    apply HR; [split; simpl; lia|split; simpl; lia|].
    right; left. simpl. f_equal. lia.
Qed.

Lemma box_column (n : nat) : ∀ x y y',
  y' = y + Z.of_nat n → inbox w h (x, y) → inbox w h (x, y') →
  rtc R (x, y) (x, y') ∧ rtc R (x, y') (x, y).
Proof using HR.
  induction n as [|n IH]; intros x y y' -> [Hx Hy] [_ Hy']; simpl in *.
  { replace (y + Z.of_nat 0) with y by lia. done. }
  destruct (IH x (y + 1) (y + Z.of_nat (S n))) as [Hgo Hback];
    [lia|split; simpl; lia|split; simpl; lia|].
  split.
  - eapply rtc_l; [|exact Hgo].
    apply HR; [split; simpl; lia|split; simpl; lia|].
    right; right; by left.
  - eapply rtc_r; [exact Hback|].
    apply HR; [split; simpl; lia|split; simpl; lia|].
    right; right; right. simpl. f_equal. lia.
Qed.

Lemma box_connected p q : inbox w h p → inbox w h q → rtc R p q.
Proof using HR.
  destruct p as [x1 y1], q as [x2 y2]. intros Hp Hq.
  assert (inbox w h (x2, y1)) as Hm
    by (destruct Hp, Hq; split; simpl in *; lia).
  transitivity (x2, y1).
  - destruct (Z.le_ge_cases x1 x2).
    + apply (box_row (Z.to_nat (x2 - x1)) x1 x2 y1); [lia|done|done].
    + apply (box_row (Z.to_nat (x1 - x2)) x2 x1 y1); [lia|done|done].
  - destruct (Z.le_ge_cases y1 y2).
    + apply (box_column (Z.to_nat (y2 - y1)) x2 y1 y2); [lia|done|done].
    + apply (box_column (Z.to_nat (y1 - y2)) x2 y2 y1); [lia|done|done].
Qed.
End box.

Lemma rtc_walk this p q :
  rtc (λ p q, q ∈ neighbors_of this p) p q → ∃ k, walk this p q k.
Proof.
  induction 1 as [p|p q r Hq _ [k IH]].
  - exists 0%nat. apply walk_here.
  - exists (S k). by eapply walk_step.
Qed.

Lemma hex_connected this start end_ :
  AStar.obstacles this = ∅ → in_bounds this start → in_bounds this end_ →
  ∃ k, walk this start end_ k.
Proof.
  intros Hobs Hs He. apply rtc_walk.
  apply (box_connected (AStar.mapSize this) (AStar.mapSize this)).
  - intros p q _ [Hq1 Hq2] Hadj. apply axis_step; [|done].
    apply isValidPosition_spec. split.
    + apply isValidCoordinate_spec. done.
    + rewrite Hobs. apply not_elem_of_empty.
  - by apply isValidCoordinate_spec in Hs.
  - by apply isValidCoordinate_spec in He.
Qed.

(** *** The graph built by [createNodes] *)

Lemma cell_index_pos w h x y :
  0 ≤ x < w → 0 ≤ y < h →
  Z.rem (Z.of_nat (cell_index w (x, y))) w = x ∧
  Z.quot (Z.of_nat (cell_index w (x, y))) w = y ∧
  (cell_index w (x, y) < Z.to_nat (w * h))%nat.
Proof.
  intros Hx Hy. unfold cell_index. simpl.
  rewrite Z2Nat.id by nia.
  rewrite Z.rem_mod_nonneg, Z.quot_div_nonneg by nia.
  rewrite Z.mod_add, Z.div_add by lia.
  rewrite Z.mod_small, Z.div_small by lia.
  split; [done|]. split; [lia|]. nia.
Qed.

Lemma link_passable n idx :
  0 ≤ idx → (Z.to_nat idx < n)%nat →
  Main.link (replicate n 0) idx = [Z.to_nat idx].
Proof.
  intros Hidx Hlt. unfold Main.link.
  by rewrite lookup_replicate_2.
Qed.

Lemma createNodes_linked w h p q :
  inbox w h p → inbox w h q → axis_adjacent p q →
  linked (Main.createNodes w h (replicate (Z.to_nat (w * h)) 0))
    (cell_index w p) (cell_index w q).
Proof.
  destruct p as [x y], q as [x' y']. intros [Hx Hy] [Hx' Hy'] Hadj.
  simpl in *.
  destruct (cell_index_pos w h x y Hx Hy) as (Hrem & Hquot & Hlt).
  destruct (cell_index_pos w h x' y' Hx' Hy') as (_ & _ & Hlt').
  unfold linked, Main.createNodes.
  eexists. split.
  { rewrite list_lookup_imap, lookup_replicate_2 by done. reflexivity. }
  split.
  2:{ rewrite list_lookup_imap, lookup_replicate_2 by done. eauto. }
  simpl. unfold Main.idx_to_pos_x, Main.idx_to_pos_y, Main.pos_to_idx.
  rewrite Hrem, Hquot. unfold cell_index in *. simpl in *.
  destruct Hadj as [[= -> ->]|[[= -> ->]|[[= -> ->]|[= -> ->]]]].
  - (* right *)
    apply elem_of_app. right. apply elem_of_app. left.
    destruct (Z.ltb_spec x (w - 1)); [|lia].
    rewrite link_passable by (try done; nia). by apply list_elem_of_singleton.
  - (* left *)
    apply elem_of_app. left.
    destruct (Z.ltb_spec 0 x); [|lia].
    rewrite link_passable by (try done; nia). by apply list_elem_of_singleton.
  - (* down *)
    do 3 (apply elem_of_app; right).
    destruct (Z.ltb_spec y (h - 1)); [|lia].
    apply elem_of_app. left.
    rewrite link_passable by (try done; nia).
    by apply list_elem_of_singleton.
  - (* up *)
    do 2 (apply elem_of_app; right). apply elem_of_app. left.
    destruct (Z.ltb_spec 0 y); [|lia].
    apply elem_of_app. left.
    rewrite link_passable by (try done; nia).
    by apply list_elem_of_singleton.
Qed.

Lemma createNodes_connected w h i j :
  0 < w → 0 < h →
  (i < Z.to_nat (w * h))%nat → (j < Z.to_nat (w * h))%nat →
  rtc (linked (Main.createNodes w h (replicate (Z.to_nat (w * h)) 0))) i j.
Proof.
  intros Hw Hh Hi Hj.
  assert (∀ i : nat, (i < Z.to_nat (w * h))%nat →
    ∃ p, inbox w h p ∧ cell_index w p = i) as Hcell.
  { intros k Hk. exists (Z.of_nat k `mod` w, Z.of_nat k `div` w). split.
    - split; simpl; [apply Z.mod_pos_bound; lia|].
      split; [apply Z.div_pos; lia|]. apply Z.div_lt_upper_bound; lia.
    - unfold cell_index. simpl.
      rewrite (Z.mul_comm _ w), Z.add_comm, <-Z.div_mod by lia. lia. }
  destruct (Hcell i Hi) as (p & Hp & <-).
  destruct (Hcell j Hj) as (q & Hq & <-).
  apply (rtc_congruence
    (R := λ p q, inbox w h p ∧ inbox w h q ∧ axis_adjacent p q)
    (cell_index w)).
  { intros p' q' (? & ? & ?). by apply createNodes_linked. }
  by apply (box_connected w h).
Qed.

(** C6. On a grid without obstacles every in-bounds cell is reached from
    every other by steps of the hexagonal rule, and [findPath] returns a
    path, never [null], between any two in-bounds cells.  The graph that
    [createNodes] builds from a map without obstacles is connected as
    well. *)
Theorem obstacle_free_connected :
  (∀ this start end_,
     AStar.obstacles this = ∅ → in_bounds this start → in_bounds this end_ →
     (∃ k, walk this start end_ k) ∧
     ∃ path, (AStar.findPath this start end_).1 = Return (Some path)) ∧
  (∀ w h i j,
     0 < w → 0 < h →
     (i < Z.to_nat (w * h))%nat → (j < Z.to_nat (w * h))%nat →
     rtc (linked (Main.createNodes w h (replicate (Z.to_nat (w * h)) 0))) i j).
Proof.
  split; [|apply createNodes_connected].
  intros this start end_ Hobs Hs He.
  destruct (hex_connected this start end_ Hobs Hs He) as [k Hk].
  split; [by exists k|].
  destruct (findPath_valid this start end_ Hs He) as (res & -> & Hres).
  - unfold is_obstacle. rewrite Hobs. apply not_elem_of_empty.
  - unfold is_obstacle. rewrite Hobs. apply not_elem_of_empty.
  - destruct res as [path|]; [by exists path|]. destruct (Hres k Hk).
Qed.

Lemma obstacle_free_connected_witness :
  (∃ path, (AStar.findPath grid3 (0, 2) (2, 0)).1 = Return (Some path)) ∧
  rtc (linked (Main.createNodes 2 2 [0; 0; 0; 0])) 3%nat 0%nat.
Proof.
  destruct obstacle_free_connected as [Hhex Hrect]. split.
  - apply (Hhex grid3 (0, 2) (2, 0)).
    + reflexivity.
    + vm_compute. reflexivity.
    + vm_compute. reflexivity.
  - apply (Hrect 2 2 3%nat 0%nat); simpl; lia.
Defined.

(** ** Where the code departs from the specification *)

Lemma stepwise_walk this l : ∀ p q,
  stepwise this (p :: l) → last (p :: l) = Some q → walk this p q (length l).
Proof.
  induction l as [|a l IH]; intros p q Hs Hl.
  - injection Hl as ->. apply walk_here.
  - destruct Hs as [Ha Hs]. eapply walk_step; [exact Ha|]. by apply IH.
Qed.

(** Closed decidable facts are settled by evaluation. *)
Ltac by_evaluation :=
  match goal with
  | |- ?P => apply (bool_decide_unpack P); vm_compute; exact I
  end.

Lemma grid2_one_step : walk grid2 (1, 0) (0, 1) 1.
Proof.
  apply (walk_step grid2 (1, 0) (0, 1) (0, 1) 0); [by_evaluation|].
  apply walk_here.
Qed.

(** The statement of C1 as the specification words it does not hold. *)
Lemma grid2_not_admissible : ¬ admissible grid2.
Proof.
  intros Hadm.
  specialize (Hadm (1, 0) (0, 1) 1%nat (3 # 2)%Q eq_refl eq_refl
                grid2_one_step eq_refl).
  revert Hadm. apply Qlt_not_le. reflexivity.
Qed.

(** C1. The heuristic overestimates: on the 2 x 2 grid without obstacles the
    cell [(0, 1)] is one step away from [(1, 0)] (offset [(-1, 1)] of an even
    row), and the heuristic of [(1, 0)] towards [(0, 1)] is [3/2]. *)
Theorem heuristic_overestimates :
  AStar.constructor 2 None = Return grid2 ∧
  in_bounds grid2 (1, 0) ∧ in_bounds grid2 (0, 1) ∧
  (0, 1) ∈ neighbors_of grid2 (1, 0) ∧
  walk grid2 (1, 0) (0, 1) 1 ∧
  AStar.calculateHeuristic (AStar.set_endPos grid2 (0, 1)) 1 0
    = Return (3 # 2)%Q ∧
  (1 < 3 # 2)%Q.
Proof.
  split; [reflexivity|]. split; [reflexivity|]. split; [reflexivity|].
  split; [by_evaluation|]. split; [exact grid2_one_step|].
  split; reflexivity.
Qed.

Lemma grid7_findPath :
  (AStar.findPath grid7 (4, 0) (0, 6)).1 = Return (Some path7).
Proof. vm_compute. reflexivity. Qed.

Lemma grid7_bfs : bfs grid7 (4, 0) (0, 6) = Some 7%nat.
Proof. vm_compute. reflexivity. Qed.

Lemma grid7_seven_steps :
  stepwise grid7
    [(4, 0); (3, 0); (2, 1); (2, 2); (1, 3); (1, 4); (0, 5); (0, 6)].
Proof. repeat split; by_evaluation. Qed.

(** The statement of C2 as the specification words it does not hold. *)
Lemma grid7_not_optimal : ¬ optimal grid7 (4, 0) (0, 6).
Proof.
  intros Hopt. specialize (Hopt path7 grid7_findPath).
  rewrite grid7_bfs in Hopt. vm_compute in Hopt. discriminate.
Qed.

(** C2. The path returned is not always a shortest one: on the 7 x 7 grid
    whose only obstacle is [(3, 1)], from [(4, 0)] to [(0, 6)], [findPath]
    returns a path of 8 steps, while breadth-first search counts 7 and a
    walk of 7 steps exists. *)
Theorem findPath_suboptimal :
  AStar.constructor 7 (Some ["3,1"]) = Return grid7 ∧
  (AStar.findPath grid7 (4, 0) (0, 6)).1 = Return (Some path7) ∧
  coords path7 =
    [(4, 0); (4, 1); (4, 2); (3, 3); (3, 4); (2, 5); (1, 5); (1, 6); (0, 6)] ∧
  (length path7 - 1)%nat = 8%nat ∧
  bfs grid7 (4, 0) (0, 6) = Some 7%nat ∧
  stepwise grid7
    [(4, 0); (3, 0); (2, 1); (2, 2); (1, 3); (1, 4); (0, 5); (0, 6)] ∧
  walk grid7 (4, 0) (0, 6) 7.
Proof.
  split; [vm_compute; reflexivity|]. split; [exact grid7_findPath|].
  split; [vm_compute; reflexivity|]. split; [reflexivity|].
  split; [exact grid7_bfs|]. split; [exact grid7_seven_steps|].
  by apply (stepwise_walk grid7 _ _ _ grid7_seven_steps).
Qed.

(** C8. The bucket search does not always return a sequence or [null]: on
    the 2 x 2 map without obstacles, from [(0, 1)] (node 2) to [(1, 0)]
    (node 1), the bucket index of the end node is [-1] and the call throws;
    and when [start] is [end] the sequence returned holds [start]. *)
Theorem search_throws :
  (∀ fuel, Main.search (S fuel) graph2 2 1 = Throw TypeError) ∧
  (∀ fuel, Main.search (S fuel) graph2 1 1 = Return (Some [1%nat])).
Proof. split; intros fuel; vm_compute; reflexivity. Qed.

(** * Further properties of the code *)

(** ** Keys and neighbours of the path finder *)

(** X1. The key [`${x},${y}`] under which a cell enters the obstacle set,
    the open set and the closed set is free of collisions: two cells have
    the same key exactly when they are the same cell. *)
Theorem key_collision_free x y x' y' :
  AStar.key x y = AStar.key x' y' ↔ x = x' ∧ y = y'.
Proof.
  split; [apply key_inj|]. by intros [-> ->].
Qed.

Lemma getNeighbors_filter this node :
  coords (AStar.getNeighbors this node) =
  (λ d : Z * Z, (AStar.x node + d.1, AStar.y node + d.2)) <$>
    filter (λ d : Z * Z,
      AStar.isValidPosition this (AStar.x node + d.1) (AStar.y node + d.2) = true)
      (directions_of (AStar.y node)).
Proof.
  unfold AStar.getNeighbors, directions_of.
  generalize (if Z.rem (AStar.y node) 2 =? 0
              then AStar.evenRowDirections else AStar.oddRowDirections).
  intros l. induction l as [|d l IH]; [done|].
  simpl. unfold coords in *. rewrite fmap_app, IH.
  destruct (AStar.isValidPosition this _ _) eqn:Hv.
  - by rewrite filter_cons_True.
  - rewrite filter_cons_False; [done|]. by rewrite Hv.
Qed.

Lemma neighbors_of_spec this p q :
  q ∈ neighbors_of this p ↔
  AStar.isValidPosition this q.1 q.2 = true ∧
  (q.1 - p.1, q.2 - p.2) ∈ directions_of p.2.
Proof.
  unfold neighbors_of. rewrite getNeighbors_filter. simpl.
  rewrite list_elem_of_fmap. split.
  - intros (d & -> & [Hv Hd]%list_elem_of_filter). simpl. split; [done|].
    replace (p.1 + d.1 - p.1, p.2 + d.2 - p.2) with d; [done|].
    destruct d; simpl; f_equal; lia.
  - intros [Hv Hd]. exists (q.1 - p.1, q.2 - p.2). simpl. split.
    + destruct q; simpl; f_equal; lia.
    + apply list_elem_of_filter. split; [|done].
      simpl. replace (p.1 + (q.1 - p.1)) with q.1 by lia.
      replace (p.2 + (q.2 - p.2)) with q.2 by lia. done.
Qed.

Lemma directions_of_cases y d :
  d ∈ directions_of y →
  (Z.rem y 2 = 0 ∧
   (d = (-1, -1) ∨ d = (0, -1) ∨ d = (1, 0) ∨ d = (0, 1) ∨ d = (-1, 1) ∨
    d = (-1, 0))) ∨
  (Z.rem y 2 ≠ 0 ∧
   (d = (0, -1) ∨ d = (1, -1) ∨ d = (1, 0) ∨ d = (1, 1) ∨ d = (0, 1) ∨
    d = (-1, 0))).
Proof.
  unfold directions_of. destruct (Z.eqb_spec (Z.rem y 2) 0) as [Hy|Hy];
    intros Hd; [left|right]; (split; [done|]);
    repeat (apply elem_of_cons in Hd as [->|Hd]; [tauto|]);
    by apply not_elem_of_nil in Hd.
Qed.

Lemma neighbors_of_sym this p q :
  AStar.isValidPosition this p.1 p.2 = true →
  q ∈ neighbors_of this p → p ∈ neighbors_of this q.
Proof.
  intros Hp [Hq Hd]%neighbors_of_spec. apply neighbors_of_spec.
  split; [done|].
  apply isValidPosition_spec in Hp as [[_ Hpy]%isValidCoordinate_spec _].
  apply isValidPosition_spec in Hq as [[_ Hqy]%isValidCoordinate_spec _].
  destruct p as [px py], q as [qx qy]. simpl in *.
  assert (Z.rem py 2 = py `mod` 2) as Hrp by (apply Z.rem_mod_nonneg; lia).
  assert (Z.rem qy 2 = qy `mod` 2) as Hrq by (apply Z.rem_mod_nonneg; lia).
  unfold directions_of. rewrite Hrq.
  apply directions_of_cases in Hd. rewrite Hrp in Hd.
  destruct Hd as [[Hpar Hd]|[Hpar Hd]];
    repeat (destruct Hd as [Hd|Hd]); injection Hd as Hx Hy;
    (destruct (Z.eqb_spec (qy `mod` 2) 0) as [Hq2|Hq2]; [|]);
    try (exfalso; Z.div_mod_to_equations; lia);
    replace (px - qx) with (- (qx - px)) by lia;
    replace (py - qy) with (- (qy - py)) by lia;
    rewrite Hx, Hy; simpl; set_solver.
Qed.

(** X2. Between passable cells the hexagonal adjacency is symmetric: when
    [getNeighbors] lists [q] around the passable cell [p], it lists [p]
    around [q]. *)
Theorem neighbors_symmetric this p q :
  AStar.isValidPosition this p.1 p.2 = true →
  q ∈ neighbors_of this p → p ∈ neighbors_of this q.
Proof. apply neighbors_of_sym. Qed.

Lemma neighbors_symmetric_witness :
  (1, 0) ∈ neighbors_of grid3 (0, 1).
Proof.
  apply (neighbors_symmetric grid3 (1, 0) (0, 1)).
  - vm_compute. reflexivity.
  - by_evaluation.
Defined.

Lemma getNeighbors_elem this node nb :
  nb ∈ AStar.getNeighbors this node →
  ∃ d, d ∈ directions_of (AStar.y node) ∧
    nb = AStar.mkNode (AStar.x node + d.1) (AStar.y node + d.2) 0 0 0 None ∧
    AStar.isValidPosition this (AStar.x nb) (AStar.y nb) = true.
Proof.
  unfold AStar.getNeighbors. rewrite list_elem_of_In, in_flat_map.
  intros (d & Hd & Hnb). exists d. split; [by apply list_elem_of_In|].
  destruct (AStar.isValidPosition _ _ _) eqn:Hv; simpl in Hnb; [|done].
  destruct Hnb as [<-|[]]. done.
Qed.

(** X3. [getNeighbors] returns at most six nodes, for pairwise different
    cells, none of them the cell asked about; each is a passable cell at
    most one column and one row away, and comes with [g], [h] and [f] at 0
    and no parent. *)
Theorem getNeighbors_shape this node :
  (length (AStar.getNeighbors this node) ≤ 6)%nat ∧
  NoDup (coords (AStar.getNeighbors this node)) ∧
  (pos node ∉ coords (AStar.getNeighbors this node)) ∧
  Forall (λ nb,
    AStar.isValidPosition this (AStar.x nb) (AStar.y nb) = true ∧
    Z.abs (AStar.x nb - AStar.x node) ≤ 1 ∧
    Z.abs (AStar.y nb - AStar.y node) ≤ 1 ∧
    AStar.g nb = 0%Q ∧ AStar.h nb = 0%Q ∧ AStar.f nb = 0%Q ∧
    AStar.parent nb = None) (AStar.getNeighbors this node).
Proof.
  assert (NoDup (directions_of (AStar.y node)) ∧
          length (directions_of (AStar.y node)) = 6%nat) as [Hnd Hlen].
  { unfold directions_of. destruct (Z.rem (AStar.y node) 2 =? 0);
      (split; [by_evaluation|done]). }
  split; [|split; [|split]].
  - rewrite <-(length_fmap pos). fold (coords (AStar.getNeighbors this node)).
    rewrite getNeighbors_filter, length_fmap, <-Hlen. apply length_filter.
  - rewrite getNeighbors_filter. apply NoDup_fmap_2; [|by apply NoDup_filter].
    intros [a b] [c d] [= ? ?]. f_equal; lia.
  - rewrite getNeighbors_coords. intros [_ Hd]%neighbors_of_spec.
    apply directions_of_cases in Hd. unfold pos in Hd. simpl in Hd.
    rewrite !Z.sub_diag in Hd.
    destruct Hd as [[_ Hd]|[_ Hd]]; repeat (destruct Hd as [Hd|Hd]); done.
  - apply Forall_forall. intros nb (d & Hd & -> & Hv)%getNeighbors_elem.
    split; [done|]. simpl.
    apply directions_of_cases in Hd.
    destruct Hd as [[_ Hd]|[_ Hd]]; repeat (destruct Hd as [Hd|Hd]);
      subst d; simpl; repeat split; lia.
Qed.

(** ** What [findPath] answers *)

Lemma ValidPath_walk this start end_ path :
  ValidPath this start end_ path →
  walk this start end_ (length path - 1).
Proof.
  intros [Hfirst Hlast Hsteps _].
  destruct (coords path) as [|p l] eqn:Hc; [done|].
  simpl in Hfirst. injection Hfirst as ->.
  assert (length path = S (length l)) as ->.
  { unfold coords in Hc. rewrite <-(length_fmap pos), Hc. done. }
  replace (S (length l) - 1)%nat with (length l) by lia.
  by apply stepwise_walk.
Qed.

(** X4. On a valid input [findPath] returns [null] exactly when no sequence
    of steps of the hexagonal rule leads from [start] to [end]; otherwise it
    returns a path. *)
Theorem findPath_null_iff_unreachable this start end_ :
  in_bounds this start → in_bounds this end_ →
  ¬ is_obstacle this start → ¬ is_obstacle this end_ →
  ((AStar.findPath this start end_).1 = Return None ↔
   ∀ k, ¬ walk this start end_ k) ∧
  ((∃ path, (AStar.findPath this start end_).1 = Return (Some path)) ↔
   ∃ k, walk this start end_ k).
Proof.
  intros Hs He Hos Hoe.
  destruct (findPath_valid this start end_ Hs He Hos Hoe) as (res & -> & Hres).
  simpl. destruct res as [path|].
  - apply ValidPath_walk in Hres. split; split.
    + done.
    + intros Hno. destruct (Hno _ Hres).
    + eauto.
    + eauto.
  - split; split.
    + done.
    + done.
    + intros [path ?]. done.
    + intros [k Hk]. destruct (Hres k Hk).
Qed.

Lemma findPath_null_iff_unreachable_witness :
  ∃ path, (AStar.findPath grid7 (4, 0) (0, 6)).1 = Return (Some path).
Proof.
  apply (findPath_null_iff_unreachable grid7 (4, 0) (0, 6)).
  - vm_compute. reflexivity.
  - vm_compute. reflexivity.
  - unfold is_obstacle. by_evaluation.
  - unfold is_obstacle. by_evaluation.
  - exists 7%nat. by apply (stepwise_walk grid7 _ _ _ grid7_seven_steps).
Defined.

(** ** The heuristic *)

Lemma heuristic_value this x y ex ey :
  AStar.endPos this = Some (ex, ey) →
  ∃ hv, AStar.calculateHeuristic this x y = Return hv ∧
    (inject_Z (span (x, y) (ex, ey)) <= hv)%Q ∧
    (hv <= (3 # 2) * inject_Z (span (x, y) (ex, ey)))%Q ∧
    ((hv == 0)%Q ↔ x = ex ∧ y = ey).
Proof.
  intros Hend. unfold AStar.calculateHeuristic. rewrite Hend.
  eexists. split; [reflexivity|]. unfold span. simpl.
  pose proof (Z.abs_nonneg (x - ex)). pose proof (Z.abs_nonneg (y - ey)).
  unfold Qle, Qeq. simpl. split; [lia|]. split; lia.
Qed.

(** X5. The heuristic lies between the span of the two cells (the larger of
    their column and row distances) and one and a half times that span, and
    it is zero at the end cell only. *)
Theorem heuristic_bounds this x y ex ey :
  AStar.endPos this = Some (ex, ey) →
  ∃ hv, AStar.calculateHeuristic this x y = Return hv ∧
    (inject_Z (span (x, y) (ex, ey)) <= hv)%Q ∧
    (hv <= (3 # 2) * inject_Z (span (x, y) (ex, ey)))%Q ∧
    ((hv == 0)%Q ↔ x = ex ∧ y = ey).
Proof. exact (heuristic_value this x y ex ey). Qed.

Lemma heuristic_bounds_witness :
  ∃ hv, AStar.calculateHeuristic (AStar.set_endPos grid3 (2, 1)) 0 0
        = Return hv ∧ (inject_Z 2 <= hv)%Q ∧ (hv <= (3 # 2) * inject_Z 2)%Q.
Proof.
  destruct (heuristic_bounds (AStar.set_endPos grid3 (2, 1)) 0 0 2 1 eq_refl)
    as (hv & Hrun & Hlow & Hhigh & _).
  exists hv. split; [exact Hrun|]. split; [exact Hlow|exact Hhigh].
Defined.

Lemma neighbors_of_close this p q :
  q ∈ neighbors_of this p →
  Z.abs (q.1 - p.1) ≤ 1 ∧ Z.abs (q.2 - p.2) ≤ 1.
Proof.
  intros [_ Hd]%neighbors_of_spec. apply directions_of_cases in Hd.
  destruct Hd as [[_ Hd]|[_ Hd]]; repeat (destruct Hd as [Hd|Hd]);
    injection Hd as -> ->; lia.
Qed.

Lemma walk_span this p q k : walk this p q k → span p q ≤ Z.of_nat k.
Proof.
  unfold span. induction 1 as [p|p q r k Hq _ IH].
  - rewrite !Z.sub_diag. simpl. lia.
  - apply neighbors_of_close in Hq. lia.
Qed.

(** X6. A walk between two cells has at least as many steps as their span,
    so the heuristic, which C1 shows to overestimate, exceeds the number of
    steps of a walk to the end by at most one half of it. *)
Theorem heuristic_within_half this p end_ k hv :
  walk this p end_ k →
  AStar.calculateHeuristic (AStar.set_endPos this end_) p.1 p.2 = Return hv →
  span p end_ ≤ Z.of_nat k ∧
  (hv <= (3 # 2) * inject_Z (Z.of_nat k))%Q.
Proof.
  intros Hwalk Hrun. pose proof (walk_span this p end_ k Hwalk) as Hspan.
  split; [done|]. destruct end_ as [ex ey], p as [x y].
  destruct (heuristic_value (AStar.set_endPos this (ex, ey)) x y ex ey eq_refl)
    as (hv' & Hrun' & _ & Hhigh & _).
  simpl in Hrun. rewrite Hrun in Hrun'. injection Hrun' as <-.
  eapply Qle_trans; [exact Hhigh|].
  apply Qmult_le_l; [reflexivity|]. rewrite <-Zle_Qle. exact Hspan.
Qed.

Lemma heuristic_within_half_witness :
  span (1, 0) (0, 1) ≤ 1 ∧ ((3 # 2) <= (3 # 2) * inject_Z 1)%Q.
Proof.
  apply (heuristic_within_half grid2 (1, 0) (0, 1) 1 (3 # 2)%Q).
  - exact grid2_one_step.
  - reflexivity.
Defined.

(** ** The nodes of a returned path *)

Section scores.
Context (this : AStar.t) (start end_ : Z * Z).
Context (Hend : is_Some (AStar.endPos this)).

Local Abbreviation Inv := (Inv this start end_).

(** What a turn that goes on has done. *)
Lemma turn_inl st st' :
  Inv st → AStar.turn this end_ st = Return (inl st') →
  ∃ cur cn,
    cur ∈ AStar.openList st ∧ AStar.arena st !! cur = Some cn ∧
    pos cn ≠ end_ ∧
    forEach (AStar.visitNeighbor this cur) (AStar.getNeighbors this cn)
      (AStar.mkState (AStar.arena st)
         (filter (λ r, r ≠ cur) (AStar.openList st))
         (delete (nkey cn) (AStar.openSet st))
         ({[nkey cn]} ∪ AStar.closedSet st)) = Return st'.
Proof.
  intros HI. unfold AStar.turn.
  destruct (AStar.openList st) as [|r0 rest] eqn:Hol; [done|].
  rewrite <-Hol.
  destruct (getMinFNode_first (AStar.arena st) (AStar.openList st))
    as (cur & cn & i & Hmin & Hi & Hcn & _).
  { by rewrite Hol. }
  { intros r Hr. destruct (inv_open _ _ _ _ HI r Hr) as (nd & -> & _). eauto. }
  assert (cur ∈ AStar.openList st) as Hcur
    by (by eapply list_elem_of_lookup_2).
  rewrite Hmin. simpl. rewrite (getNode_Some _ _ _ Hcn). simpl.
  destruct ((AStar.x cn =? end_.1) && (AStar.y cn =? end_.2)) eqn:Hat.
  { destruct (AStar.buildPath _ _); done. }
  assert (pos cn ≠ end_) as Hne.
  { intros <-. simpl in Hat. rewrite !Z.eqb_refl in Hat. done. }
  rewrite (removeFromOpenList_spec _ cur cn); [|done|apply HI|done|..].
  2:{ intros r nd Hr Hnd Hpos. eapply Inv_open_key; [done..|].
      unfold nkey. injection Hpos as -> ->. done. }
  2:{ intros r Hr.
      destruct (inv_open _ _ _ _ HI r Hr) as (nd & -> & _). eauto. }
  simpl. intros Hrun. exists cur, cn.
  split; [done|]. split; [done|]. split; [done|].
  unfold nkey. destruct (forEach _ _ _); simplify_eq/=; done.
Qed.

(** What a turn that returns a path has done. *)
Lemma turn_inr st path :
  Inv st → AStar.turn this end_ st = Return (inr (Some path)) →
  ∃ cur cn,
    cur ∈ AStar.openList st ∧ AStar.arena st !! cur = Some cn ∧
    pos cn = end_ ∧ AStar.buildPath (AStar.arena st) cur = Return path.
Proof.
  intros HI. unfold AStar.turn.
  destruct (AStar.openList st) as [|r0 rest] eqn:Hol; [done|].
  rewrite <-Hol.
  destruct (getMinFNode_first (AStar.arena st) (AStar.openList st))
    as (cur & cn & i & Hmin & Hi & Hcn & _).
  { by rewrite Hol. }
  { intros r Hr. destruct (inv_open _ _ _ _ HI r Hr) as (nd & -> & _). eauto. }
  assert (cur ∈ AStar.openList st) as Hcur
    by (by eapply list_elem_of_lookup_2).
  rewrite Hmin. simpl. rewrite (getNode_Some _ _ _ Hcn). simpl.
  destruct ((AStar.x cn =? end_.1) && (AStar.y cn =? end_.2)) eqn:Hat.
  - intros Hrun. exists cur, cn. split; [done|]. split; [done|]. split.
    + unfold pos. destruct end_. simpl in *. f_equal; lia.
    + destruct (AStar.buildPath _ _); simplify_eq/=; done.
  - destruct (AStar.removeFromOpenList _ _ _); simpl; [|done..].
    destruct (forEach _ _ _); done.
Qed.

Lemma Inv_node_status st r nd :
  Inv st → AStar.arena st !! r = Some nd →
  AStar.openSet st !! nkey nd = Some r ∨ nkey nd ∈ AStar.closedSet st.
Proof.
  intros HI Hnd. destruct (inv_status _ _ _ _ HI r nd Hnd) as [Hin|[? _]].
  - destruct (inv_open _ _ _ _ HI r Hin) as (nd' & Hnd' & Ho & _).
    left. congruence.
  - by right.
Qed.

Lemma visitNeighbor_scores st st' cur cn nb :
  Inv st → Scores this (AStar.arena st) →
  AStar.arena st !! cur = Some cn → nkey cn ∈ AStar.closedSet st →
  AStar.visitNeighbor this cur st nb = Return st' →
  Scores this (AStar.arena st').
Proof using Hend.
  intros HI HS Hcn Hcl. unfold AStar.visitNeighbor.
  case_bool_decide as Hclosed; [by intros [= <-]|].
  rewrite (getNode_Some _ _ _ Hcn). simpl.
  destruct (AStar.openSet st !! _) as [e|] eqn:Ho.
  - destruct (inv_openSet _ _ _ _ HI _ _ Ho) as (Hin & ne & Hne & Hk).
    rewrite (getNode_Some _ _ _ Hne). simpl.
    destruct (AStar.Qltb _ _); [|by intros [= <-]].
    intros [= <-]. simpl.
    set (ne' := AStar.mkNode _ _ _ _ _ _).
    assert (e ≠ cur) as Hecur.
    { intros ->. assert (ne = cn) as -> by congruence.
      apply Hclosed. by rewrite <-Hk. }
    assert (e < length (AStar.arena st))%nat as Hlt
      by (by eapply lookup_lt_Some).
    assert (∀ r nd, <[e := ne']> (AStar.arena st) !! r = Some nd →
      (r = e ∧ nd = ne') ∨ (r ≠ e ∧ AStar.arena st !! r = Some nd)) as Hbwd.
    { intros r nd [(-> & <- & _)|[? ?]]%list_lookup_insert_Some; auto. }
    assert (∀ r nd, <[e := ne']> (AStar.arena st) !! r = Some nd →
      ∃ nd0, AStar.arena st !! r = Some nd0 ∧ nkey nd0 = nkey nd) as Hkey.
    { intros r nd Hl. destruct (Hbwd r nd Hl) as [[Hr Hn]|[_ Hnd]].
      - subst r nd. by exists ne.
      - by exists nd. }
    split.
    + intros r1 r2 n1 n2 (m1 & Hm1 & <-)%Hkey (m2 & Hm2 & <-)%Hkey.
      by apply (scores_distinct _ _ HS).
    + intros r nd Hl. destruct (Hbwd r nd Hl) as [[Hr Hn]|[_ Hnd]].
      * subst r nd. simpl. split; [|done]. apply (scores_h _ _ HS e ne Hne).
      * by apply (scores_h _ _ HS r).
    + intros r nd Hl. destruct (Hbwd r nd Hl) as [[Hr Hn]|[Hr Hnd]].
      * subst r nd. simpl. exists cn. split; [|done].
        by rewrite list_lookup_insert_ne.
      * pose proof (scores_g _ _ HS r nd Hnd) as Hg.
        destruct (AStar.parent nd) as [p|] eqn:Hp; [|done].
        destruct Hg as (pn & Hpn & Hg). exists pn. split; [|done].
        rewrite list_lookup_insert_ne; [done|]. intros Hep. subst p.
        destruct (inv_parent _ _ _ _ HI r nd e Hnd Hp) as (pn' & Hpn' & Hc & _).
        assert (pn' = ne) as -> by congruence.
        apply Hclosed. by rewrite <-Hk.
  - destruct (calculateHeuristic_Return this Hend (AStar.x nb) (AStar.y nb))
      as [hv Hhv]. rewrite Hhv. simpl. intros [= <-]. simpl.
    set (nb' := AStar.mkNode _ _ _ _ _ _).
    split.
    + intros r1 r2 n1 n2 [H1|[-> ->]]%lookup_snoc_Some
        [H2|[-> ->]]%lookup_snoc_Some Hk.
      * by apply (scores_distinct _ _ HS r1 r2 n1 n2).
      * exfalso. destruct (Inv_node_status st r1 n1 HI H1) as [Ho1|Hc1].
        -- rewrite Hk in Ho1. unfold nkey in Ho1. simpl in Ho1. congruence.
        -- rewrite Hk in Hc1. done.
      * exfalso. destruct (Inv_node_status st r2 n2 HI H2) as [Ho2|Hc2].
        -- rewrite <-Hk in Ho2. unfold nkey in Ho2. simpl in Ho2. congruence.
        -- rewrite <-Hk in Hc2. done.
      * done.
    + intros r nd [Hnd|[-> ->]]%lookup_snoc_Some.
      * by apply (scores_h _ _ HS r).
      * simpl. done.
    + intros r nd [Hnd|[-> ->]]%lookup_snoc_Some.
      * pose proof (scores_g _ _ HS r nd Hnd) as Hg.
        destruct (AStar.parent nd) as [p|]; [|done].
        destruct Hg as (pn & Hpn & Hg). exists pn.
        split; [by apply lookup_app_l_Some|done].
      * simpl. exists cn. split; [by apply lookup_app_l_Some|done].
Qed.

Lemma visit_all_scores cur cn nbs : ∀ st st',
  Inv st → Scores this (AStar.arena st) →
  AStar.arena st !! cur = Some cn → nkey cn ∈ AStar.closedSet st →
  (∀ nb, nb ∈ nbs →
     AStar.isValidPosition this (AStar.x nb) (AStar.y nb) = true ∧
     pos nb ∈ neighbors_of this (pos cn)) →
  forEach (AStar.visitNeighbor this cur) nbs st = Return st' →
  Scores this (AStar.arena st').
Proof using Hend.
  induction nbs as [|nb nbs IH]; intros st st' HI HS Hcn Hcl Hnbs.
  { by intros [= <-]. }
  destruct (Hnbs nb) as [Hv Hnb]; [by left|].
  destruct (visitNeighbor_spec this start end_ Hend st cur cn nb HI Hcn Hcl Hv Hnb)
    as (st1 & Hrun & HI1 & Hcl1 & Hcn1 & _).
  simpl. rewrite Hrun. simpl. apply IH; try done.
  - by apply (visitNeighbor_scores st st1 cur cn nb).
  - by rewrite Hcl1.
  - intros nb' ?. apply Hnbs. by right.
Qed.

Lemma turn_scores st st' :
  Inv st → Scores this (AStar.arena st) →
  AStar.turn this end_ st = Return (inl st') →
  Scores this (AStar.arena st').
Proof using Hend.
  intros HI HS Hturn.
  destruct (turn_inl st st' HI Hturn) as (cur & cn & Hcur & Hcn & Hne & Hrun).
  eapply (visit_all_scores cur cn); [| | | | |exact Hrun].
  - by apply Inv_close.
  - done.
  - done.
  - simpl. set_solver.
  - intros nb Hnb. split; [by eapply getNeighbors_valid|].
    rewrite <-getNeighbors_coords. unfold coords.
    apply list_elem_of_fmap. eauto.
Qed.

(** The state in which the loop returns a path. *)
Lemma findPath_loop_last fuel path : ∀ st,
  Inv st → Complete this start st → Scores this (AStar.arena st) →
  AStar.findPath_loop fuel this end_ st = Return (Some path) →
  ∃ st', Inv st' ∧ Scores this (AStar.arena st') ∧
    AStar.turn this end_ st' = Return (inr (Some path)).
Proof using Hend.
  induction fuel as [|fuel IH]; intros st HI Hcomp HS; [done|].
  rewrite findPath_loop_S.
  destruct (turn_spec this start end_ Hend st HI Hcomp) as (r & Hturn & Hr).
  rewrite Hturn. simpl. destruct r as [st'|[path'|]].
  - destruct Hr as (HI' & Hcomp' & _). apply IH; [done|done|].
    by apply (turn_scores st st').
  - intros [= ->]. by exists st.
  - done.
Qed.
End scores.

Lemma buildPath_loop_nodes a r l :
  chain a r l → ∀ fuel acc, (length l ≤ fuel)%nat →
  ∃ ns, AStar.buildPath_loop fuel a (Some r) acc = Return (ns ++ acc) ∧
    Forall2 (λ i n, a !! i = Some n) (reverse l) ns.
Proof.
  induction 1 as [r nd Hr Hp|r nd p l Hr Hp Hc IH];
    intros [|fuel] acc Hfuel; simpl in Hfuel; try lia.
  - exists [nd]. simpl. rewrite (getNode_Some _ _ _ Hr). simpl.
    rewrite Hp, buildPath_loop_None. split; [done|].
    by apply Forall2_cons.
  - destruct (IH fuel (nd :: acc)) as (ns & Hrun & Hns); [lia|].
    exists (ns ++ [nd]). simpl. rewrite (getNode_Some _ _ _ Hr). simpl.
    rewrite Hp, Hrun, <-app_assoc. split; [done|].
    rewrite reverse_cons. apply Forall2_app; [done|]. by apply Forall2_cons.
Qed.

Lemma chain_drop a r l j r' :
  chain a r l → l !! j = Some r' → chain a r' (drop j l).
Proof.
  intros Hc. revert j. induction Hc as [r nd Hr Hp|r nd p l Hr Hp Hc IH];
    intros [|j] Hj; simpl in *.
  - injection Hj as <-. by eapply chain_root.
  - by rewrite lookup_nil in Hj.
  - injection Hj as <-. by eapply chain_link.
  - by apply IH.
Qed.

Lemma chain_g this a r l nd :
  Scores this a → chain a r l → a !! r = Some nd →
  (AStar.g nd == inject_Z (Z.of_nat (length l) - 1))%Q.
Proof.
  intros HS Hc. revert nd.
  induction Hc as [r nd' Hr Hp|r nd' p l Hr Hp Hc IH]; intros nd Hnd;
    assert (nd' = nd) as -> by congruence;
    pose proof (scores_g _ _ HS r nd Hnd) as Hg; rewrite Hp in Hg.
  - rewrite Hg. reflexivity.
  - destruct Hg as (pn & Hpn & ->). rewrite (IH pn Hpn).
    simpl length. rewrite Nat2Z.inj_succ.
    unfold Qeq. simpl. lia.
Qed.

(** The last state of a call that returns a path. *)
Lemma findPath_last_state this start end_ path :
  (AStar.findPath this start end_).1 = Return (Some path) →
  ∃ st cur l,
    Inv (AStar.set_endPos this end_) start end_ st ∧
    Scores (AStar.set_endPos this end_) (AStar.arena st) ∧
    chain (AStar.arena st) cur l ∧ NoDup l ∧
    Forall2 (λ i n, AStar.arena st !! i = Some n) (reverse l) path ∧
    ValidPath this start end_ path.
Proof.
  intros Hrun.
  destruct (input_cases this start end_) as [(Hs & He & Hos & Hoe)|Hbad].
  2:{ destruct (findPath_invalid this start end_ Hbad) as (err & Heq & _).
      rewrite Heq in Hrun. done. }
  destruct (findPath_valid this start end_ Hs He Hos Hoe) as (res & Heq & Hres).
  rewrite Heq in Hrun. simpl in Hrun. injection Hrun as ->.
  revert Heq. unfold in_bounds, is_obstacle in *. unfold AStar.findPath.
  rewrite Hs, He. simpl. rewrite !bool_decide_eq_false_2 by done.
  unfold AStar.calculateHeuristic at 1. simpl. destruct end_ as [ex ey]. simpl.
  set (startNode := AStar.mkNode _ _ _ _ _ _).
  set (this' := AStar.set_endPos this (ex, ey)).
  intros [= Hloop].
  destruct (Inv_initial this' start (ex, ey) startNode) as [HI Hcomp].
  { by destruct start. }
  { done. }
  { by apply isValidPosition_spec. }
  assert (Scores this' (AStar.arena (AStar.initial start startNode))) as HS.
  { assert (∀ r nd, [startNode] !! r = Some nd → nd = startNode) as Hone.
    { by intros r nd [_ ->]%list_lookup_singleton_Some. }
    split; simpl.
    - intros r1 r2 n1 n2 [-> _]%list_lookup_singleton_Some
        [-> _]%list_lookup_singleton_Some _. done.
    - intros r nd ->%Hone. done.
    - intros r nd ->%Hone. done. }
  destruct (findPath_loop_last this' start (ex, ey) (ltac:(by eexists)) _ _ _
              HI Hcomp HS Hloop) as (st & HI' & HS' & Hturn).
  destruct (turn_inr this' start (ex, ey) st path HI' Hturn)
    as (cur & cn & Hcur & Hcn & Hpos & Hbuild).
  destruct (inv_chain _ _ _ _ HI' cur cn Hcn) as (l & Hl & Hnodup).
  destruct (buildPath_loop_nodes _ _ _ Hl (length (AStar.arena st)) [])
    as (ns & Hns & Hall).
  { apply NoDup_bounded; [done|]. by eapply chain_valid. }
  unfold AStar.buildPath in Hbuild. rewrite Hns, app_nil_r in Hbuild.
  injection Hbuild as ->.
  exists st, cur, l. done.
Qed.

Lemma Forall2_NoDup_fmap {A B C} (R : A → B → Prop) (f : B → C) l k :
  (∀ i j n m, R i n → R j m → f n = f m → i = j) →
  Forall2 R l k → NoDup l → NoDup (f <$> k).
Proof.
  intros Hinj. induction 1 as [|i n l k Hin Hall IH]; intros Hnd; simpl.
  - constructor.
  - apply NoDup_cons in Hnd as [Hi Hnd]. apply NoDup_cons. split; [|by apply IH].
    intros (m & Hfm & Hm)%list_elem_of_fmap.
    apply list_elem_of_lookup in Hm as [c Hc].
    destruct (Forall2_lookup_r _ _ _ _ _ Hall Hc) as (j & Hj & Hjm).
    apply Hi. rewrite (Hinj i j n m Hin Hjm Hfm).
    by eapply list_elem_of_lookup_2.
Qed.

Lemma findPath_NoDup this start end_ path :
  (AStar.findPath this start end_).1 = Return (Some path) →
  NoDup (coords path).
Proof.
  intros Hrun.
  destruct (findPath_last_state this start end_ path Hrun)
    as (st & cur & l & HI & HS & Hl & Hnodup & Hall & Hvalid).
  unfold coords.
  apply (Forall2_NoDup_fmap
           (λ i n, AStar.arena st !! i = Some n) pos (reverse l) path);
    [|done|by rewrite reverse_Permutation].
  intros i j n m Hi Hj Hpos.
  apply (scores_distinct _ _ HS i j n m Hi Hj).
  unfold nkey. unfold pos in Hpos. by injection Hpos as -> ->.
Qed.

(** X7. A path returned by [findPath] passes through no cell twice; it has
    at least one cell more than the larger of the two coordinate differences
    between [start] and [end], and at most [mapSize * mapSize] cells. *)
Theorem findPath_path_simple this start end_ path :
  (AStar.findPath this start end_).1 = Return (Some path) →
  NoDup (coords path) ∧
  span start end_ + 1 ≤ Z.of_nat (length path)
    ≤ AStar.mapSize this * AStar.mapSize this.
Proof.
  intros Hrun.
  pose proof (findPath_NoDup this start end_ path Hrun) as Hsimple.
  destruct (findPath_last_state this start end_ path Hrun)
    as (st & cur & l & HI & HS & Hl & Hnodup & Hall & Hvalid).
  split; [done|]. split.
  - pose proof (walk_span _ _ _ _ (ValidPath_walk _ _ _ _ Hvalid)) as Hspan.
    destruct Hvalid as [Hfirst _ _ _]. destruct path; [done|].
    simpl length in *. lia.
  - assert (coords path ⊆+ cells this) as Hsub.
    { apply NoDup_submseteq; [done|]. intros [x y] Hp.
      apply cells_spec.
      destruct Hvalid as [_ _ _ Hcells].
      rewrite Forall_forall in Hcells. by destruct (Hcells _ Hp). }
    apply submseteq_length in Hsub. unfold coords in Hsub.
    rewrite length_fmap in Hsub. pose proof (cells_length this) as Hlen.
    destruct (Z.le_gt_cases 0 (AStar.mapSize this * AStar.mapSize this));
      [lia|nia].
Qed.

(** X8. In a path returned by [findPath] the node at index [i] carries the
    cost [g = i]; its [h] is the heuristic of its cell towards [end] and its
    [f] is the sum of the two. *)
Theorem findPath_path_scores this start end_ path i nd :
  (AStar.findPath this start end_).1 = Return (Some path) →
  path !! i = Some nd →
  (AStar.g nd == inject_Z (Z.of_nat i))%Q ∧
  AStar.calculateHeuristic (AStar.set_endPos this end_)
    (AStar.x nd) (AStar.y nd) = Return (AStar.h nd) ∧
  AStar.f nd = (AStar.g nd + AStar.h nd)%Q.
Proof.
  intros Hrun Hi.
  destruct (findPath_last_state this start end_ path Hrun)
    as (st & cur & l & HI & HS & Hl & Hnodup & Hall & Hvalid).
  destruct (Forall2_lookup_r _ _ _ _ _ Hall Hi) as (r & Hr & Hnd).
  split; [|by apply (scores_h _ _ HS r nd Hnd)].
  pose proof (lookup_lt_Some _ _ _ Hr) as Hlt. rewrite length_reverse in Hlt.
  rewrite reverse_lookup in Hr by done.
  rewrite (chain_g _ _ _ _ _ HS (chain_drop _ _ _ _ _ Hl Hr) Hnd).
  rewrite length_drop.
  replace (Z.of_nat (length l - (length l - S i)) - 1) with (Z.of_nat i) by lia.
  reflexivity.
Qed.

Lemma findPath_path_simple_witness :
  NoDup (coords path7) ∧ 7 ≤ Z.of_nat (length path7) ≤ 49.
Proof.
  apply (findPath_path_simple grid7 (4, 0) (0, 6) path7).
  vm_compute. reflexivity.
Defined.

Lemma findPath_path_scores_witness :
  ∃ nd, path4 !! 3%nat = Some nd ∧ (AStar.g nd == 3)%Q ∧
    AStar.f nd = (AStar.g nd + AStar.h nd)%Q.
Proof.
  destruct (path4 !! 3%nat) as [nd|] eqn:Hnd; [|vm_compute in Hnd; done].
  exists nd. split; [done|].
  destruct (findPath_path_scores grid4 (0, 0) (3, 1) path4 3 nd) as (Hg & _ & Hf).
  - vm_compute. reflexivity.
  - done.
  - done.
Defined.

(** ** The open list *)

(** X9. On a non-empty list of nodes [getMinFNode] returns a node of the
    list whose [f] is the least of the list, and among the nodes of least
    [f] the one that comes first. *)
Theorem getMinFNode_least_first a l :
  l ≠ [] → (∀ r, r ∈ l → is_Some (a !! r)) →
  ∃ m nm i, AStar.getMinFNode a l = Return m ∧
    l !! i = Some m ∧ a !! m = Some nm ∧
    (∀ r n, r ∈ l → a !! r = Some n → (AStar.f nm <= AStar.f n)%Q) ∧
    (∀ j r n, (j < i)%nat → l !! j = Some r → a !! r = Some n →
       (AStar.f nm < AStar.f n)%Q).
Proof.
  intros Hne Hval.
  destruct (getMinFNode_first a l Hne Hval)
    as (m & nm & i & Hrun & Hi & Hm & Hle & Hlt).
  exists m, nm, i. do 3 (split; [done|]). split; [|done].
  intros r n [j Hj]%list_elem_of_lookup Hn. by apply (Hle j r n).
Qed.

Lemma getMinFNode_least_first_witness :
  ∃ m nm i,
    AStar.getMinFNode
      [AStar.mkNode 0 0 0 2 2 None; AStar.mkNode 1 0 0 1 1 None;
       AStar.mkNode 2 0 0 1 1 None] [0; 1; 2]%nat = Return m ∧
    [0; 1; 2]%nat !! i = Some m ∧
    [AStar.mkNode 0 0 0 2 2 None; AStar.mkNode 1 0 0 1 1 None;
     AStar.mkNode 2 0 0 1 1 None] !! m = Some nm.
Proof.
  destruct (getMinFNode_least_first
    [AStar.mkNode 0 0 0 2 2 None; AStar.mkNode 1 0 0 1 1 None;
     AStar.mkNode 2 0 0 1 1 None] [0; 1; 2]%nat)
    as (m & nm & i & Hrun & Hi & Hm & _).
  - done.
  - intros r Hr. repeat (apply elem_of_cons in Hr as [->|Hr]; [by eexists|]).
    by apply not_elem_of_nil in Hr.
  - by exists m, nm, i.
Defined.

(** X10. [removeFromOpenList] looks for the first node of the list that has
    the coordinates of the given node and takes that one entry out, whatever
    object it is; the entries before and after it stay, in their order.  A
    list without such a node is returned as it is. *)
Theorem removeFromOpenList_first_match a l node :
  (∀ r, r ∈ l → is_Some (a !! r)) →
  let same r :=
    ∃ n, a !! r = Some n ∧
      AStar.x n = AStar.x node ∧ AStar.y n = AStar.y node in
  (∃ l1 r l2, l = l1 ++ r :: l2 ∧ same r ∧ (∀ r', r' ∈ l1 → ¬ same r') ∧
     AStar.removeFromOpenList a l node = Return (l1 ++ l2)) ∨
  ((∀ r, r ∈ l → ¬ same r) ∧ AStar.removeFromOpenList a l node = Return l).
Proof.
  intros Hval same. induction l as [|r l IH].
  { right. split; [|done]. intros r Hr. by apply not_elem_of_nil in Hr. }
  destruct (Hval r) as [n Hn]; [by left|]. simpl.
  rewrite (getNode_Some _ _ _ Hn). simpl.
  destruct ((AStar.x n =? AStar.x node) && (AStar.y n =? AStar.y node))
    eqn:Heq.
  - left. exists [], r, l. split; [done|]. split.
    { exists n. split; [done|]. lia. }
    split; [|done]. intros r' Hr'. by apply not_elem_of_nil in Hr'.
  - assert (¬ same r) as Hr.
    { intros (n' & Hn' & Hx & Hy).
      assert (n' = n) as -> by congruence.
      rewrite Hx, Hy, !Z.eqb_refl in Heq. done. }
    destruct IH as [(l1 & r1 & l2 & -> & Hsame & Hbefore & ->)|[Hnone ->]].
    { intros r' ?. apply Hval. by right. }
    + left. exists (r :: l1), r1, l2. split; [done|]. split; [done|].
      split; [|done].
      intros r' [->|?]%elem_of_cons; [done|by apply Hbefore].
    + right. split; [|done].
      intros r' [->|?]%elem_of_cons; [done|by apply Hnone].
Qed.

Lemma removeFromOpenList_first_match_witness :
  ∃ l', AStar.removeFromOpenList
    [AStar.mkNode 0 0 0 0 0 None; AStar.mkNode 1 0 0 0 0 None;
     AStar.mkNode 1 0 5 0 5 None] [0; 1; 2]%nat
    (AStar.mkNode 1 0 9 9 9 None) = Return l'.
Proof.
  destruct (removeFromOpenList_first_match
    [AStar.mkNode 0 0 0 0 0 None; AStar.mkNode 1 0 0 0 0 None;
     AStar.mkNode 1 0 5 0 5 None] [0; 1; 2]%nat
    (AStar.mkNode 1 0 9 9 9 None)) as [(l1 & r & l2 & _ & _ & _ & Hrun)|[_ Hrun]].
  - intros r Hr. repeat (apply elem_of_cons in Hr as [->|Hr]; [by eexists|]).
    by apply not_elem_of_nil in Hr.
  - by eexists.
  - by eexists.
Defined.

(** ** The map of class [Main] *)

(** X11. For a positive width, [idx_to_pos_x] and [idx_to_pos_y] undo
    [pos_to_idx] on the cells of a row of that width, and [pos_to_idx] undoes
    them on every index; the indices are those of 32-bit range, where
    [>> 0] only drops the fraction. *)
Theorem idx_pos_round_trip w h :
  0 < w →
  (∀ idx, - 2 ^ 31 ≤ idx < 2 ^ 31 →
     Main.pos_to_idx (Main.idx_to_pos_x idx w h) (Main.idx_to_pos_y idx w h)
       w h = idx) ∧
  (∀ x y, 0 ≤ x < w → 0 ≤ y → x + y * w < 2 ^ 31 →
     Main.idx_to_pos_x (Main.pos_to_idx x y w h) w h = x ∧
     Main.idx_to_pos_y (Main.pos_to_idx x y w h) w h = y).
Proof.
  intros Hw. unfold Main.pos_to_idx, Main.idx_to_pos_x, Main.idx_to_pos_y.
  split.
  - intros idx _. pose proof (Z.quot_rem' idx w). lia.
  - intros x y Hx Hy _.
    rewrite Z.rem_mod_nonneg, Z.quot_div_nonneg by nia.
    rewrite Z.mod_add, Z.div_add by lia.
    rewrite Z.mod_small, Z.div_small by lia. lia.
Qed.

Lemma idx_pos_round_trip_witness :
  Main.pos_to_idx (Main.idx_to_pos_x 240 50 50) (Main.idx_to_pos_y 240 50 50)
    50 50 = 240 ∧
  Main.idx_to_pos_x (Main.pos_to_idx 40 4 50 50) 50 50 = 40.
Proof.
  destruct (idx_pos_round_trip 50 50) as [Hidx Hpos]; [lia|].
  split; [apply Hidx; lia|apply Hpos; lia].
Defined.

Lemma link_elem data idx j :
  j ∈ Main.link data idx → j = Z.to_nat idx ∧ data !! j = Some 0.
Proof.
  unfold Main.link. destruct (data !! Z.to_nat idx) as [[| |]|] eqn:Hd;
    intros Hj; try by apply not_elem_of_nil in Hj.
  apply list_elem_of_singleton in Hj as ->. done.
Qed.

Lemma link_length data idx : (length (Main.link data idx) ≤ 1)%nat.
Proof.
  unfold Main.link. destruct (data !! Z.to_nat idx) as [[| |]|]; simpl; lia.
Qed.

Lemma rem_quot_cell w x y :
  0 ≤ x < w → 0 ≤ y →
  Z.rem (Z.of_nat (Z.to_nat (x + y * w))) w = x ∧
  Z.quot (Z.of_nat (Z.to_nat (x + y * w))) w = y.
Proof.
  intros Hx Hy. rewrite Z2Nat.id by nia.
  rewrite Z.rem_mod_nonneg, Z.quot_div_nonneg by nia.
  rewrite Z.mod_add, Z.div_add by lia.
  rewrite Z.mod_small, Z.div_small by lia. lia.
Qed.

Lemma createNodes_lookup w h data i n :
  Main.createNodes w h data !! i = Some n →
  ∃ d, data !! i = Some d ∧ Main.v n = d ∧
    Main.x n = Z.rem (Z.of_nat i) w ∧ Main.y n = Z.quot (Z.of_nat i) w ∧
    Main.prev n = None ∧ Main.cost n = 0 ∧ Main.token n = 0.
Proof.
  unfold Main.createNodes. rewrite list_lookup_imap.
  destruct (data !! i) as [d|]; [|done]. simpl. intros [= <-]. by exists d.
Qed.

Lemma createNodes_link w h data i n j :
  0 < w → Main.createNodes w h data !! i = Some n → j ∈ Main.nodes n →
  ∃ m, Main.createNodes w h data !! j = Some m ∧ Main.v m = 0 ∧
    (Main.x m - Main.x n, Main.y m - Main.y n) ∈ link_offsets.
Proof.
  intros Hw Hn Hj.
  assert (0 ≤ Z.rem (Z.of_nat i) w < w ∧ 0 ≤ Z.quot (Z.of_nat i) w)
    as [Hx Hy].
  { rewrite Z.rem_mod_nonneg, Z.quot_div_nonneg by lia.
    split; [by apply Z.mod_pos_bound|]. apply Z.div_pos; lia. }
  assert (∀ dx dy,
    0 ≤ Z.rem (Z.of_nat i) w + dx < w → 0 ≤ Z.quot (Z.of_nat i) w + dy →
    j ∈ Main.link data
          (Main.pos_to_idx (Z.rem (Z.of_nat i) w + dx)
             (Z.quot (Z.of_nat i) w + dy) w h) →
    ∃ m, Main.createNodes w h data !! j = Some m ∧ Main.v m = 0 ∧
      Main.x m = Z.rem (Z.of_nat i) w + dx ∧
      Main.y m = Z.quot (Z.of_nat i) w + dy) as Hlink.
  { intros dx dy Hdx Hdy [-> Hd]%link_elem. unfold Main.pos_to_idx in *.
    destruct (rem_quot_cell w _ _ Hdx Hdy) as [Hr Hq].
    unfold Main.createNodes. rewrite list_lookup_imap, Hd. simpl.
    eexists. split; [done|]. simpl. by rewrite Hr, Hq. }
  revert Hn Hj. unfold Main.createNodes at 1. rewrite list_lookup_imap.
  destruct (data !! i) as [d|]; [|done]. simpl. intros [= <-]. simpl.
  unfold Main.idx_to_pos_x, Main.idx_to_pos_y.
  set (x := Z.rem (Z.of_nat i) w) in *. set (y := Z.quot (Z.of_nat i) w) in *.
  assert (∀ dx dy m,
    Main.x m = x + dx → Main.y m = y + dy → (dx, dy) ∈ link_offsets →
    (Main.x m - x, Main.y m - y) ∈ link_offsets) as Hoff.
  { intros dx dy m -> ->. by replace (x + dx - x) with dx by lia;
      replace (y + dy - y) with dy by lia. }
  rewrite !elem_of_app.
  intros [Hj|[Hj|[Hj|Hj]]].
  - destruct (Z.ltb_spec 0 x); [|by apply not_elem_of_nil in Hj].
    replace (x - 1) with (x + -1) in Hj by lia.
    replace y with (y + 0) in Hj at 1 by lia.
    destruct (Hlink (-1) 0) as (m & Hm & Hv & Hmx & Hmy); [lia|lia|done|].
    exists m. do 2 (split; [done|]).
    apply (Hoff (-1) 0 m Hmx Hmy). unfold link_offsets. set_solver.
  - destruct (Z.ltb_spec x (w - 1)); [|by apply not_elem_of_nil in Hj].
    replace y with (y + 0) in Hj at 1 by lia.
    destruct (Hlink 1 0) as (m & Hm & Hv & Hmx & Hmy); [lia|lia|done|].
    exists m. do 2 (split; [done|]).
    apply (Hoff 1 0 m Hmx Hmy). unfold link_offsets. set_solver.
  - destruct (Z.ltb_spec 0 y); [|by apply not_elem_of_nil in Hj].
    apply elem_of_app in Hj as [Hj|Hj].
    + replace (y - 1) with (y + -1) in Hj by lia.
      replace x with (x + 0) in Hj at 1 by lia.
      destruct (Hlink 0 (-1)) as (m & Hm & Hv & Hmx & Hmy); [lia|lia|done|].
      exists m. do 2 (split; [done|]).
      apply (Hoff 0 (-1) m Hmx Hmy). unfold link_offsets. set_solver.
    + destruct (Z.ltb_spec x (w - 1)); [|by apply not_elem_of_nil in Hj].
      replace (y - 1) with (y + -1) in Hj by lia.
      destruct (Hlink 1 (-1)) as (m & Hm & Hv & Hmx & Hmy); [lia|lia|done|].
      exists m. do 2 (split; [done|]).
      apply (Hoff 1 (-1) m Hmx Hmy). unfold link_offsets. set_solver.
  - destruct (Z.ltb_spec y (h - 1)); [|by apply not_elem_of_nil in Hj].
    apply elem_of_app in Hj as [Hj|Hj].
    + replace x with (x + 0) in Hj at 1 by lia.
      destruct (Hlink 0 1) as (m & Hm & Hv & Hmx & Hmy); [lia|lia|done|].
      exists m. do 2 (split; [done|]).
      apply (Hoff 0 1 m Hmx Hmy). unfold link_offsets. set_solver.
    + destruct (Z.ltb_spec x (w - 1)); [|by apply not_elem_of_nil in Hj].
      destruct (Hlink 1 1) as (m & Hm & Hv & Hmx & Hmy); [lia|lia|done|].
      exists m. do 2 (split; [done|]).
      apply (Hoff 1 1 m Hmx Hmy). unfold link_offsets. set_solver.
Qed.

(** X12. [createNodes] makes one node per entry of [data], in the order of
    [data]: node [i] stands for the cell of column [i mod w] and row
    [i / w], carries the entry as [v], and has no [prev], cost 0 and token
    0.  It is linked to at most six nodes, never to itself; every linked
    node has [v = 0] and lies at one of the six offsets left, right, up, up
    right, down, down right. *)
Theorem createNodes_shape w h data :
  0 < w →
  length (Main.createNodes w h data) = length data ∧
  ∀ i n, Main.createNodes w h data !! i = Some n →
    data !! i = Some (Main.v n) ∧
    Main.x n = Z.of_nat i mod w ∧ Main.y n = Z.of_nat i / w ∧
    Main.prev n = None ∧ Main.cost n = 0 ∧ Main.token n = 0 ∧
    (length (Main.nodes n) ≤ 6)%nat ∧
    ∀ j, j ∈ Main.nodes n →
      j ≠ i ∧
      ∃ m, Main.createNodes w h data !! j = Some m ∧ Main.v m = 0 ∧
        (Main.x m - Main.x n, Main.y m - Main.y n) ∈ link_offsets.
Proof.
  intros Hw. split.
  { unfold Main.createNodes. by rewrite length_imap. }
  intros i n Hn.
  destruct (createNodes_lookup _ _ _ _ _ Hn)
    as (d & Hd & Hv & Hx & Hy & Hprev & Hcost & Htoken).
  split; [by rewrite Hv|].
  split; [by rewrite Hx, Z.rem_mod_nonneg by lia|].
  split; [by rewrite Hy, Z.quot_div_nonneg by lia|].
  do 3 (split; [done|]). split.
  - revert Hn. unfold Main.createNodes. rewrite list_lookup_imap, Hd. simpl.
    intros [= <-]. simpl. rewrite !length_app.
    repeat match goal with
    | |- context [if ?b then _ else _] => destruct b
    end; rewrite ?length_app; simpl;
    repeat match goal with
    | |- context [length (Main.link ?d ?i)] =>
        pose proof (link_length d i); generalize dependent (Main.link d i);
        intros
    end; lia.
  - intros j Hj.
    destruct (createNodes_link w h data i n j Hw Hn Hj) as (m & Hm & Hvm & Hoff).
    split; [|by exists m].
    intros ->. assert (m = n) as -> by congruence.
    rewrite !Z.sub_diag in Hoff. unfold link_offsets in Hoff.
    repeat (apply elem_of_cons in Hoff as [[=]|Hoff]).
    by apply not_elem_of_nil in Hoff.
Qed.

Lemma createNodes_shape_witness :
  length graph2 = 4%nat ∧
  ∀ i n, graph2 !! i = Some n → (length (Main.nodes n) ≤ 6)%nat.
Proof.
  destruct (createNodes_shape 2 2 [0; 0; 0; 0]) as [Hlen Hnodes]; [lia|].
  split; [done|]. intros i n Hn.
  by destruct (Hnodes i n Hn) as (_ & _ & _ & _ & _ & _ & Hsix & _).
Defined.

(** X13. The links of [createNodes] are one-way along the diagonals: when a
    node is linked to a node of another column and another row (up right or
    down right of it), that node is not linked back to it. *)
Theorem createNodes_one_way w h data i j n m :
  0 < w →
  Main.createNodes w h data !! i = Some n →
  Main.createNodes w h data !! j = Some m →
  j ∈ Main.nodes n → Main.x m ≠ Main.x n → Main.y m ≠ Main.y n →
  i ∉ Main.nodes m.
Proof.
  intros Hw Hn Hm Hj Hx Hy Hi.
  destruct (createNodes_link w h data i n j Hw Hn Hj) as (m' & Hm' & _ & Hoff).
  assert (m' = m) as -> by congruence.
  destruct (createNodes_link w h data j m i Hw Hm Hi) as (n' & Hn' & _ & Hoff').
  assert (n' = n) as -> by congruence.
  unfold link_offsets in *.
  repeat (apply elem_of_cons in Hoff as [[= Hdx Hdy]|Hoff]);
    try (by apply not_elem_of_nil in Hoff); try lia;
    repeat (apply elem_of_cons in Hoff' as [[= Hdx' Hdy']|Hoff']);
    try (by apply not_elem_of_nil in Hoff'); lia.
Qed.

Lemma createNodes_one_way_witness :
  ∃ n m, graph2 !! 0%nat = Some n ∧ graph2 !! 3%nat = Some m ∧
    3%nat ∈ Main.nodes n ∧ 0%nat ∉ Main.nodes m.
Proof.
  destruct (graph2 !! 0%nat) as [n|] eqn:Hn; [|vm_compute in Hn; done].
  destruct (graph2 !! 3%nat) as [m|] eqn:Hm; [|vm_compute in Hm; done].
  exists n, m. do 2 (split; [done|]).
  assert (3%nat ∈ Main.nodes n) as Hlink.
  { vm_compute in Hn. injection Hn as <-. simpl. set_solver. }
  split; [done|].
  apply (createNodes_one_way 2 2 [0; 0; 0; 0] 0 3 n m); [lia|done|done|done|..].
  - vm_compute in Hn, Hm. injection Hn as <-. injection Hm as <-. done.
  - vm_compute in Hn, Hm. injection Hn as <-. injection Hm as <-. done.
Defined.

(** ** The bucket search *)

Lemma main_getNode_Some g r nd : g !! r = Some nd → Main.getNode g r = Return nd.
Proof. unfold Main.getNode. by intros ->. Qed.

Lemma main_getNode_Return g r nd : Main.getNode g r = Return nd → g !! r = Some nd.
Proof. unfold Main.getNode. by destruct (g !! r); intros [= ->]. Qed.

Lemma pop_Some b r b' : Main.pop b = Some (r, b') ↔ b = b' ++ [r].
Proof.
  unfold Main.pop. destruct (reverse b) as [|r0 rest] eqn:Hrev.
  - apply (f_equal reverse) in Hrev. rewrite reverse_involutive in Hrev.
    subst b. split; [done|]. by destruct b'.
  - apply (f_equal reverse) in Hrev.
    rewrite reverse_involutive, reverse_cons in Hrev. subst b. split.
    + by intros [= -> ->].
    + intros [-> ->]%app_inj_tail. done.
Qed.

Lemma pop_None b : Main.pop b = None ↔ b = [].
Proof.
  unfold Main.pop. destruct (reverse b) as [|r0 rest] eqn:Hrev.
  - apply (f_equal reverse) in Hrev. by rewrite reverse_involutive in Hrev.
  - split; [done|]. intros ->. done.
Qed.

Lemma unstamped_le g : (unstamped g ≤ length g)%nat.
Proof. unfold unstamped. apply length_filter. Qed.

Lemma unstamped_insert g i ni ni' :
  g !! i = Some ni → ¬ stamped ni → stamped ni' →
  (unstamped (<[i := ni']> g) + 1 = unstamped g)%nat.
Proof.
  unfold unstamped, stamped. revert i.
  induction g as [|nd g IH]; intros [|i] Hi Hni Hni'; simpl in *; try done.
  - injection Hi as ->.
    rewrite filter_cons_False by done.
    rewrite filter_cons_True by lia. simpl. lia.
  - specialize (IH i Hi Hni Hni').
    destruct (decide (Main.token nd < Main.search_token)).
    + rewrite !filter_cons_True by done. simpl. lia.
    + rewrite !filter_cons_False by done. done.
Qed.

(** The two ways in which a turn of the loop over the links returns. *)
Lemma visit_Return ex ey base cur g opens i g' opens' :
  Main.visit ex ey base cur (g, opens) i = Return (g', opens') →
  ∃ ni, g !! i = Some ni ∧
    ((stamped ni ∧ g' = g ∧ opens' = opens) ∨
     (¬ stamped ni ∧ ∃ c b,
        let ni' :=
          Main.mkMapNode (Main.nodes ni) (Main.x ni) (Main.y ni) (Main.v ni)
            (Some cur) (Main.cost c + 1) Main.search_token in
        let idx :=
          Main.get_cost (Main.x ni) (Main.y ni) ex ey + (Main.cost c + 1)
          - base in
        g !! cur = Some c ∧ 0 ≤ idx ∧ opens !! Z.to_nat idx = Some b ∧
        g' = <[i := ni']> g ∧ opens' = <[Z.to_nat idx := b ++ [i]]> opens)).
Proof.
  unfold Main.visit.
  destruct (Main.getNode g i) as [ni| |] eqn:Hni; simpl; try done.
  apply main_getNode_Return in Hni. intros Hrun. exists ni. split; [done|].
  destruct (Z.ltb_spec (Main.token ni) Main.search_token) as [Hlt|Hge].
  - right. split; [unfold stamped; lia|].
    destruct (Main.getNode g cur) as [c| |] eqn:Hc; simpl in Hrun; try done.
    apply main_getNode_Return in Hc. exists c.
    unfold Main.bucket in Hrun.
    destruct (Z.ltb_spec
      (Main.get_cost (Main.x ni) (Main.y ni) ex ey + (Main.cost c + 1) - base)
      0) as [Hneg|Hpos]; [done|].
    destruct (opens !! _) as [b|] eqn:Hb; [|done].
    injection Hrun as <- <-. exists b. done.
  - left. injection Hrun as <- <-. split; [unfold stamped; lia|done].
Qed.

Lemma Stamps_cost_nonneg g0 start g r nd :
  Stamps g0 start g → g !! r = Some nd → 0 ≤ Main.cost nd.
Proof.
  intros HS Hr. destruct (decide (stamped nd)) as [Hst|Hst].
  - destruct (stamps_prev _ _ _ HS r nd Hr Hst) as (? & ? & _ & _ & _ & ? & _).
    lia.
  - rewrite (stamps_fresh _ _ _ HS r nd Hr Hst). lia.
Qed.

Lemma Stamps_cost_bound g0 start g r nd :
  Stamps g0 start g → g !! r = Some nd →
  Z.of_nat (unstamped g) + Main.cost nd ≤ Z.of_nat (length g).
Proof.
  intros HS Hr. destruct (decide (stamped nd)) as [Hst|Hst].
  - by destruct (stamps_prev _ _ _ HS r nd Hr Hst)
      as (? & ? & _ & _ & _ & _ & ? & _).
  - rewrite (stamps_fresh _ _ _ HS r nd Hr Hst).
    pose proof (unstamped_le g). lia.
Qed.

(** A visit keeps the invariant, leaves the visited node stamped and the
    stamped nodes as they are. *)
Lemma visit_Mid g0 start cur D ex ey base g opens i g' opens' :
  Mid g0 start cur D g opens →
  (∀ c, g !! cur = Some c → i ∈ Main.nodes c) →
  Main.visit ex ey base cur (g, opens) i = Return (g', opens') →
  Mid g0 start cur D g' opens' ∧
  (∃ ni', g' !! i = Some ni' ∧ stamped ni') ∧
  (∀ r nd, g !! r = Some nd → stamped nd → g' !! r = Some nd).
Proof.
  intros HM Hlink Hrun.
  destruct (visit_Return _ _ _ _ _ _ _ _ _ Hrun)
    as (ni & Hni & [(Hst & -> & ->)|(Hun & c & b & Hc & Hidx & Hb & -> & ->)]).
  { split; [done|]. split; [by exists ni|done]. }
  set (ni' := Main.mkMapNode _ _ _ _ _ _ _).
  set (idx := Z.to_nat _) in *.
  destruct HM as [HS (c' & Hc' & Hcur) Hopen Hclosed Hcovered].
  assert (c' = c) as -> by congruence.
  assert (stamped ni') as Hst' by (unfold stamped; simpl; lia).
  pose proof (lookup_lt_Some _ _ _ Hni) as Hlt.
  assert (<[i := ni']> g !! i = Some ni') as Hi'
    by by apply list_lookup_insert_eq.
  assert (∀ r nd, g !! r = Some nd → stamped nd →
            <[i := ni']> g !! r = Some nd) as Hmono.
  { intros r nd Hr Hnd. rewrite list_lookup_insert_ne; [done|].
    intros ->. assert (nd = ni) as -> by congruence. done. }
  assert (∀ r nd, <[i := ni']> g !! r = Some nd →
            (r = i ∧ nd = ni') ∨ (r ≠ i ∧ g !! r = Some nd)) as Hinv.
  { intros r nd [(-> & -> & _)|[? ?]]%list_lookup_insert_Some; auto. }
  assert (∀ r nd, g !! r = Some nd →
            ∃ nd', <[i := ni']> g !! r = Some nd' ∧
              Main.nodes nd' = Main.nodes nd) as Hnodes.
  { intros r nd Hr. destruct (decide (r = i)) as [->|Hne].
    - exists ni'. split; [done|]. simpl. congruence.
    - exists nd. by rewrite list_lookup_insert_ne. }
  pose proof (unstamped_insert g i ni ni' Hni Hun Hst') as Hcount.
  split; [|split; [by exists ni'|done]].
  split.
  - (* Stamps *)
    destruct HS as [Hstatic Hfresh Hprev]. split.
    + apply Forall2_same_length_lookup in Hstatic as [Hlen Hstatic].
      apply Forall2_same_length_lookup_2; [by rewrite length_insert|].
      intros r n0 nd Hn0 [[-> ->]|[_ Hr]]%Hinv; [|by eapply Hstatic].
      simpl. by apply (Hstatic i).
    + intros r nd [[-> ->]|[_ Hr]]%Hinv Hnd; [done|]. by eapply Hfresh.
    + intros r nd [[-> ->]|[Hne Hr]]%Hinv Hnd.
      * destruct (Hnodes cur c Hc) as (c1 & Hc1 & Hn1).
        exists cur, c1. split; [done|]. split; [done|].
        split; [rewrite Hn1; by apply Hlink|].
        pose proof (Stamps_cost_nonneg g0 start g cur c
                      (Build_Stamps _ _ _ Hstatic Hfresh Hprev) Hc).
        pose proof (Stamps_cost_bound g0 start g cur c
                      (Build_Stamps _ _ _ Hstatic Hfresh Hprev) Hc).
        simpl. rewrite length_insert. split; [lia|]. split; [lia|].
        intros Hne. destruct Hcur as [Hcur|Hcur]; [|done].
        rewrite (Hmono cur c Hc Hcur) in Hc1. by injection Hc1 as <-.
      * destruct (Hprev r nd Hr Hnd)
          as (p & np & Hp & Hnp & Hin & Hcost & Hbound & Hstep).
        destruct (Hnodes p np Hnp) as (np' & Hnp' & Hn').
        exists p, np'. split; [done|]. split; [done|].
        split; [by rewrite Hn'|]. split; [done|].
        rewrite length_insert. split; [lia|].
        intros Hps. destruct (Hstep Hps) as [Hstp ->].
        rewrite (Hmono p np Hnp Hstp) in Hnp'. by injection Hnp' as <-.
  - (* cur *)
    destruct (decide (cur = i)) as [->|Hne].
    + exists ni'. split; [done|by left].
    + exists c. split; [by rewrite list_lookup_insert_ne|done].
  - (* open *)
    intros b' r Hb' Hr.
    apply list_elem_of_lookup in Hb' as [j Hj].
    apply list_lookup_insert_Some in Hj as [(<- & <- & _)|[_ Hj]].
    + apply elem_of_app in Hr as [Hr|Hr%list_elem_of_singleton].
      * destruct (Hopen b r) as (nd & Hnd & Hst);
          [by eapply list_elem_of_lookup_2|done|].
        exists nd. split; [by apply Hmono|done].
      * subst r. by exists ni'.
    + destruct (Hopen b' r) as (nd & Hnd & Hst);
        [by eapply list_elem_of_lookup_2|done|].
      exists nd. split; [by apply Hmono|done].
  - (* closed *)
    intros r nd0 j Hr Hnd0 Hj.
    destruct (Hclosed r nd0 j Hr Hnd0 Hj) as (nj & Hnj & Hstj).
    exists nj. split; [by apply Hmono|done].
  - (* covered *)
    intros r nd [[-> ->]|[Hne Hr]]%Hinv Hnd.
    + right. right. exists (b ++ [i]). split.
      * apply (list_elem_of_lookup_2 _ idx).
        apply list_lookup_insert_eq. by eapply lookup_lt_Some.
      * apply elem_of_app. right. by apply list_elem_of_singleton.
    + destruct (Hcovered r nd Hr Hnd) as [?|[?|(b' & Hb' & Hrb)]]; auto.
      right. right. apply list_elem_of_lookup in Hb' as [j Hj].
      destruct (decide (j = idx)) as [->|Hji].
      * exists (b ++ [i]). split.
        -- apply (list_elem_of_lookup_2 _ idx).
           apply list_lookup_insert_eq. by eapply lookup_lt_Some.
        -- apply elem_of_app. left. congruence.
      * exists b'. split; [|done]. apply (list_elem_of_lookup_2 _ j).
        by rewrite list_lookup_insert_ne.
Qed.

Lemma Stamps_nodes g0 start g r nd :
  Stamps g0 start g → g !! r = Some nd →
  ∃ nd0, g0 !! r = Some nd0 ∧ Main.nodes nd = Main.nodes nd0 ∧
    Main.x nd = Main.x nd0 ∧ Main.y nd = Main.y nd0.
Proof.
  intros HS Hr.
  destruct (Forall2_lookup_r _ _ _ _ _ (stamps_static _ _ _ HS) Hr)
    as (nd0 & Hnd0 & ?). by exists nd0.
Qed.

Lemma Stamps_length g0 start g : Stamps g0 start g → length g = length g0.
Proof. intros HS. symmetry. apply (Forall2_length _ _ _ (stamps_static _ _ _ HS)). Qed.

Lemma forEach_cons {S V} (body : S → V → outcome S) v l s :
  forEach body (v :: l) s = s' ← body s v; forEach body l s'.
Proof. done. Qed.

Lemma visit_all_Mid g0 start cur c0 D ex ey base L : ∀ g opens g' opens',
  Mid g0 start cur D g opens →
  g0 !! cur = Some c0 → (∀ i, i ∈ L → i ∈ Main.nodes c0) →
  forEach (Main.visit ex ey base cur) L (g, opens) = Return (g', opens') →
  Mid g0 start cur D g' opens' ∧
  (∀ j, j ∈ L → ∃ nj, g' !! j = Some nj ∧ stamped nj) ∧
  (∀ r nd, g !! r = Some nd → stamped nd → g' !! r = Some nd).
Proof.
  induction L as [|i L IH]; intros g opens g' opens' HM Hc0 HL Hrun.
  { simpl in Hrun. injection Hrun as <- <-. split; [done|]. split; [|done].
    intros j Hj. by apply not_elem_of_nil in Hj. }
  rewrite forEach_cons in Hrun.
  destruct (Main.visit ex ey base cur (g, opens) i) as [[g1 o1]| |] eqn:Hv;
    try done.
  change (forEach (Main.visit ex ey base cur) L (g1, o1)
          = Return (g', opens')) in Hrun.
  assert (∀ c, g !! cur = Some c → i ∈ Main.nodes c) as Hlink.
  { intros c Hc.
    destruct (Stamps_nodes _ _ _ _ _ (mid_stamps _ _ _ _ _ _ HM) Hc)
      as (c0' & Hc0' & -> & _).
    assert (c0' = c0) as -> by congruence. apply HL. by left. }
  destruct (visit_Mid g0 start cur D ex ey base g opens i g1 o1 HM Hlink Hv)
    as (HM1 & (ni' & Hni' & Hst') & Hmono1).
  destruct (IH g1 o1 g' opens' HM1 Hc0) as (HM' & Hdone & Hmono); [|done|].
  { intros j Hj. apply HL. by right. }
  split; [done|]. split.
  - intros j [->|Hj]%elem_of_cons; [|by apply Hdone].
    exists ni'. split; [by apply Hmono|done].
  - intros r nd Hr Hnd. apply Hmono; [|done]. by apply Hmono1.
Qed.

Lemma link_path_snoc g l a b :
  link_path g (l ++ [a]) → linked g a b → link_path g (l ++ [a; b]).
Proof.
  induction l as [|x l IH]; simpl; [done|].
  destruct l as [|y l]; simpl in *.
  - intros [? _] ?. done.
  - intros [? ?] ?. split; [done|]. by apply IH.
Qed.

Lemma walk_prev_S fuel g start cur path :
  Main.walk_prev (S fuel) g start cur path =
  c ← Main.getNode g cur;
  match Main.prev c with
  | Some p =>
      if bool_decide (p ≠ start)
      then Main.walk_prev fuel g start p (path ++ [p])
      else Return path
  | None => Return path
  end.
Proof. done. Qed.

(** The loop that collects the path follows [prev] up to the node that
    [start] stamped. *)
Lemma walk_prev_trail g0 start g :
  Stamps g0 start g →
  ∀ fuel cur nd acc path,
    g !! cur = Some nd → stamped nd →
    Main.walk_prev fuel g start cur acc = Return path →
    ∃ l, path = acc ++ l ∧ trail g start cur l.
Proof.
  intros HS. induction fuel as [|fuel IH]; intros cur nd acc path Hcur Hnd Hrun;
    [done|].
  rewrite walk_prev_S, (main_getNode_Some _ _ _ Hcur) in Hrun. simpl in Hrun.
  destruct (stamps_prev _ _ _ HS cur nd Hcur Hnd)
    as (p & np & Hp & Hnp & _ & _ & _ & Hstep).
  rewrite Hp in Hrun. destruct (decide (p = start)) as [->|Hne].
  - rewrite bool_decide_eq_false_2 in Hrun by naive_solver.
    injection Hrun as <-. exists []. rewrite app_nil_r. split; [done|].
    by eapply trail_last.
  - rewrite bool_decide_eq_true_2 in Hrun by done.
    destruct (Hstep Hne) as [Hstp _].
    destruct (IH p np _ _ Hnp Hstp Hrun) as (l & -> & Hl).
    exists (p :: l). rewrite <-app_assoc. split; [done|].
    by eapply trail_more.
Qed.

Lemma walk_prev_total g0 start g :
  Stamps g0 start g →
  ∀ fuel cur nd acc,
    g !! cur = Some nd → stamped nd → Main.cost nd ≤ Z.of_nat fuel →
    ∃ path, Main.walk_prev fuel g start cur acc = Return path.
Proof.
  intros HS. induction fuel as [|fuel IH]; intros cur nd acc Hcur Hnd Hfuel;
    destruct (stamps_prev _ _ _ HS cur nd Hcur Hnd)
      as (p & np & Hp & Hnp & _ & Hcost & _ & Hstep); [lia|].
  rewrite walk_prev_S, (main_getNode_Some _ _ _ Hcur). simpl. rewrite Hp.
  destruct (decide (p = start)) as [->|Hne].
  - rewrite bool_decide_eq_false_2 by naive_solver. by eexists.
  - rewrite bool_decide_eq_true_2 by done.
    destruct (Hstep Hne) as [Hstp Heq].
    apply (IH p np _ Hnp Hstp). lia.
Qed.

Lemma trail_spec g0 start g cur l :
  Stamps g0 start g → trail g start cur l →
  ∀ nd, g !! cur = Some nd → stamped nd →
  link_path g0 (start :: reverse (cur :: l)) ∧ (start ∉ l) ∧
  Forall (λ r, ∃ nr, g !! r = Some nr ∧ Main.cost nr < Main.cost nd) l ∧
  NoDup (cur :: l).
Proof.
  intros HS. induction 1 as [cur nd' Hcur Hprev|cur nd' p l Hcur Hprev Hne Ht IH];
    intros nd Hnd Hst; assert (nd' = nd) as -> by congruence;
    destruct (stamps_prev _ _ _ HS cur nd Hnd Hst)
      as (p' & np & Hp & Hnp & Hin & Hcost & _ & Hstep);
    assert (linked g0 p' cur) as Hlinked.
  1,3: destruct (Stamps_nodes _ _ _ _ _ HS Hnp) as (np0 & Hnp0 & Hnodes & _);
       destruct (Stamps_nodes _ _ _ _ _ HS Hnd) as (nd0 & Hnd0 & _);
       exists np0; split; [done|]; split; [by rewrite <-Hnodes|by eexists].
  - assert (p' = start) as -> by congruence.
    split; [done|]. split; [apply not_elem_of_nil|].
    split; [constructor|]. apply NoDup_singleton.
  - assert (p' = p) as -> by congruence.
    destruct (Hstep Hne) as [Hstp Heq].
    destruct (IH np Hnp Hstp) as (Hpath & Hstart & Hless & Hnodup).
    split.
    { rewrite reverse_cons in Hpath. rewrite !reverse_cons, <-app_assoc.
      rewrite app_comm_cons in *. by apply link_path_snoc. }
    split.
    { intros [?|?]%elem_of_cons; [congruence|done]. }
    assert (Forall (λ r, ∃ nr, g !! r = Some nr ∧ Main.cost nr < Main.cost nd)
              (p :: l)) as Hall.
    { constructor; [exists np; split; [done|lia]|].
      eapply Forall_impl; [exact Hless|].
      intros r (nr & Hnr & Hlt). exists nr. split; [done|lia]. }
    split; [done|]. apply NoDup_cons. split; [|done].
    intros Hin'. rewrite Forall_forall in Hall.
    destruct (Hall cur Hin') as (nr & Hnr & Hlt).
    assert (nr = nd) as -> by congruence. lia.
Qed.

Lemma search_loop_S fuel g opens base start end_ ex ey :
  Main.search_loop (S fuel) g opens base start end_ ex ey =
  e ← Main.all_empty opens;
  if e : bool then Return None
  else
    match opens with
    | [] => Throw TypeError
    | b0 :: others =>
        match Main.pop b0 with
        | Some (cur, b0') =>
            if bool_decide (cur = end_) then
              path ← Main.walk_prev (length g) g start cur [cur];
              Return (Some path)
            else
              c ← Main.getNode g cur;
              s ← forEach (Main.visit ex ey base cur) (Main.nodes c)
                    (g, b0' :: others);
              Main.search_loop fuel s.1 s.2 base start end_ ex ey
        | None =>
            Main.search_loop fuel g (others ++ [[]]) (base + 1)
              start end_ ex ey
        end
    end.
Proof. done. Qed.

Lemma all_empty_Return opens e :
  Main.all_empty opens = Return e →
  ∃ b0 b1 b2 b3, opens = [b0; b1; b2; b3] ∧
    (e = true ↔ b0 = [] ∧ b1 = [] ∧ b2 = [] ∧ b3 = []).
Proof.
  unfold Main.all_empty.
  destruct opens as [|b0 [|b1 [|b2 [|b3 [|]]]]]; try done.
  intros [= <-]. exists b0, b1, b2, b3. split; [done|].
  rewrite !andb_true_iff, !bool_decide_eq_true. naive_solver.
Qed.

Lemma Frontier_pop g0 start end_ D g b0' cur others :
  Frontier g0 start end_ D g ((b0' ++ [cur]) :: others) →
  ∃ c, g !! cur = Some c ∧ stamped c ∧ Mid g0 start cur D g (b0' :: others).
Proof.
  intros [HS Hopen Hstart Hend Hclosed Hcovered].
  destruct (Hopen (b0' ++ [cur]) cur) as (c & Hc & Hst); [by left|set_solver|].
  exists c. do 2 (split; [done|]). split; [done|by exists c; auto| |done|].
  - intros b r Hb Hr. apply (Hopen (if decide (b = b0') then b0' ++ [cur] else b)).
    + apply elem_of_cons in Hb as [->|Hb].
      * rewrite decide_True by done. by left.
      * destruct (decide (b = b0')) as [->|_]; [|by right]. by left.
    + destruct (decide (b = b0')); [|done]. set_solver.
  - intros r nd Hr Hnd.
    destruct (Hcovered r nd Hr Hnd) as [?|(b & Hb & Hrb)]; [by left|].
    apply elem_of_cons in Hb as [->|Hb].
    + apply elem_of_app in Hrb as [?| ->%list_elem_of_singleton]; [|by auto].
      right. right. exists b0'. split; [by left|done].
    + right. right. exists b. split; [by right|done].
Qed.

Lemma Mid_done g0 start end_ cur c0 D g opens :
  Mid g0 start cur D g opens → g0 !! cur = Some c0 →
  (∀ j, j ∈ Main.nodes c0 → ∃ nj, g !! j = Some nj ∧ stamped nj) →
  cur ≠ end_ → end_ ∉ D → start ∈ D ∨ cur = start →
  Frontier g0 start end_ (D ∪ {[cur]}) g opens.
Proof.
  intros [HS Hcur Hopen Hclosed Hcovered] Hc0 Hdone Hne Hend Hstart.
  split; [done|done|set_solver|set_solver|..].
  - intros r nd0 j [Hr| ->%elem_of_singleton]%elem_of_union Hnd0 Hj.
    + by eapply Hclosed.
    + assert (nd0 = c0) as -> by congruence. by apply Hdone.
  - intros r nd Hr Hnd.
    destruct (Hcovered r nd Hr Hnd) as [?|[ ->|?]]; [left|left|by right];
      set_solver.
Qed.

Lemma Frontier_rotate g0 start end_ D g others :
  Frontier g0 start end_ D g ([] :: others) →
  Frontier g0 start end_ D g (others ++ [[]]).
Proof.
  intros [HS Hopen Hstart Hend Hclosed Hcovered].
  split; [done| |done|done|done|].
  - intros b r [Hb| ->%list_elem_of_singleton]%elem_of_app Hr.
    + apply (Hopen b r); [by right|done].
    + by apply not_elem_of_nil in Hr.
  - intros r nd Hr Hnd.
    destruct (Hcovered r nd Hr Hnd) as [?|(b & Hb & Hrb)]; [by left|].
    right. exists b. split; [|done].
    apply elem_of_cons in Hb as [->|Hb]; [by apply not_elem_of_nil in Hrb|].
    apply elem_of_app. by left.
Qed.

Lemma Frontier_exhausted g0 start end_ D g :
  Frontier g0 start end_ D g [[]; []; []; []] →
  ¬ rtc (linked g0) start end_.
Proof.
  intros [HS Hopen Hstart Hend Hclosed Hcovered] Hreach.
  assert (∀ x, rtc (linked g0) start x → x ∈ D) as Hall.
  { apply (rtc_ind_r (λ x, x ∈ D)); [done|]. intros x y Hx Hxy IH.
    destruct Hxy as (n & Hn & Hy & _).
    destruct (Hclosed x n y IH Hn Hy) as (ny & Hny & Hst).
    destruct (Hcovered y ny Hny Hst) as [?|(b & Hb & Hyb)]; [done|].
    repeat (apply elem_of_cons in Hb as [->|Hb];
            [by apply not_elem_of_nil in Hyb|]).
    by apply not_elem_of_nil in Hb. }
  by apply Hend, Hall.
Qed.

(** The loop of [search], from the second turn on. *)
Lemma search_loop_spec g0 start end_ ex ey :
  start ≠ end_ →
  ∀ fuel g opens base D res,
    Frontier g0 start end_ D g opens →
    Main.search_loop fuel g opens base start end_ ex ey = Return res →
    match res with
    | Some path =>
        head path = Some end_ ∧ (start ∉ path) ∧ NoDup path ∧
        link_path g0 (start :: reverse path)
    | None => ¬ rtc (linked g0) start end_
    end.
Proof.
  intros Hne. induction fuel as [|fuel IH]; intros g opens base D res HF Hrun;
    [done|].
  rewrite search_loop_S in Hrun.
  destruct (Main.all_empty opens) as [e| |] eqn:He; try done.
  destruct (all_empty_Return _ _ He) as (b0 & b1 & b2 & b3 & -> & Hempty).
  simpl in Hrun. destruct e.
  { injection Hrun as <-.
    destruct Hempty as [(-> & -> & -> & ->) _]; [done|].
    by eapply Frontier_exhausted. }
  destruct (Main.pop b0) as [[cur b0']|] eqn:Hpop.
  - apply pop_Some in Hpop as ->.
    destruct (Frontier_pop _ _ _ _ _ _ _ _ HF) as (c & Hc & Hst & HM).
    destruct (decide (cur = end_)) as [->|Hcur].
    + rewrite bool_decide_eq_true_2 in Hrun by done.
      destruct (Main.walk_prev _ _ _ _ _) as [path| |] eqn:Hwalk; try done.
      simpl in Hrun. injection Hrun as <-.
      pose proof (frontier_stamps _ _ _ _ _ _ HF) as HS.
      destruct (walk_prev_trail _ _ _ HS _ _ _ _ _ Hc Hst Hwalk)
        as (l & -> & Hl).
      destruct (trail_spec _ _ _ _ _ HS Hl c Hc Hst)
        as (Hpath & Hstart & _ & Hnodup).
      split; [done|]. split; [|done].
      intros [?|?]%elem_of_cons; [congruence|done].
    + rewrite bool_decide_eq_false_2 in Hrun by done.
      rewrite (main_getNode_Some _ _ _ Hc) in Hrun. simpl in Hrun.
      destruct (forEach _ _ _) as [[g' opens']| |] eqn:Hall; try done.
      simpl in Hrun.
      destruct (Stamps_nodes _ _ _ _ _ (mid_stamps _ _ _ _ _ _ HM) Hc)
        as (c0 & Hc0 & Hnodes & _).
      assert (∀ i, i ∈ Main.nodes c → i ∈ Main.nodes c0) as Hsub
        by (intros i; by rewrite Hnodes).
      destruct (visit_all_Mid g0 start cur c0 D ex ey base (Main.nodes c)
                  g [b0'; b1; b2; b3] g' opens' HM Hc0 Hsub Hall)
        as (HM' & Hdone & _).
      apply (IH g' opens' base (D ∪ {[cur]}) res); [|done].
      apply (Mid_done _ _ _ _ c0); [done|done| |done|..].
      * intros j Hj. apply Hdone. by rewrite Hnodes.
      * by apply (frontier_end _ _ _ _ _ _ HF).
      * left. by apply (frontier_start _ _ _ _ _ _ HF).
  - apply pop_None in Hpop as ->.
    apply (IH g ([b1; b2; b3] ++ [[]]) (base + 1) D res); [|done].
    by apply Frontier_rotate.
Qed.

Lemma fresh_Stamps graph start : fresh graph → Stamps graph start graph.
Proof.
  intros Hfresh. split.
  - apply Forall2_same_length_lookup_2; [done|].
    intros i n0 n Hn0 Hn. by assert (n = n0) as -> by congruence.
  - intros r nd Hr _. by destruct (Hfresh r nd Hr) as (_ & _ & ?).
  - intros r nd Hr Hst. destruct (Hfresh r nd Hr) as (Ht & _).
    unfold stamped, Main.search_token in Hst. lia.
Qed.

Lemma fresh_Mid graph start s :
  fresh graph → graph !! start = Some s →
  Mid graph start start ∅ graph [[]; []; []; []].
Proof.
  intros Hfresh Hs. split.
  - by apply fresh_Stamps.
  - exists s. auto.
  - intros b r Hb Hr.
    repeat (apply elem_of_cons in Hb as [->|Hb];
            [by apply not_elem_of_nil in Hr|]).
    by apply not_elem_of_nil in Hb.
  - intros r nd0 j Hr. by apply not_elem_of_empty in Hr.
  - intros r nd Hr Hst. destruct (Hfresh r nd Hr) as (Ht & _).
    unfold stamped, Main.search_token in Hst. lia.
Qed.

(** What [search] returns on a graph of new nodes. *)
Lemma search_spec fuel graph start end_ res :
  fresh graph → Main.search fuel graph start end_ = Return res →
  (start = end_ ∧ res = Some [start]) ∨
  (start ≠ end_ ∧
   match res with
   | Some path =>
       head path = Some end_ ∧ (start ∉ path) ∧ NoDup path ∧
       link_path graph (start :: reverse path)
   | None => ¬ rtc (linked graph) start end_
   end).
Proof.
  intros Hfresh. unfold Main.search.
  destruct (Main.getNode graph start) as [s| |] eqn:Hs; try done.
  destruct (Main.getNode graph end_) as [e| |] eqn:He; try done.
  apply main_getNode_Return in Hs, He. simpl.
  destruct fuel as [|fuel]; [done|]. rewrite search_loop_S. simpl.
  change (Main.pop [start]) with (Some (start, @nil nat)). simpl.
  destruct (decide (start = end_)) as [<-|Hne].
  - rewrite bool_decide_eq_true_2 by done. intros Hrun. left. split; [done|].
    destruct (length graph) as [|n] eqn:Hlen.
    { apply lookup_lt_Some in Hs. lia. }
    rewrite walk_prev_S, (main_getNode_Some _ _ _ Hs) in Hrun. simpl in Hrun.
    destruct (Hfresh start s Hs) as (_ & Hprev & _). rewrite Hprev in Hrun.
    simpl in Hrun. by injection Hrun as <-.
  - rewrite bool_decide_eq_false_2 by done.
    rewrite (main_getNode_Some _ _ _ Hs). simpl. intros Hrun. right.
    split; [done|].
    destruct (forEach _ _ _) as [[g' opens']| |] eqn:Hall; try done.
    simpl in Hrun.
    destruct (visit_all_Mid graph start start s ∅ _ _ _ (Main.nodes s)
                graph [[]; []; []; []] g' opens'
                (fresh_Mid graph start s Hfresh Hs) Hs (λ i Hi, Hi) Hall)
      as (HM' & Hdone & _).
    apply (search_loop_spec graph start end_ (Main.x e) (Main.y e) Hne fuel
             g' opens'
             (Main.get_cost (Main.x s) (Main.y s) (Main.x e) (Main.y e))
             (∅ ∪ {[start]}) res); [|done].
    apply (Mid_done _ _ _ _ s); [done|done|done|done|set_solver|by right].
Qed.

Lemma link_path_rtc g l : ∀ a b,
  link_path g (a :: l) → last (a :: l) = Some b → rtc (linked g) a b.
Proof.
  induction l as [|x l IH]; intros a b Hpath Hlast.
  - simpl in Hlast. injection Hlast as ->. done.
  - destruct Hpath as [Hax Hpath].
    apply (rtc_l _ _ x); [done|]. by apply IH.
Qed.

Lemma createNodes_fresh w h data : fresh (Main.createNodes w h data).
Proof.
  intros r nd Hr.
  by destruct (createNodes_lookup _ _ _ _ _ Hr) as (_ & _ & _ & _ & _ & ? & ? & ?).
Qed.

(** X14. On a graph of new nodes, a path that [search] returns for
    [start ≠ end] begins with [end], holds no node twice and does not hold
    [start]; read backwards and with [start] put in front, it follows the
    links of the graph from [start] to [end]. *)
Theorem search_path_links fuel graph start end_ path :
  fresh graph → start ≠ end_ →
  Main.search fuel graph start end_ = Return (Some path) →
  head path = Some end_ ∧ (start ∉ path) ∧ NoDup path ∧
  link_path graph (start :: reverse path).
Proof.
  intros Hfresh Hne Hrun.
  by destruct (search_spec fuel graph start end_ (Some path) Hfresh Hrun)
    as [[? _]|[_ ?]].
Qed.

Lemma search_path_links_witness :
  Main.search 10%nat graph2 3%nat 0%nat = Return (Some [0; 1]%nat) ∧
  link_path graph2 [3; 1; 0]%nat.
Proof.
  split; [vm_compute; reflexivity|].
  apply (search_path_links 10%nat graph2 3%nat 0%nat [0; 1]%nat).
  - apply createNodes_fresh.
  - done.
  - vm_compute. reflexivity.
Defined.

(** X15. On a graph of new nodes, a call of [search] that returns returns
    [null] exactly when the links of the graph do not lead from [start] to
    [end]. *)
Theorem search_null_iff_unreachable fuel graph start end_ res :
  fresh graph → Main.search fuel graph start end_ = Return res →
  res = None ↔ ¬ rtc (linked graph) start end_.
Proof.
  intros Hfresh Hrun.
  destruct (search_spec fuel graph start end_ res Hfresh Hrun)
    as [[-> ->]|[Hne Hres]].
  { split; [done|]. intros Hno. by destruct Hno. }
  destruct res as [path|]; [|done].
  split; [done|]. intros Hno. destruct Hno.
  destruct Hres as (Hhead & _ & _ & Hpath).
  apply (link_path_rtc graph (reverse path)); [done|].
  destruct path as [|e l]; [done|]. injection Hhead as ->.
  rewrite reverse_cons, app_comm_cons. by rewrite last_snoc.
Qed.

Lemma search_null_iff_unreachable_witness :
  Main.search 10%nat graph2 3%nat 0%nat = Return (Some [0; 1]%nat) ∧
  (Some [0; 1]%nat = None ↔ ¬ rtc (linked graph2) 3%nat 0%nat).
Proof.
  split; [vm_compute; reflexivity|].
  apply (search_null_iff_unreachable 10%nat graph2 3%nat 0%nat).
  - apply createNodes_fresh.
  - vm_compute. reflexivity.
Defined.

Lemma search_same_node fuel graph start :
  fresh graph → is_Some (graph !! start) →
  Main.search (S fuel) graph start start = Return (Some [start]).
Proof.
  intros Hfresh [s Hs]. unfold Main.search.
  rewrite (main_getNode_Some _ _ _ Hs). simpl.
  rewrite bool_decide_eq_true_2 by done.
  destruct (length graph) as [|n] eqn:Hlen.
  { apply lookup_lt_Some in Hs. lia. }
  rewrite walk_prev_S, (main_getNode_Some _ _ _ Hs). simpl.
  by destruct (Hfresh start s Hs) as (_ & -> & _).
Qed.

(** X16. When [start] and [end] are the same node of a graph of new nodes,
    [search] returns the path that holds this node alone, so the path holds
    [start], which no path between two different nodes does. *)
Theorem search_start_is_end fuel graph start :
  fresh graph → is_Some (graph !! start) →
  Main.search (S fuel) graph start start = Return (Some [start]).
Proof. apply search_same_node. Qed.

Lemma search_start_is_end_witness :
  Main.search 1%nat graph2 1%nat 1%nat = Return (Some [1%nat]).
Proof.
  apply (search_start_is_end 0%nat graph2 1%nat).
  - apply createNodes_fresh.
  - by eexists.
Defined.

(** *** The search returns *)

Lemma weight_insert opens : ∀ k j b i,
  opens !! j = Some b →
  (weight k (<[j := b ++ [i]]> opens) = weight k opens + (k + j))%nat.
Proof.
  induction opens as [|b0 opens IH]; intros k [|j] b i Hj; simpl in *;
    try done.
  - injection Hj as ->. rewrite length_app. simpl. lia.
  - rewrite (IH (S k) j b i Hj). lia.
Qed.

Lemma weight_S opens : ∀ k,
  (weight (S k) opens = weight k opens + length (concat opens))%nat.
Proof.
  induction opens as [|b opens IH]; intros k; simpl; [done|].
  rewrite IH, length_app. lia.
Qed.

Lemma weight_snoc_nil opens : ∀ k, weight k (opens ++ [[]]) = weight k opens.
Proof.
  induction opens as [|b opens IH]; intros k; simpl; [lia|].
  by rewrite IH.
Qed.

(** A visit of a link that raises the estimate by at most 2 finds its
    bucket unless the link lowers the estimate by 2, in which case the index
    of the bucket is -1; when it finds the bucket it keeps the buckets
    sorted by estimate plus cost and does not raise the measure. *)
Lemma visit_step (strict : Prop) g0 start cur D ex ey base g opens i c ni :
  Mid g0 start cur D g opens → Buckets g opens base ex ey →
  g !! cur = Some c →
  Main.get_cost (Main.x c) (Main.y c) ex ey + Main.cost c = base →
  i ≠ cur → g !! i = Some ni →
  Main.get_cost (Main.x ni) (Main.y ni) ex ey
  - Main.get_cost (Main.x c) (Main.y c) ex ey ≤ 2 →
  (strict →
   -1 ≤ Main.get_cost (Main.x ni) (Main.y ni) ex ey
        - Main.get_cost (Main.x c) (Main.y c) ex ey) →
  (¬ strict ∧ Main.visit ex ey base cur (g, opens) i = Throw TypeError) ∨
  ∃ g' opens',
    Main.visit ex ey base cur (g, opens) i = Return (g', opens') ∧
    Buckets g' opens' base ex ey ∧ g' !! cur = Some c ∧
    (potential g' opens' ≤ potential g opens)%nat.
Proof.
  intros HM [Hlen HB] Hc Hf Hne Hni Hstep Hlow. unfold Main.visit.
  rewrite (main_getNode_Some _ _ _ Hni). simpl.
  destruct (Z.ltb_spec (Main.token ni) Main.search_token) as [Hlt|Hge].
  2:{ right. exists g, opens. done. }
  rewrite (main_getNode_Some _ _ _ Hc). simpl.
  set (idx := Main.get_cost (Main.x ni) (Main.y ni) ex ey
              + (Main.cost c + 1) - base).
  assert (idx ≤ 3) as Hidx by (unfold idx; lia).
  unfold Main.bucket. destruct (Z.ltb_spec idx 0) as [Hneg|Hpos].
  { left. split; [|done]. intros Hstrict. specialize (Hlow Hstrict).
    unfold idx in Hneg. lia. }
  right.
  destruct (lookup_lt_is_Some_2 opens (Z.to_nat idx)) as [b Hb]; [lia|].
  rewrite Hb. set (ni' := Main.mkMapNode _ _ _ _ _ _ _).
  exists (<[i := ni']> g), (<[Z.to_nat idx := b ++ [i]]> opens).
  split; [done|].
  assert (stamped ni') as Hst' by (unfold stamped; simpl; lia).
  assert (¬ stamped ni) as Hun by (unfold stamped; lia).
  pose proof (lookup_lt_Some _ _ _ Hni) as Hlt'.
  split; [|split].
  - split; [by rewrite length_insert|].
    intros j b' r nd Hj Hr Hnd.
    assert (r ≠ i → g !! r = Some nd) as Hold.
    { intros Hri. by rewrite list_lookup_insert_ne in Hnd. }
    assert (r = i → nd = ni') as Hnew.
    { intros ->. rewrite list_lookup_insert_eq in Hnd by done. congruence. }
    assert (∀ b0, opens !! j = Some b0 → r ∈ b0 →
              Main.get_cost (Main.x nd) (Main.y nd) ex ey + Main.cost nd
              = base + Z.of_nat j) as Hkeep.
    { intros b0 Hb0 Hr0. apply (HB j b0 r nd Hb0 Hr0), Hold. intros ->.
      destruct (mid_open _ _ _ _ _ _ HM b0 i) as (nd' & Hnd' & Hstd);
        [by eapply list_elem_of_lookup_2|done|].
      by assert (nd' = ni) as -> by congruence. }
    apply list_lookup_insert_Some in Hj as [(<- & <- & _)|[_ Hj]];
      [|by eapply Hkeep].
    apply elem_of_app in Hr as [Hr|Hr%list_elem_of_singleton];
      [by eapply Hkeep|].
    rewrite (Hnew Hr). simpl. unfold idx. lia.
  - by rewrite list_lookup_insert_ne.
  - unfold potential.
    pose proof (unstamped_insert g i ni ni' Hni Hun Hst').
    rewrite (weight_insert opens 1 (Z.to_nat idx) b i Hb). lia.
Qed.

Lemma Stamps_lookup g0 start g r nd0 :
  Stamps g0 start g → g0 !! r = Some nd0 →
  ∃ nd, g !! r = Some nd ∧ Main.nodes nd = Main.nodes nd0 ∧
    Main.x nd = Main.x nd0 ∧ Main.y nd = Main.y nd0.
Proof.
  intros HS Hr.
  destruct (Forall2_lookup_l _ _ _ _ _ (stamps_static _ _ _ HS) Hr)
    as (nd & Hnd & ?). by exists nd.
Qed.

Lemma visit_all_step (strict : Prop) g0 start cur c c0 D ex ey base L :
  ∀ g opens,
  Mid g0 start cur D g opens → Buckets g opens base ex ey →
  g !! cur = Some c →
  Main.get_cost (Main.x c) (Main.y c) ex ey + Main.cost c = base →
  g0 !! cur = Some c0 →
  (∀ i, i ∈ L →
     i ∈ Main.nodes c0 ∧ i ≠ cur ∧
     ∃ n0, g0 !! i = Some n0 ∧
       Main.get_cost (Main.x n0) (Main.y n0) ex ey
       - Main.get_cost (Main.x c0) (Main.y c0) ex ey ≤ 2 ∧
       (strict →
        -1 ≤ Main.get_cost (Main.x n0) (Main.y n0) ex ey
             - Main.get_cost (Main.x c0) (Main.y c0) ex ey)) →
  (¬ strict ∧
   forEach (Main.visit ex ey base cur) L (g, opens) = Throw TypeError) ∨
  ∃ g' opens',
    forEach (Main.visit ex ey base cur) L (g, opens) = Return (g', opens') ∧
    Buckets g' opens' base ex ey ∧
    (potential g' opens' ≤ potential g opens)%nat.
Proof.
  induction L as [|i L IH]; intros g opens HM HB Hc Hf Hc0 HL.
  { right. exists g, opens. done. }
  destruct (HL i) as (Hin & Hne & n0 & Hn0 & Hstep & Hlow); [by left|].
  pose proof (mid_stamps _ _ _ _ _ _ HM) as HS.
  destruct (Stamps_lookup _ _ _ _ _ HS Hn0) as (ni & Hni & _ & Hx & Hy).
  destruct (Stamps_nodes _ _ _ _ _ HS Hc) as (c0' & Hc0' & Hnodes & Hcx & Hcy).
  assert (c0' = c0) as -> by congruence.
  rewrite forEach_cons.
  destruct (visit_step strict g0 start cur D ex ey base g opens i c ni)
    as [[Hns ->]|(g1 & o1 & Hv & HB1 & Hc1 & Hpot1)]; [done..| | | |].
  { by rewrite Hx, Hy, Hcx, Hcy. }
  { by rewrite Hx, Hy, Hcx, Hcy. }
  { by left. }
  destruct (visit_Mid g0 start cur D ex ey base g opens i g1 o1 HM)
    as (HM1 & _ & _); [|done|].
  { intros c' Hc'. assert (c' = c) as -> by congruence. by rewrite Hnodes. }
  rewrite Hv.
  destruct (IH g1 o1 HM1 HB1 Hc1 Hf Hc0)
    as [[Hns Hrun]|(g' & opens' & Hrun & HB' & Hpot')].
  { intros j Hj. apply HL. by right. }
  { by left. }
  right. exists g', opens'. split; [done|]. split; [done|lia].
Qed.

Lemma Buckets_pop g b0' cur others base ex ey :
  Buckets g ((b0' ++ [cur]) :: others) base ex ey →
  Buckets g (b0' :: others) base ex ey ∧
  ∀ nd, g !! cur = Some nd →
    Main.get_cost (Main.x nd) (Main.y nd) ex ey + Main.cost nd = base.
Proof.
  intros [Hlen HB]. split; [split; [done|]|].
  - intros [|j] b r nd Hj Hr Hnd.
    + injection Hj as <-. apply (HB 0%nat (b0' ++ [cur]) r nd); [done| |done].
      apply elem_of_app. by left.
    + by apply (HB (S j) b r nd).
  - intros nd Hnd. rewrite (HB 0%nat (b0' ++ [cur]) cur nd); [lia|done| |done].
    apply elem_of_app. right. by apply list_elem_of_singleton.
Qed.

Lemma Buckets_rotate g others base ex ey :
  Buckets g ([] :: others) base ex ey →
  Buckets g (others ++ [[]]) (base + 1) ex ey.
Proof.
  intros [Hlen HB]. split.
  { rewrite length_app. simpl in *. lia. }
  intros j b r nd Hj Hr Hnd.
  apply lookup_app_Some in Hj as [Hj|[_ Hj]].
  - rewrite (HB (S j) b r nd Hj Hr Hnd). lia.
  - apply list_lookup_singleton_Some in Hj as [_ <-].
    by apply not_elem_of_nil in Hr.
Qed.

(** A stamped node is one that the links lead to from [start]. *)
Lemma Stamps_reach g0 start g :
  Stamps g0 start g →
  ∀ r nd, g !! r = Some nd → stamped nd → rtc (linked g0) start r.
Proof.
  intros HS.
  assert (∀ k r nd, Z.to_nat (Main.cost nd) = k → g !! r = Some nd →
            stamped nd → rtc (linked g0) start r) as Hind.
  { induction k as [k IH] using lt_wf_ind. intros r nd Hk Hr Hst.
    destruct (stamps_prev _ _ _ HS r nd Hr Hst)
      as (p & np & Hprev & Hp & Hin & Hcost & _ & Hnext).
    destruct (Stamps_nodes _ _ _ _ _ HS Hp) as (np0 & Hnp0 & Hnodes & _).
    destruct (Stamps_nodes _ _ _ _ _ HS Hr) as (nd0 & Hnd0 & _).
    assert (linked g0 p r) as Hlink.
    { exists np0. split; [done|]. split; [by rewrite <-Hnodes|by eexists]. }
    destruct (decide (p = start)) as [->|Hne]; [by apply rtc_once|].
    destruct (Hnext Hne) as [Hstp Hc].
    eapply rtc_r; [|exact Hlink].
    apply (IH (Z.to_nat (Main.cost np))) with np; [lia|done..]. }
  intros r nd. by apply (Hind (Z.to_nat (Main.cost nd))).
Qed.

(** With links that raise the estimate by at most 2, the loop of [search]
    needs no more turns than the measure tells; it can only fail on a link
    that lowers the estimate by 2. *)
Lemma search_loop_step (strict : Prop) g0 start end_ ex ey :
  reined g0 ex ey → (strict → gentle_from g0 start ex ey) →
  ∀ fuel g opens base D,
    Frontier g0 start end_ D g opens → Buckets g opens base ex ey →
    (potential g opens < fuel)%nat →
    (¬ strict ∧
     Main.search_loop fuel g opens base start end_ ex ey = Throw TypeError) ∨
    ∃ res, Main.search_loop fuel g opens base start end_ ex ey = Return res.
Proof.
  intros Hreined Hgentle.
  induction fuel as [|fuel IH]; intros g opens base D HF HB Hpot; [lia|].
  rewrite search_loop_S.
  destruct opens as [|b0 [|b1 [|b2 [|b3 [|]]]]]; try (by destruct HB).
  simpl.
  destruct (bool_decide (b0 = []) && bool_decide (b1 = []) &&
            bool_decide (b2 = []) && bool_decide (b3 = [])) eqn:Hempty.
  { right. by exists None. }
  pose proof (frontier_stamps _ _ _ _ _ _ HF) as HS.
  destruct (Main.pop b0) as [[cur b0']|] eqn:Hpop.
  - apply pop_Some in Hpop as ->.
    destruct (Frontier_pop _ _ _ _ _ _ _ _ HF) as (c & Hc & Hst & HM).
    destruct (Buckets_pop _ _ _ _ _ _ _ HB) as [HB' Hf].
    destruct (decide (cur = end_)) as [->|Hcur].
    + rewrite bool_decide_eq_true_2 by done.
      destruct (walk_prev_total _ _ _ HS (length g) end_ c [end_] Hc Hst)
        as [path ->].
      { pose proof (Stamps_cost_bound _ _ _ _ _ HS Hc). lia. }
      right. by eexists.
    + rewrite bool_decide_eq_false_2 by done.
      rewrite (main_getNode_Some _ _ _ Hc). simpl.
      destruct (Stamps_nodes _ _ _ _ _ HS Hc) as (c0 & Hc0 & Hnodes & _).
      destruct (visit_all_step strict g0 start cur c c0 D ex ey base
                  (Main.nodes c) g [b0'; b1; b2; b3] HM HB' Hc (Hf c Hc) Hc0)
        as [[Hns ->]|(g' & opens' & Hall & HB1 & Hpot1)].
      { intros i Hi. rewrite Hnodes in Hi.
        destruct (Hreined cur c0 i Hc0 Hi) as (Hne & m & Hm & Hstep).
        split; [done|]. split; [done|]. exists m. split; [done|].
        split; [done|]. intros Hstrict.
        apply (Hgentle Hstrict cur c0 i m); [|done..].
        by apply (Stamps_reach g0 start g HS cur c). }
      { by left. }
      rewrite Hall. simpl.
      assert (∀ i, i ∈ Main.nodes c → i ∈ Main.nodes c0) as Hsub
        by (intros i; by rewrite Hnodes).
      destruct (visit_all_Mid g0 start cur c0 D ex ey base (Main.nodes c)
                  g [b0'; b1; b2; b3] g' opens' HM Hc0 Hsub Hall)
        as (HM' & Hdone & _).
      apply (IH g' opens' base (D ∪ {[cur]})); [|done|].
      * apply (Mid_done _ _ _ _ c0); [done|done| |done|..].
        -- intros j Hj. apply Hdone. by rewrite Hnodes.
        -- by apply (frontier_end _ _ _ _ _ _ HF).
        -- left. by apply (frontier_start _ _ _ _ _ _ HF).
      * unfold potential in *. simpl in *. rewrite length_app in Hpot.
        simpl in Hpot. lia.
  - apply pop_None in Hpop as ->.
    apply (IH g ([b1; b2; b3] ++ [[]]) (base + 1) D).
    + by apply Frontier_rotate.
    + by apply Buckets_rotate.
    + unfold potential in *. simpl in *.
      assert (length b1 + length b2 + length b3 ≠ 0)%nat.
      { intros Hz. destruct b1, b2, b3; simpl in *; try lia; done. }
      lia.
Qed.

Lemma createNodes_offsets w h data r n j :
  0 < w → Main.createNodes w h data !! r = Some n → j ∈ Main.nodes n →
  j ≠ r ∧
  ∃ m, Main.createNodes w h data !! j = Some m ∧
    0 ≤ Main.x n ∧ 0 ≤ Main.x m ∧
    (Main.x m - Main.x n, Main.y m - Main.y n) ∈ link_offsets.
Proof.
  intros Hw Hn Hj.
  destruct (createNodes_link w h data r n j Hw Hn Hj) as (m & Hm & _ & Hoff).
  destruct (createNodes_lookup _ _ _ _ _ Hn) as (_ & _ & _ & Hx & _).
  destruct (createNodes_lookup _ _ _ _ _ Hm) as (_ & _ & _ & Hxm & _).
  assert (0 ≤ Main.x n ∧ 0 ≤ Main.x m) as [Hxn Hxm'].
  { rewrite Hx, Hxm, !Z.rem_mod_nonneg by lia.
    split; apply Z.mod_pos_bound; lia. }
  split.
  - intros ->. assert (m = n) as -> by congruence.
    rewrite !Z.sub_diag in Hoff. unfold link_offsets in Hoff.
    repeat (apply elem_of_cons in Hoff as [[=]|Hoff]).
    by apply not_elem_of_nil in Hoff.
  - exists m. done.
Qed.

Lemma createNodes_gentle w h data ey :
  0 < w → gentle (Main.createNodes w h data) 0 ey.
Proof.
  intros Hw r n j Hn Hj.
  destruct (createNodes_offsets w h data r n j Hw Hn Hj)
    as (Hne & m & Hm & Hxn & Hxm & Hoff).
  split; [done|]. exists m. split; [done|].
  unfold link_offsets in Hoff. unfold Main.get_cost.
  repeat (apply elem_of_cons in Hoff as [[= Hdx Hdy]|Hoff]);
    try (by apply not_elem_of_nil in Hoff); lia.
Qed.

Lemma createNodes_reined w h data ex ey :
  0 < w → reined (Main.createNodes w h data) ex ey.
Proof.
  intros Hw r n j Hn Hj.
  destruct (createNodes_offsets w h data r n j Hw Hn Hj)
    as (Hne & m & Hm & Hxn & Hxm & Hoff).
  split; [done|]. exists m. split; [done|].
  unfold link_offsets in Hoff. unfold Main.get_cost.
  repeat (apply elem_of_cons in Hoff as [[= Hdx Hdy]|Hoff]);
    try (by apply not_elem_of_nil in Hoff); lia.
Qed.

(** [search] on a graph of [createNodes]: it returns, or a link that
    lowers the estimate by 2 makes it fail. *)
Lemma search_graph (strict : Prop) w h data start end_ e fuel :
  0 < w →
  is_Some (Main.createNodes w h data !! start) →
  Main.createNodes w h data !! end_ = Some e →
  (strict →
   gentle_from (Main.createNodes w h data) start (Main.x e) (Main.y e)) →
  (4 * length data + 1 < fuel)%nat →
  (¬ strict ∧
   Main.search fuel (Main.createNodes w h data) start end_ = Throw TypeError) ∨
  ∃ res, Main.search fuel (Main.createNodes w h data) start end_ = Return res.
Proof.
  intros Hw [s Hs] He Hgentle Hfuel.
  set (graph := Main.createNodes w h data) in *.
  assert (fresh graph) as Hfresh by apply createNodes_fresh.
  assert (length graph = length data) as Hlen
    by (unfold graph, Main.createNodes; by rewrite length_imap).
  destruct fuel as [|fuel]; [lia|].
  destruct (decide (start = end_)) as [<-|Hne].
  { right. exists (Some [start]). apply search_same_node; [done|by eexists]. }
  unfold Main.search.
  rewrite (main_getNode_Some _ _ _ Hs), (main_getNode_Some _ _ _ He). simpl.
  rewrite bool_decide_eq_false_2 by done.
  rewrite (main_getNode_Some _ _ _ Hs). simpl.
  change (reverse []) with (@nil nat).
  set (base := Main.get_cost _ _ _ _).
  pose proof (fresh_Mid graph start s Hfresh Hs) as HM.
  assert (Buckets graph [[]; []; []; []] base (Main.x e) (Main.y e)) as HB.
  { split; [done|]. intros j b r nd Hj Hr.
    apply list_elem_of_lookup_2 in Hj.
    repeat (apply elem_of_cons in Hj as [->|Hj];
            [by apply not_elem_of_nil in Hr|]).
    by apply not_elem_of_nil in Hj. }
  assert (reined graph (Main.x e) (Main.y e)) as Hreined
    by (by apply createNodes_reined).
  destruct (visit_all_step strict graph start start s s ∅ (Main.x e) (Main.y e)
              base (Main.nodes s) graph [[]; []; []; []] HM HB Hs)
    as [[Hns ->]|(g' & opens' & Hall & HB' & Hpot)]; [|done|..].
  { destruct (Hfresh start s Hs) as (_ & _ & ->). unfold base. lia. }
  { intros i Hi. destruct (Hreined start s i Hs Hi) as (Hi' & m & Hm & Hstep).
    split; [done|]. split; [done|]. exists m. split; [done|].
    split; [done|]. intros Hstrict.
    by apply (Hgentle Hstrict start s i m). }
  { by left. }
  rewrite Hall. simpl.
  destruct (visit_all_Mid graph start start s ∅ (Main.x e) (Main.y e) base
              (Main.nodes s) graph [[]; []; []; []] g' opens' HM Hs
              (λ i Hi, Hi) Hall) as (HM' & Hdone & _).
  apply (search_loop_step strict graph start end_ (Main.x e) (Main.y e)
           Hreined Hgentle fuel g' opens' base (∅ ∪ {[start]})); [|done|].
  - apply (Mid_done _ _ _ _ s); [done|done|done|done|set_solver|by right].
  - unfold potential in *. simpl in Hpot.
    pose proof (unstamped_le graph). lia.
Qed.

Lemma search_createNodes (strict : Prop) w h data start end_ e fuel :
  0 < w →
  is_Some (Main.createNodes w h data !! start) →
  Main.createNodes w h data !! end_ = Some e →
  (strict → Main.x e = 0) →
  (4 * length data + 1 < fuel)%nat →
  (¬ strict ∧
   Main.search fuel (Main.createNodes w h data) start end_ = Throw TypeError) ∨
  ∃ res, Main.search fuel (Main.createNodes w h data) start end_ = Return res.
Proof.
  intros Hw Hs He Hx Hfuel.
  apply (search_graph strict w h data start end_ e fuel Hw Hs He); [|done].
  intros Hstrict r n j m _ Hn Hj Hm. rewrite (Hx Hstrict).
  destruct (createNodes_gentle w h data (Main.y e) Hw r n j Hn Hj)
    as (_ & m' & Hm' & Hlow).
  assert (m' = m) as -> by congruence. lia.
Qed.

Lemma search_first_column w h data start end_ e fuel :
  0 < w →
  is_Some (Main.createNodes w h data !! start) →
  Main.createNodes w h data !! end_ = Some e → Main.x e = 0 →
  (4 * length data + 1 < fuel)%nat →
  ∃ res, Main.search fuel (Main.createNodes w h data) start end_ = Return res.
Proof.
  intros Hw Hs He Hx Hfuel.
  by destruct (search_createNodes True w h data start end_ e fuel Hw Hs He
                 (λ _, Hx) Hfuel) as [[Hns _]|?]; [destruct Hns|].
Qed.

(** X17. On the graph that [createNodes] builds for a positive width,
    [search] towards a node of the first column returns, for every start
    node: the four buckets are enough, no turn of the loops fails, and the
    main loop takes at most [4 * data.length + 2] turns. *)
Theorem search_first_column_returns w h data start end_ e fuel :
  0 < w →
  is_Some (Main.createNodes w h data !! start) →
  Main.createNodes w h data !! end_ = Some e → Main.x e = 0 →
  (4 * length data + 1 < fuel)%nat →
  ∃ res, Main.search fuel (Main.createNodes w h data) start end_ = Return res.
Proof. apply search_first_column. Qed.

Lemma search_first_column_returns_witness :
  ∃ res, Main.search 18%nat graph2 3%nat 0%nat = Return res.
Proof.
  destruct (graph2 !! 0%nat) as [e|] eqn:He; [|vm_compute in He; done].
  apply (search_first_column_returns 2 2 [0; 0; 0; 0] 3%nat 0%nat e 18%nat).
  - lia.
  - by eexists.
  - done.
  - vm_compute in He. by injection He as <-.
  - simpl. lia.
Defined.

(** X28. On the graph that [createNodes] builds for a positive width the
    loop [while (true)] of [search] always ends, whatever the start and the
    end: within [4 * data.length + 2] turns the call returns or throws a
    [TypeError]. *)
Theorem search_always_ends w h data start end_ fuel :
  0 < w →
  is_Some (Main.createNodes w h data !! start) →
  is_Some (Main.createNodes w h data !! end_) →
  (4 * length data + 1 < fuel)%nat →
  (∃ res, Main.search fuel (Main.createNodes w h data) start end_ = Return res)
  ∨ Main.search fuel (Main.createNodes w h data) start end_ = Throw TypeError.
Proof.
  intros Hw Hs [e He] Hfuel.
  destruct (search_createNodes False w h data start end_ e fuel Hw Hs He
              (λ H, False_ind _ H) Hfuel) as [[_ Hthrow]|Hres].
  - by right.
  - by left.
Qed.

Lemma search_always_ends_witness :
  (∃ res, Main.search 18%nat graph2 0%nat 3%nat = Return res) ∨
  Main.search 18%nat graph2 0%nat 3%nat = Throw TypeError.
Proof.
  apply (search_always_ends 2 2 [0; 0; 0; 0] 0%nat 3%nat 18%nat).
  - lia.
  - by eexists.
  - by eexists.
  - simpl. lia.
Defined.

(** ** [SimpleMap] and [SimpleSet] *)

(** X18. [SimpleMap] is a map on the texts of its keys: [get] after [set]
    gives the value that was set when the two keys have the same text and
    is not changed by the [set] otherwise, [delete] removes the entry of
    every key with the same text and no other, a new or cleared map has no
    entry, and [has] tells whether [get] finds a value. *)
Theorem SimpleMap_laws {K V} (stringify : K → string)
    (this : SimpleMap.t K V) key key' value :
  SimpleMap.get stringify (SimpleMap.constructor K V) key' = None ∧
  SimpleMap.get stringify (SimpleMap.clear this) key' = None ∧
  SimpleMap.get stringify (SimpleMap.set stringify this key value) key' =
    (if decide (stringify key = stringify key') then Some value
     else SimpleMap.get stringify this key') ∧
  SimpleMap.get stringify (SimpleMap.delete stringify this key) key' =
    (if decide (stringify key = stringify key') then None
     else SimpleMap.get stringify this key') ∧
  (SimpleMap.has stringify this key' = true ↔
   is_Some (SimpleMap.get stringify this key')).
Proof.
  unfold SimpleMap.get, SimpleMap.has, SimpleMap.set, SimpleMap.delete,
    SimpleMap.clear, SimpleMap.constructor. simpl.
  split; [apply lookup_empty|]. split; [apply lookup_empty|].
  split; [|split].
  - destruct (decide (stringify key = stringify key')) as [->|Hne].
    + apply lookup_insert_eq.
    + by apply lookup_insert_ne.
  - destruct (decide (stringify key = stringify key')) as [->|Hne].
    + apply lookup_delete_eq.
    + by apply lookup_delete_ne.
  - apply bool_decide_eq_true.
Qed.

(** X19. The second object of a [SimpleMap], [keyMap], mirrors [items]
    through every method: it has the same property names, and under each
    name a key whose text is that name (the key of the latest [set] with
    this text). *)
Theorem SimpleMap_mirrored {K V} (stringify : K → string)
    (this : SimpleMap.t K V) key value :
  SimpleMap.mirrored stringify this →
  SimpleMap.mirrored stringify (SimpleMap.constructor K V) ∧
  SimpleMap.mirrored stringify (SimpleMap.set stringify this key value) ∧
  SimpleMap.mirrored stringify (SimpleMap.delete stringify this key) ∧
  SimpleMap.mirrored stringify (SimpleMap.clear this) ∧
  SimpleMap.keyMap (SimpleMap.set stringify this key value)
    !! stringify key = Some key.
Proof.
  intros Hm. unfold SimpleMap.mirrored in *. simpl.
  split; [intros s; by rewrite !lookup_empty|].
  split; [|split; [|split]].
  - intros s. destruct (decide (stringify key = s)) as [<-|Hne].
    + rewrite !lookup_insert_eq. split; [done|by eexists].
    + rewrite !lookup_insert_ne by done. apply Hm.
  - intros s. destruct (decide (stringify key = s)) as [<-|Hne].
    + by rewrite !lookup_delete_eq.
    + rewrite !lookup_delete_ne by done. apply Hm.
  - intros s. by rewrite !lookup_empty.
  - apply lookup_insert_eq.
Qed.

Lemma SimpleMap_mirrored_witness :
  SimpleMap.mirrored (λ k : Z, pretty k)
    (SimpleMap.set (λ k : Z, pretty k) (SimpleMap.constructor Z bool) 7 true).
Proof.
  apply (SimpleMap_mirrored (λ k : Z, pretty k) (SimpleMap.constructor Z bool)
           7 true).
  unfold SimpleMap.mirrored. simpl. intros s. by rewrite !lookup_empty.
Defined.

Lemma SimpleSet_foldl_add {T} (stringify : T → string) values :
  ∀ (this : gmap string T) key,
  is_Some (foldl (SimpleSet.add stringify) this values !! key) ↔
  is_Some (this !! key) ∨ ∃ v, v ∈ values ∧ stringify v = key.
Proof.
  induction values as [|v values IH]; intros this key; simpl.
  - split; [by left|]. intros [?|(v & Hv & _)]; [done|].
    by apply not_elem_of_nil in Hv.
  - rewrite IH. unfold SimpleSet.add. split.
    + intros [Hin|(v' & Hv' & Heq)].
      * destruct (decide (stringify v = key)) as [<-|Hne].
        -- right. exists v. split; [by left|done].
        -- left. by rewrite lookup_insert_ne in Hin.
      * right. exists v'. split; [by right|done].
    + intros [Hin|(v' & [->|Hv']%elem_of_cons & Heq)].
      * left. destruct (decide (stringify v = key)) as [<-|Hne].
        -- rewrite lookup_insert_eq. by eexists.
        -- by rewrite lookup_insert_ne.
      * left. rewrite Heq, lookup_insert_eq. by eexists.
      * right. by exists v'.
Qed.

Lemma SimpleSet_has_constructor {T} (stringify : T → string) values value :
  SimpleSet.has stringify (SimpleSet.constructor stringify values) value = true
  ↔ ∃ v, v ∈ default [] values ∧ stringify v = stringify value.
Proof.
  unfold SimpleSet.has, SimpleSet.constructor, SimpleSet.t.
  rewrite bool_decide_eq_true.
  destruct values as [values|]; simpl.
  - rewrite SimpleSet_foldl_add, lookup_empty. split; [|by right].
    intros [[? [=]]|?]; done.
  - rewrite lookup_empty. split; [by intros [? [=]]|].
    intros (v & Hv & _). by apply not_elem_of_nil in Hv.
Qed.

(** X20. [SimpleSet] is a set of the texts of its values: a value is in
    the set built from a list exactly when the list holds a value with the
    same text, [add] puts in every value with the text of the added one,
    [delete] takes out every value with the text of the deleted one and no
    other, and a cleared set has no value. *)
Theorem SimpleSet_laws {T} (stringify : T → string) values
    (this : SimpleSet.t T) value value' :
  (SimpleSet.has stringify (SimpleSet.constructor stringify values) value'
   = true ↔ ∃ v, v ∈ default [] values ∧ stringify v = stringify value') ∧
  SimpleSet.has stringify (SimpleSet.add stringify this value) value' =
    bool_decide (stringify value = stringify value')
    || SimpleSet.has stringify this value' ∧
  SimpleSet.has stringify (SimpleSet.delete stringify this value) value' =
    negb (bool_decide (stringify value = stringify value'))
    && SimpleSet.has stringify this value' ∧
  SimpleSet.has stringify (SimpleSet.clear this) value' = false.
Proof.
  split; [apply SimpleSet_has_constructor|].
  unfold SimpleSet.has, SimpleSet.add, SimpleSet.delete, SimpleSet.clear,
    SimpleSet.t in *.
  simpl. split; [|split].
  - destruct (decide (stringify value = stringify value')) as [->|Hne].
    + rewrite lookup_insert_eq, !bool_decide_eq_true_2 by (by eexists). done.
    + rewrite lookup_insert_ne by done.
      rewrite (bool_decide_eq_false_2 (stringify value = stringify value'))
        by done. done.
  - destruct (decide (stringify value = stringify value')) as [->|Hne].
    + rewrite lookup_delete_eq.
      rewrite (bool_decide_eq_true_2 (stringify value' = stringify value'))
        by done.
      apply bool_decide_eq_false_2. by intros [? [=]].
    + rewrite lookup_delete_ne by done.
      rewrite (bool_decide_eq_false_2 (stringify value = stringify value'))
        by done. done.
  - rewrite lookup_empty. apply bool_decide_eq_false_2. by intros [? [=]].
Qed.

Lemma length_append (s t : string) :
  String.length (s +:+ t) = (String.length s + String.length t)%nat.
Proof.
  induction s as [|c s IH]; [by rewrite append_nil|].
  rewrite append_cons. simpl. by rewrite IH.
Qed.

Lemma append_inj_r (t s s' : string) : s +:+ t = s' +:+ t → s = s'.
Proof.
  revert s'. induction s as [|c s IH]; intros [|c' s'] Heq.
  - done.
  - apply (f_equal String.length) in Heq.
    rewrite append_nil, append_cons in Heq. simpl in Heq.
    rewrite length_append in Heq. lia.
  - apply (f_equal String.length) in Heq.
    rewrite append_nil, append_cons in Heq. simpl in Heq.
    rewrite length_append in Heq. lia.
  - rewrite !append_cons in Heq. injection Heq as -> Heq.
    by rewrite (IH s' Heq).
Qed.

Lemma quoted_inj : Inj (=) (=) quoted.
Proof.
  intros s s' Heq. unfold quoted in Heq. injection Heq as Heq.
  by apply append_inj_r in Heq.
Qed.

(** X21. With a [stringify] that gives different texts for different
    strings, as [JSON.stringify] does, the obstacle set of an [AStar] object
    holds exactly the strings of the list given to the constructor (none
    when the list is left out), whatever their order and however often they
    occur, and [isValidPosition] is [isValidCoordinate] together with the
    key of the cell not being in that [SimpleSet]. *)
Theorem obstacles_as_set (stringify : string → string)
    mapSize obstacles this x y :
  Inj (=) (=) stringify →
  AStar.constructor mapSize obstacles = Return this →
  (∀ k, SimpleSet.has stringify (SimpleSet.constructor stringify obstacles) k
        = bool_decide (k ∈ default [] obstacles)) ∧
  AStar.isValidPosition this x y =
    AStar.isValidCoordinate this x y &&
    negb (SimpleSet.has stringify (SimpleSet.constructor stringify obstacles)
            (AStar.key x y)).
Proof.
  intros Hinj Hnew.
  assert (∀ k, SimpleSet.has stringify
                 (SimpleSet.constructor stringify obstacles) k
               = bool_decide (k ∈ default [] obstacles)) as Hhas.
  { intros k. apply eq_true_iff_eq.
    rewrite SimpleSet_has_constructor, bool_decide_eq_true. split.
    - intros (v & Hv & Heq). by rewrite <-(Hinj _ _ Heq).
    - intros Hk. by exists k. }
  split; [done|].
  unfold AStar.constructor in Hnew.
  destruct (mapSize <=? 0); [done|]. injection Hnew as <-.
  unfold AStar.isValidPosition. simpl. f_equal. rewrite Hhas.
  rewrite <-bool_decide_not. apply bool_decide_ext.
  by rewrite elem_of_list_to_set.
Qed.

Lemma obstacles_as_set_witness :
  AStar.isValidPosition grid7 3 1 =
    AStar.isValidCoordinate grid7 3 1 &&
    negb (SimpleSet.has quoted (SimpleSet.constructor quoted (Some ["3,1"]))
            (AStar.key 3 1)).
Proof.
  apply (obstacles_as_set quoted 7 (Some ["3,1"]) grid7 3 1).
  - apply quoted_inj.
  - vm_compute. reflexivity.
Defined.

(** ** The map view *)

Lemma drawHexagon_Return this position color :
  is_Some (MapView.grids this !! position) →
  MapView.drawHexagon this position color =
  Return (MapView.mk (MapView.obstacles this) (MapView.startPos this)
            (MapView.endPos this) (<[position := color]> (MapView.grids this))).
Proof. unfold MapView.drawHexagon. by intros [? ->]. Qed.

(** A loop that draws the shapes of some of the cells of a list. *)
Lemma forEach_draw {A} (k : A → string) (skip : list string → A → bool)
    (c : Z) (body : MapView.t → A → outcome MapView.t) l :
  (∀ this a, body this a =
     if skip (MapView.obstacles this) a then Return this
     else MapView.drawHexagon this (k a) c) →
  ∀ this,
    (∀ a, a ∈ l → skip (MapView.obstacles this) a = false →
       is_Some (MapView.grids this !! k a)) →
    ∃ g',
      forEach body l this =
        Return (MapView.mk (MapView.obstacles this) (MapView.startPos this)
                  (MapView.endPos this) g') ∧
      (∀ a, a ∈ l → skip (MapView.obstacles this) a = false →
         g' !! k a = Some c) ∧
      (∀ s, (∀ a, a ∈ l → skip (MapView.obstacles this) a = false → k a ≠ s) →
         g' !! s = MapView.grids this !! s) ∧
      (∀ s, g' !! s = Some c ∨ g' !! s = MapView.grids this !! s).
Proof.
  intros Hbody. induction l as [|a l IH]; intros this Hshapes.
  { exists (MapView.grids this). simpl. split; [by destruct this|].
    split; [|by auto]. intros a Ha. by apply not_elem_of_nil in Ha. }
  rewrite forEach_cons, Hbody.
  destruct (skip (MapView.obstacles this) a) eqn:Hskip.
  - destruct (IH this) as (g' & Hrun & Hdrawn & Hkept & Hall).
    { intros a' Ha'. apply Hshapes. by right. }
    exists g'. split; [done|]. split; [|split; [|done]].
    + intros a' [->|Ha']%elem_of_cons Hs; [congruence|by apply Hdrawn].
    + intros s Hs. apply Hkept. intros a' Ha'. apply Hs. by right.
  - rewrite drawHexagon_Return by (apply Hshapes; [by left|done]).
    set (this1 := MapView.mk _ _ _ _).
    destruct (IH this1) as (g' & Hrun & Hdrawn & Hkept & Hall).
    { intros a' Ha' Hs. unfold this1. simpl.
      destruct (decide (k a = k a')) as [->|Hne].
      - rewrite lookup_insert_eq. by eexists.
      - rewrite lookup_insert_ne by done. apply Hshapes; [by right|done]. }
    exists g'. split; [done|]. split; [|split].
    + intros a' [->|Ha']%elem_of_cons Hs; [|by apply Hdrawn].
      destruct (Hall (k a)) as [?|Heq]; [done|].
      rewrite Heq. unfold this1. simpl. apply lookup_insert_eq.
    + intros s Hs. rewrite Hkept.
      * unfold this1. simpl. apply lookup_insert_ne. apply Hs; [by left|done].
      * intros a' Ha'. apply Hs. by right.
    + intros s. destruct (Hall s) as [?|Heq]; [by left|].
      rewrite Heq. unfold this1. simpl.
      destruct (decide (k a = s)) as [->|Hne].
      * left. apply lookup_insert_eq.
      * right. by apply lookup_insert_ne.
Qed.

Lemma positions_spec x y :
  (x, y) ∈ MapView.positions ↔
  0 ≤ x < MapView.MAP_SIZE ∧ 0 ≤ y < MapView.MAP_SIZE.
Proof.
  unfold MapView.positions. rewrite list_elem_of_bind. split.
  - intros (row & (col & Hp & Hcol)%list_elem_of_bind & Hrow).
    apply list_elem_of_singleton in Hp as [= -> ->].
    apply elem_of_seqZ in Hcol, Hrow. lia.
  - intros [Hx Hy]. exists y. split; [|apply elem_of_seqZ; lia].
    apply list_elem_of_bind. exists x. split; [|apply elem_of_seqZ; lia].
    by apply list_elem_of_singleton.
Qed.

Lemma initMap_grids this x y :
  0 ≤ x < MapView.MAP_SIZE → 0 ≤ y < MapView.MAP_SIZE →
  MapView.grids (MapView.initMap this) !! AStar.key x y =
  Some (if MapView.isObstacle this (AStar.key x y) then 0xFF0000 else 0xFFFFFF).
Proof.
  intros Hx Hy. unfold MapView.initMap. cbn [MapView.grids].
  assert ((x, y) ∈ MapView.positions) as Hin by (by apply positions_spec).
  revert Hin. generalize (MapView.grids this). generalize MapView.positions.
  intros l. induction l as [|p l IH]; intros g Hin; simpl.
  { by apply not_elem_of_nil in Hin. }
  destruct (decide ((x, y) ∈ l)) as [Hl|Hl]; [by apply IH|].
  apply elem_of_cons in Hin as [<-|?]; [|done]. simpl.
  generalize (if MapView.isObstacle this (AStar.key x y)
              then 0xFF0000 else 0xFFFFFF). intros c.
  assert (<[AStar.key x y := c]> g !! AStar.key x y = Some c) as Hc
    by apply lookup_insert_eq.
  revert Hc. generalize (<[AStar.key x y := c]> g). clear IH.
  induction l as [|q l IH]; intros g' Hg'; simpl; [done|].
  apply IH.
  - intros ?. apply Hl. by right.
  - rewrite lookup_insert_ne; [done|].
    intros [Hq1 Hq2]%key_inj. apply Hl. destruct q as [q1 q2]. simpl in *.
    subst. by left.
Qed.

Lemma start_view_Ready obstacles : MapView.Ready (MapView.start_view obstacles).
Proof.
  unfold MapView.start_view. split.
  - intros x y Hx Hy. rewrite initMap_grids by assumption. by eexists.
  - intros p [=].
  - intros p [=].
  - intros x y Hx Hy Hobs. rewrite initMap_grids by assumption.
    unfold MapView.isObstacle in *. cbn [MapView.initMap MapView.obstacles] in *.
    by rewrite Hobs.
Qed.

Lemma view_astar obstacles :
  AStar.constructor MapView.MAP_SIZE (Some obstacles) =
  Return (AStar.mkAStar MapView.MAP_SIZE (list_to_set obstacles) None).
Proof. done. Qed.

Lemma clickable_valid this p :
  MapView.clickable this p →
  in_bounds
    (AStar.mkAStar MapView.MAP_SIZE (list_to_set (MapView.obstacles this)) None)
    p ∧
  ¬ is_obstacle
    (AStar.mkAStar MapView.MAP_SIZE (list_to_set (MapView.obstacles this)) None)
    p.
Proof.
  intros [Hrange Hobs]. unfold in_bounds, is_obstacle. simpl. split.
  - apply isValidCoordinate_spec. simpl. lia.
  - unfold MapView.isObstacle in Hobs. apply bool_decide_eq_false in Hobs.
    by rewrite elem_of_list_to_set.
Qed.

Lemma inner_short {A} (path : list A) :
  (length path ≤ 2)%nat → take (length path - 2) (drop 1 path) = [].
Proof. intros Hlen. by replace (length path - 2)%nat with 0%nat by lia. Qed.

Lemma inner_long {A} (path : list A) :
  (2 ≤ length path)%nat →
  ∃ a b, path = a :: take (length path - 2) (drop 1 path) ++ [b].
Proof.
  intros Hlen. destruct path as [|a path]; [simpl in Hlen; lia|].
  destruct (decide (path = [])) as [->|Hne]; [simpl in Hlen; lia|].
  destruct (exists_last Hne) as (mid & b & ->).
  exists a, b. f_equal. simpl. rewrite drop_0, length_app. simpl.
  replace (length mid + 1 - 1)%nat with (length mid) by lia.
  by rewrite take_app_length.
Qed.

Lemma Ready_draw this p color :
  MapView.Ready this → MapView.clickable this p →
  MapView.Ready
    (MapView.mk (MapView.obstacles this) (MapView.startPos this)
       (MapView.endPos this)
       (<[AStar.key p.1 p.2 := color]> (MapView.grids this))).
Proof.
  intros [Hgrids Hstart Hend Hred] [Hrange Hfree].
  split; cbn [MapView.grids MapView.startPos MapView.endPos].
  - intros x y Hx Hy.
    destruct (decide (AStar.key p.1 p.2 = AStar.key x y)) as [->|?].
    + rewrite lookup_insert_eq. by eexists.
    + rewrite lookup_insert_ne by assumption. by apply Hgrids.
  - exact Hstart.
  - exact Hend.
  - intros x y Hx Hy Hobs. rewrite lookup_insert_ne; [by apply Hred|].
    intros Heq. unfold MapView.isObstacle in *.
    cbn [MapView.obstacles] in *.
    rewrite Heq in Hfree. congruence.
Qed.

Lemma bind_Return {A B} (a : A) (k : A → outcome B) : (x ← Return a; k x) = k a.
Proof. done. Qed.

(** The click that chooses the start. *)
Lemma first_click this x y :
  MapView.Ready this → MapView.startPos this = None →
  MapView.clickable this (x, y) →
  MapView.onGridClick this x y =
    Return (MapView.mk (MapView.obstacles this) (Some (x, y)) None
              (<[AStar.key x y := 0x00FF00]> (MapView.grids this))) ∧
  MapView.Ready
    (MapView.mk (MapView.obstacles this) (Some (x, y)) None
       (<[AStar.key x y := 0x00FF00]> (MapView.grids this))).
Proof.
  intros HR Hs Hclick.
  assert (MapView.endPos this = None) as He.
  { destruct (MapView.endPos this) as [p|] eqn:He; [|reflexivity].
    destruct (MapView.ready_end _ HR p He) as [_ [? Hsome]]. congruence. }
  split.
  - unfold MapView.onGridClick. rewrite Hs, bind_Return, Hs, He.
    rewrite drawHexagon_Return; [reflexivity|].
    cbn [MapView.grids].
    apply (MapView.ready_grids _ HR); by destruct Hclick as [[? ?] _].
  - pose proof (Ready_draw this (x, y) 0x00FF00 HR Hclick) as HR'.
    destruct HR' as [Hgrids Hstart Hend Hred].
    cbn [MapView.grids MapView.startPos MapView.endPos MapView.obstacles
         fst snd] in *.
    split; cbn [MapView.grids MapView.startPos MapView.endPos].
    + exact Hgrids.
    + intros p [= <-]. exact Hclick.
    + intros p [=].
    + exact Hred.
Qed.

Lemma inner_cells this start end_ path :
  ValidPath this start end_ path → NoDup (coords path) →
  (start ∉ coords (MapView.inner path)) ∧
  (end_ ∉ coords (MapView.inner path)) ∧
  ∀ c, c ∈ coords (MapView.inner path) → c ∈ coords path.
Proof.
  intros [Hfirst Hlast _ _] Hnodup. unfold MapView.inner.
  destruct (decide (length path ≤ 2)%nat) as [Hshort|Hlong].
  { rewrite inner_short by done. unfold coords. simpl.
    split; [apply not_elem_of_nil|]. split; [apply not_elem_of_nil|].
    intros c Hc. by apply not_elem_of_nil in Hc. }
  destruct (inner_long path) as (a & b & Hpath); [lia|].
  set (mid := take _ _) in *. clearbody mid. subst path.
  unfold coords in *. rewrite fmap_cons, fmap_app in *. simpl in *.
  injection Hfirst as Ha. rewrite app_comm_cons, last_snoc in Hlast.
  injection Hlast as Hb. rewrite Ha, Hb in Hnodup.
  apply NoDup_cons in Hnodup as [Hstart Hnodup].
  apply NoDup_app in Hnodup as (_ & Hmid & _).
  split; [|split].
  - intros Hin. apply Hstart, elem_of_app. by left.
  - intros Hin. apply (Hmid end_ Hin). by left.
  - intros c Hc. right. apply elem_of_app. by left.
Qed.

(** The click that chooses the end and has the path drawn. *)
Lemma second_click this s x y :
  MapView.Ready this →
  MapView.startPos this = Some s → MapView.endPos this = None →
  MapView.clickable this (x, y) →
  ∃ res g',
    (AStar.findPath
       (AStar.mkAStar MapView.MAP_SIZE
          (list_to_set (MapView.obstacles this)) None) s (x, y)).1
    = Return res ∧
    MapView.onGridClick this x y =
      Return (MapView.mk (MapView.obstacles this) (Some s) (Some (x, y)) g') ∧
    let blue :=
      match res with
      | Some path => coords (MapView.inner path)
      | None => []
      end in
    (s ∉ blue) ∧ ((x, y) ∉ blue) ∧
    (∀ c, c ∈ blue → MapView.clickable this c) ∧
    (∀ c, c ∈ blue → g' !! AStar.key c.1 c.2 = Some 0x0000FF) ∧
    g' !! AStar.key x y = Some 0xFF00FF ∧
    (∀ k, k ≠ AStar.key x y → (∀ c, c ∈ blue → AStar.key c.1 c.2 ≠ k) →
       g' !! k = MapView.grids this !! k).
Proof.
  intros HR Hs He Hclick.
  set (astar := AStar.mkAStar MapView.MAP_SIZE
                  (list_to_set (MapView.obstacles this)) None).
  destruct (clickable_valid this s (MapView.ready_start _ HR s Hs))
    as [Hsb Hso].
  destruct (clickable_valid this (x, y) Hclick) as [Heb Heo].
  destruct (findPath_valid astar s (x, y) Hsb Heb Hso Heo)
    as (res & Hfind & Hres).
  assert ((AStar.findPath astar s (x, y)).1 = Return res) as Hfind1
    by (by rewrite Hfind).
  exists res.
  enough (∃ g',
    MapView.onGridClick this x y =
      Return (MapView.mk (MapView.obstacles this) (Some s) (Some (x, y)) g') ∧
    let blue :=
      match res with
      | Some path => coords (MapView.inner path)
      | None => []
      end in
    (s ∉ blue) ∧ ((x, y) ∉ blue) ∧
    (∀ c, c ∈ blue → MapView.clickable this c) ∧
    (∀ c, c ∈ blue → g' !! AStar.key c.1 c.2 = Some 0x0000FF) ∧
    g' !! AStar.key x y = Some 0xFF00FF ∧
    (∀ k, k ≠ AStar.key x y → (∀ c, c ∈ blue → AStar.key c.1 c.2 ≠ k) →
       g' !! k = MapView.grids this !! k)) as (g' & Hclicked & Hcolours).
  { exists g'. split; [exact Hfind1|]. split; [exact Hclicked|exact Hcolours]. }
  assert (is_Some (MapView.grids this !! AStar.key x y)) as Hshape.
  { apply (MapView.ready_grids _ HR); by destruct Hclick as [[? ?] _]. }
  unfold MapView.onGridClick. rewrite Hs, He, bind_Return, Hs, He.
  rewrite drawHexagon_Return by exact Hshape.
  rewrite bind_Return. unfold MapView.findPath.
  cbn [MapView.startPos MapView.endPos MapView.obstacles].
  rewrite view_astar, bind_Return. fold astar. rewrite Hfind1, bind_Return.
  set (this1 := MapView.mk _ _ _ _).
  assert (∀ c : Z * Z, c ≠ (x, y) →
            AStar.key c.1 c.2 ≠ AStar.key x y) as Hkey.
  { intros [c1 c2] Hc [? ?]%key_inj. simpl in *. congruence. }
  (* nothing is drawn *)
  assert (∀ path, res = Some path → MapView.inner path = [] →
    ∃ g', Return this1 =
            Return (MapView.mk (MapView.obstacles this) (Some s)
                      (Some (x, y)) g') ∧
      let blue :=
        match res with
        | Some path => coords (MapView.inner path)
        | None => []
        end in
      (s ∉ blue) ∧ ((x, y) ∉ blue) ∧
      (∀ c, c ∈ blue → MapView.clickable this c) ∧
      (∀ c, c ∈ blue → g' !! AStar.key c.1 c.2 = Some 0x0000FF) ∧
      g' !! AStar.key x y = Some 0xFF00FF ∧
      (∀ k, k ≠ AStar.key x y → (∀ c, c ∈ blue → AStar.key c.1 c.2 ≠ k) →
         g' !! k = MapView.grids this !! k)) as Hnone.
  { intros path -> Hinner. eexists. split; [reflexivity|].
    cbn zeta. rewrite Hinner. unfold coords. cbn [fmap list_fmap].
    split; [apply not_elem_of_nil|]. split; [apply not_elem_of_nil|].
    split; [intros c Hc; by apply not_elem_of_nil in Hc|].
    split; [intros c Hc; by apply not_elem_of_nil in Hc|].
    split; [apply lookup_insert_eq|].
    intros k Hk _. by apply lookup_insert_ne. }
  destruct res as [path|].
  2:{ eexists. split; [reflexivity|]. cbn zeta.
      split; [apply not_elem_of_nil|]. split; [apply not_elem_of_nil|].
      split; [intros c Hc; by apply not_elem_of_nil in Hc|].
      split; [intros c Hc; by apply not_elem_of_nil in Hc|].
      split; [apply lookup_insert_eq|].
      intros k Hk _. by apply lookup_insert_ne. }
  destruct (Nat.ltb_spec 2 (length path)) as [Hlong|Hshort].
  2:{ apply (Hnone path); [reflexivity|].
      unfold MapView.inner. apply inner_short. lia. }
  clear Hnone.
  pose proof (findPath_NoDup astar s (x, y) path Hfind1) as Hnodup.
  destruct (inner_cells astar s (x, y) path Hres Hnodup)
    as (Hstart & Hend & Hsub).
  assert (∀ c, c ∈ coords (MapView.inner path) → MapView.clickable this c)
    as Hfree.
  { intros c Hc%Hsub. destruct Hres as [_ _ _ Hcells].
    rewrite Forall_forall in Hcells. destruct (Hcells c Hc) as [Hb Ho].
    unfold in_bounds, is_obstacle in *.
    apply isValidCoordinate_spec in Hb. cbn [AStar.mapSize astar] in Hb.
    split; [exact Hb|]. unfold MapView.isObstacle.
    apply bool_decide_eq_false. intros Hin. apply Ho.
    cbn [AStar.obstacles astar]. by apply elem_of_list_to_set. }
  destruct (forEach_draw
    (λ node : AStar.PathNode, AStar.key (AStar.x node) (AStar.y node))
    (λ _ _, false) 0x0000FF
    (λ this node,
       MapView.drawHexagon this
         (AStar.key (AStar.x node) (AStar.y node)) 0x0000FF)
    (MapView.inner path) (λ _ _, eq_refl) this1)
    as (g' & Hrun & Hdrawn & Hkept & _).
  { intros node Hnode _. unfold this1. cbn [MapView.grids].
    assert (MapView.clickable this (pos node)) as [[? ?] _].
    { apply Hfree. unfold coords. apply list_elem_of_fmap. by exists node. }
    destruct (decide (AStar.key x y
                      = AStar.key (AStar.x node) (AStar.y node))) as [<-|Hne].
    - rewrite lookup_insert_eq. by eexists.
    - rewrite lookup_insert_ne by assumption.
      by apply (MapView.ready_grids _ HR). }
  exists g'. split; [exact Hrun|]. cbn zeta.
  split; [exact Hstart|]. split; [exact Hend|]. split; [exact Hfree|].
  split; [|split].
  - intros c (node & -> & Hnode)%list_elem_of_fmap.
    by apply Hdrawn.
  - rewrite Hkept; [apply lookup_insert_eq|].
    intros node Hnode _ Heq. apply Hend.
    apply key_inj in Heq as [Hx Hy]. unfold coords.
    apply list_elem_of_fmap. exists node. split; [|done].
    unfold pos. by rewrite Hx, Hy.
  - intros k Hk Hblue. rewrite Hkept.
    + unfold this1. cbn [MapView.grids]. by apply lookup_insert_ne.
    + intros node Hnode _. apply (Hblue (pos node)).
      unfold coords. apply list_elem_of_fmap. by exists node.
Qed.

(** The click that follows a drawn path: the map is reset and the cell
    becomes the new start. *)
Lemma third_click this s e x y :
  MapView.Ready this →
  MapView.startPos this = Some s → MapView.endPos this = Some e →
  MapView.clickable this (x, y) →
  ∃ g',
    MapView.onGridClick this x y =
      Return (MapView.mk (MapView.obstacles this) (Some (x, y)) None g') ∧
    g' !! AStar.key x y = Some 0x00FF00 ∧
    (∀ c, MapView.clickable this c → c ≠ (x, y) →
       g' !! AStar.key c.1 c.2 = Some 0xFFFFFF) ∧
    (∀ k, k ∈ MapView.obstacles this → g' !! k = MapView.grids this !! k).
Proof.
  intros HR Hs He Hclick.
  destruct (forEach_draw
    (λ p : Z * Z, AStar.key p.1 p.2)
    (λ obstacles p, bool_decide (AStar.key p.1 p.2 ∈ obstacles)) 0xFFFFFF
    (λ this p,
       let position := AStar.key p.1 p.2 in
       if MapView.isObstacle this position then Return this
       else MapView.drawHexagon this position 0xFFFFFF)
    MapView.positions (λ _ _, eq_refl) this)
    as (g1 & Hrun & Hdrawn & Hkept & Hall).
  { intros [px py] [Hpx Hpy]%positions_spec _.
    exact (MapView.ready_grids _ HR px py Hpx Hpy). }
  assert (g1 !! AStar.key x y = Some 0xFFFFFF) as Hxy.
  { destruct Hclick as [Hrange Hfree]. apply (Hdrawn (x, y)).
    - by apply positions_spec.
    - exact Hfree. }
  assert (MapView.resetMap this =
          Return (MapView.mk (MapView.obstacles this) None None g1)) as Hreset.
  { unfold MapView.resetMap. cbv zeta in Hrun |- *. by rewrite Hrun. }
  eexists. split.
  { unfold MapView.onGridClick. rewrite Hs, He, Hreset, !bind_Return.
    cbn [MapView.grids MapView.startPos MapView.endPos MapView.obstacles].
    rewrite drawHexagon_Return
      by (cbn [MapView.grids]; rewrite Hxy; by eexists).
    reflexivity. }
  cbn [MapView.grids MapView.startPos MapView.endPos MapView.obstacles].
  split; [apply lookup_insert_eq|]. split.
  - intros [c1 c2] [Hrange Hfree] Hne. rewrite lookup_insert_ne.
    + apply (Hdrawn (c1, c2)); [by apply positions_spec|exact Hfree].
    + intros [? ?]%key_inj. simpl in *. congruence.
  - intros k Hk. rewrite lookup_insert_ne.
    + apply Hkept. intros p _ Hskip Heq. apply bool_decide_eq_false in Hskip.
      apply Hskip. by rewrite Heq.
    + intros <-. destruct Hclick as [_ Hfree].
      unfold MapView.isObstacle in Hfree.
      apply bool_decide_eq_false in Hfree. by apply Hfree.
Qed.

Lemma clickable_obstacles this this' p :
  MapView.obstacles this' = MapView.obstacles this →
  MapView.clickable this p → MapView.clickable this' p.
Proof.
  intros Hobs [Hrange Hfree]. split; [exact Hrange|].
  unfold MapView.isObstacle in *. by rewrite Hobs.
Qed.

(** A click on a cell that has a handler returns and keeps the view
    ready for the next click. *)
Lemma click_Ready this x y :
  MapView.Ready this → MapView.clickable this (x, y) →
  ∃ this',
    MapView.onGridClick this x y = Return this' ∧ MapView.Ready this' ∧
    MapView.obstacles this' = MapView.obstacles this.
Proof.
  intros HR Hclick.
  destruct (MapView.startPos this) as [s|] eqn:Hs.
  2:{ destruct (first_click this x y HR Hs Hclick) as [Hrun HR'].
      eexists. split; [exact Hrun|]. split; [exact HR'|reflexivity]. }
  destruct (MapView.endPos this) as [e|] eqn:He.
  - destruct (third_click this s e x y HR Hs He Hclick)
      as (g' & Hrun & Hgreen & Hwhite & Hobs).
    eexists. split; [exact Hrun|]. split; [|reflexivity].
    assert (∀ c, MapView.clickable this c →
              is_Some (g' !! AStar.key c.1 c.2)) as Hshapes.
    { intros c Hc. destruct (decide (c = (x, y))) as [->|Hne].
      - cbn [fst snd]. rewrite Hgreen. by eexists.
      - rewrite (Hwhite c Hc Hne). by eexists. }
    split; cbn [MapView.grids MapView.startPos MapView.endPos].
    + intros cx cy Hcx Hcy.
      destruct (MapView.isObstacle this (AStar.key cx cy)) eqn:Hobst.
      * rewrite Hobs.
        -- by apply (MapView.ready_grids _ HR).
        -- unfold MapView.isObstacle in Hobst.
           by apply bool_decide_eq_true in Hobst.
      * apply (Hshapes (cx, cy)). by split.
    + intros p [= <-]. exact Hclick.
    + intros p [=].
    + intros cx cy Hcx Hcy Hobst. rewrite Hobs.
      * by apply (MapView.ready_red _ HR).
      * unfold MapView.isObstacle in Hobst.
        by apply bool_decide_eq_true in Hobst.
  - destruct (second_click this s x y HR Hs He Hclick)
      as (res & g' & _ & Hrun & _ & _ & Hfree & Hblue & Hpink & Hkept).
    eexists. split; [exact Hrun|]. split; [|reflexivity].
    set (blue := match res with
                 | Some path => coords (MapView.inner path)
                 | None => []
                 end) in *.
    assert (∀ k, is_Some (MapView.grids this !! k) → is_Some (g' !! k))
      as Hshapes.
    { intros k Hk. destruct (decide (k = AStar.key x y)) as [->|Hne].
      { rewrite Hpink. by eexists. }
      destruct (decide (k ∈ (λ c : Z * Z, AStar.key c.1 c.2) <$> blue))
        as [(c & -> & Hc)%list_elem_of_fmap|Hnot].
      { rewrite (Hblue c Hc). by eexists. }
      rewrite Hkept; [done|done|].
      intros c Hc Heq. apply Hnot, list_elem_of_fmap. by exists c. }
    split; cbn [MapView.grids MapView.startPos MapView.endPos].
    + intros cx cy Hcx Hcy. by apply Hshapes, (MapView.ready_grids _ HR).
    + intros p [= <-]. by apply (MapView.ready_start _ HR).
    + intros p [= <-]. split; [exact Hclick|by eexists].
    + intros cx cy Hcx Hcy Hobst.
      change (MapView.isObstacle this (AStar.key cx cy) = true) in Hobst.
      rewrite Hkept.
      * by apply (MapView.ready_red _ HR).
      * intros Heq. destruct Hclick as [_ Hclick]. cbn [fst snd] in Hclick.
        rewrite <-Heq in Hclick. congruence.
      * intros c Hc Heq. destruct (Hfree c Hc) as [_ Hcfree].
        rewrite Heq in Hcfree. congruence.
Qed.

Lemma start_view_clickable obstacles p :
  MapView.clickable (MapView.start_view obstacles) p ↔
  (0 ≤ p.1 < MapView.MAP_SIZE ∧ 0 ≤ p.2 < MapView.MAP_SIZE) ∧
  AStar.key p.1 p.2 ∉ obstacles.
Proof.
  unfold MapView.clickable, MapView.isObstacle, MapView.start_view.
  cbn [MapView.initMap MapView.obstacles].
  by rewrite bool_decide_eq_false.
Qed.

Lemma clicks_Ready cs : ∀ this,
  MapView.Ready this → Forall (MapView.clickable this) cs →
  ∃ this',
    MapView.clicks this cs = Return this' ∧ MapView.Ready this' ∧
    MapView.obstacles this' = MapView.obstacles this.
Proof.
  unfold MapView.clicks.
  induction cs as [|[x y] cs IH]; intros this HR Hcs.
  { exists this. done. }
  apply Forall_cons in Hcs as [Hc Hcs].
  destruct (click_Ready this x y HR Hc) as (this1 & Hrun & HR1 & Hobs1).
  destruct (IH this1 HR1) as (this' & Hrun' & HR' & Hobs').
  { eapply Forall_impl; [exact Hcs|]. intros p.
    by apply clickable_obstacles. }
  exists this'. rewrite forEach_cons. cbn [fst snd]. rewrite Hrun, bind_Return.
  split; [exact Hrun'|]. split; [exact HR'|congruence].
Qed.

(** X22. Whatever the list of obstacle keys, no sequence of clicks on
    cells that have a click handler (cells of the map that are not
    obstacles) makes a handler throw: [AStar.findPath] is only called with
    a valid start and end, every shape that is drawn exists, and between
    clicks every cell of the map has its shape, the chosen cells are cells
    with a handler and the obstacle cells are still red. *)
Theorem clicks_never_throw obstacles cs :
  Forall (MapView.clickable (MapView.start_view obstacles)) cs →
  ∃ this,
    MapView.clicks (MapView.start_view obstacles) cs = Return this ∧
    MapView.Ready this ∧ MapView.obstacles this = obstacles.
Proof.
  intros Hcs.
  destruct (clicks_Ready cs (MapView.start_view obstacles)
              (start_view_Ready obstacles) Hcs) as (this & Hrun & HR & Hobs).
  exists this. split; [exact Hrun|]. split; [exact HR|exact Hobs].
Qed.

Lemma clicks_never_throw_witness :
  ∃ this,
    MapView.clicks (MapView.start_view ["3,1"]) [(0, 0); (2, 0); (5, 5)]
    = Return this.
Proof.
  destruct (clicks_never_throw ["3,1"] [(0, 0); (2, 0); (5, 5)])
    as (this & Hrun & _).
  - assert (∀ p, (0 ≤ p.1 < 100 ∧ 0 ≤ p.2 < 100) →
              AStar.key p.1 p.2 ∉ ["3,1"] →
              MapView.clickable (MapView.start_view ["3,1"]) p) as Hc.
    { intros p Hp Hk. apply start_view_clickable. split; [exact Hp|exact Hk]. }
    constructor; [apply Hc; [simpl; lia|by_evaluation]|].
    constructor; [apply Hc; [simpl; lia|by_evaluation]|].
    constructor; [apply Hc; [simpl; lia|by_evaluation]|].
    constructor.
  - exists this. exact Hrun.
Defined.

(** X23. When a start is chosen and no end, a click on a cell with a
    handler makes that cell the end and calls [AStar.findPath] on the start
    and the end, which returns.  After the click the end cell is pink, the
    cells of the returned path other than its first and last are blue, and
    every other shape keeps its colour; the blue cells are cells with a
    handler, and neither the start nor the end is among them.  So the start
    cell keeps the colour it had, unless it is the cell that was clicked:
    then it is the end as well and is pink. *)
Theorem second_click_colours this s x y :
  MapView.Ready this →
  MapView.startPos this = Some s → MapView.endPos this = None →
  MapView.clickable this (x, y) →
  ∃ res g',
    (AStar.findPath
       (AStar.mkAStar MapView.MAP_SIZE
          (list_to_set (MapView.obstacles this)) None) s (x, y)).1
    = Return res ∧
    MapView.onGridClick this x y =
      Return (MapView.mk (MapView.obstacles this) (Some s) (Some (x, y)) g') ∧
    let blue :=
      match res with
      | Some path => coords (MapView.inner path)
      | None => []
      end in
    (s ∉ blue) ∧ ((x, y) ∉ blue) ∧
    (∀ c, c ∈ blue → MapView.clickable this c) ∧
    (∀ c, c ∈ blue → g' !! AStar.key c.1 c.2 = Some 0x0000FF) ∧
    g' !! AStar.key x y = Some 0xFF00FF ∧
    (∀ k, k ≠ AStar.key x y → (∀ c, c ∈ blue → AStar.key c.1 c.2 ≠ k) →
       g' !! k = MapView.grids this !! k) ∧
    ((x, y) ≠ s →
     g' !! AStar.key s.1 s.2 = MapView.grids this !! AStar.key s.1 s.2) ∧
    ((x, y) = s → g' !! AStar.key s.1 s.2 = Some 0xFF00FF).
Proof.
  intros HR Hs He Hc.
  destruct (second_click this s x y HR Hs He Hc)
    as (res & g' & Hfind & Hrun & Hblue).
  exists res, g'. split; [exact Hfind|]. split; [exact Hrun|].
  cbv zeta in Hblue. cbv zeta.
  destruct Hblue as (Hsb & Heb & Hcl & Hbl & Hpink & Hframe).
  split; [exact Hsb|]. split; [exact Heb|]. split; [exact Hcl|].
  split; [exact Hbl|]. split; [exact Hpink|]. split; [exact Hframe|].
  split.
  - intros Hne. apply Hframe.
    + intros [Hx Hy]%key_inj. apply Hne. destruct s. simpl in *. congruence.
    + intros c Hcb [Hx Hy]%key_inj. apply Hsb.
      destruct c, s. simpl in *. congruence.
  - intros <-. exact Hpink.
Qed.

Lemma second_click_colours_witness :
  ∃ g',
    MapView.onGridClick
      (MapView.mk ["3,1"] (Some (0, 0)) None
         (<[AStar.key 0 0 := 0x00FF00]>
            (MapView.grids (MapView.start_view ["3,1"])))) 2 0
    = Return (MapView.mk ["3,1"] (Some (0, 0)) (Some (2, 0)) g') ∧
    g' !! AStar.key 0 0 = Some 0x00FF00 ∧
    g' !! AStar.key 2 0 = Some 0xFF00FF.
Proof.
  destruct (first_click (MapView.start_view ["3,1"]) 0 0) as [_ HR].
  { apply start_view_Ready. }
  { reflexivity. }
  { apply start_view_clickable. split;
      [unfold MapView.MAP_SIZE; simpl; lia|by_evaluation]. }
  change (MapView.Ready
            (MapView.mk ["3,1"] (Some (0, 0)) None
               (<[AStar.key 0 0 := 0x00FF00]>
                  (MapView.grids (MapView.start_view ["3,1"]))))) in HR.
  destruct (second_click_colours _ (0, 0) 2 0 HR)
    as (res & g' & _ & Hrun & Hcol).
  - reflexivity.
  - reflexivity.
  - split; [unfold MapView.MAP_SIZE; simpl; lia|].
    unfold MapView.isObstacle. cbn [MapView.obstacles fst snd]. by_evaluation.
  - cbv zeta in Hcol.
    destruct Hcol as (_ & _ & _ & _ & Hpink & _ & Hkeep & _).
    exists g'. split; [exact Hrun|]. split; [|exact Hpink].
    cbn [fst snd MapView.grids] in Hkeep.
    rewrite Hkeep by (intros [=]). apply lookup_insert_eq.
Defined.

(** X24. When a start and an end are chosen, a click on a cell with a
    handler resets the map and makes that cell the new start, with no end:
    after the click the cell is green, every other cell with a handler is
    white, and the shapes of the obstacle keys keep their colour. *)
Theorem third_click_resets this s e x y :
  MapView.Ready this →
  MapView.startPos this = Some s → MapView.endPos this = Some e →
  MapView.clickable this (x, y) →
  ∃ g',
    MapView.onGridClick this x y =
      Return (MapView.mk (MapView.obstacles this) (Some (x, y)) None g') ∧
    g' !! AStar.key x y = Some 0x00FF00 ∧
    (∀ c, MapView.clickable this c → c ≠ (x, y) →
       g' !! AStar.key c.1 c.2 = Some 0xFFFFFF) ∧
    (∀ k, k ∈ MapView.obstacles this → g' !! k = MapView.grids this !! k).
Proof. apply third_click. Qed.

Lemma third_click_resets_witness :
  ∃ this this',
    MapView.Ready this ∧ MapView.startPos this = Some (0, 0) ∧
    MapView.endPos this = Some (2, 0) ∧
    MapView.onGridClick this 5 5 = Return this' ∧
    MapView.startPos this' = Some (5, 5) ∧ MapView.endPos this' = None.
Proof.
  destruct (first_click (MapView.start_view ["3,1"]) 0 0) as [_ HR1].
  { apply start_view_Ready. }
  { reflexivity. }
  { apply start_view_clickable. split;
      [unfold MapView.MAP_SIZE; simpl; lia|by_evaluation]. }
  change (MapView.Ready
            (MapView.mk ["3,1"] (Some (0, 0)) None
               (<[AStar.key 0 0 := 0x00FF00]>
                  (MapView.grids (MapView.start_view ["3,1"]))))) in HR1.
  assert (∀ p, (0 ≤ p.1 < 100 ∧ 0 ≤ p.2 < 100) →
            AStar.key p.1 p.2 ≠ "3,1" →
            MapView.clickable
              (MapView.mk ["3,1"] (Some (0, 0)) None
                 (<[AStar.key 0 0 := 0x00FF00]>
                    (MapView.grids (MapView.start_view ["3,1"])))) p) as Hc.
  { intros p Hp Hk. split; [exact Hp|].
    unfold MapView.isObstacle. cbn [MapView.obstacles].
    apply bool_decide_eq_false. intros Hin%list_elem_of_singleton.
    by apply Hk. }
  destruct (click_Ready _ 2 0 HR1) as (this2 & Hrun2 & HR2 & Hobs2).
  { apply Hc; [simpl; lia|by_evaluation]. }
  destruct (second_click _ (0, 0) 2 0 HR1 eq_refl eq_refl)
    as (res & g' & _ & Hrun2' & _).
  { apply Hc; [simpl; lia|by_evaluation]. }
  rewrite Hrun2' in Hrun2. injection Hrun2 as <-.
  destruct (third_click_resets _ (0, 0) (2, 0) 5 5 HR2 eq_refl eq_refl)
    as (g'' & Hrun3 & _).
  { split; [unfold MapView.MAP_SIZE; simpl; lia|].
    unfold MapView.isObstacle. cbn [MapView.obstacles fst snd].
    by_evaluation. }
  eexists _, _. split; [exact HR2|]. split; [reflexivity|].
  split; [reflexivity|]. split; [exact Hrun3|]. split; reflexivity.
Defined.

(** ** The scene of class [Main] *)

(** X25. Whatever [Math.random] gives, the search of [createGameScene]
    (from node 240 to node 0 of a 50 x 50 map) returns.  When the links lead
    from node 240 to node 0 the scene draws in red the cells of a path that
    follows the links; when they do not, the search returns [null] and the
    loop over the path throws a [TypeError]. *)
Theorem createGameScene_cases random :
  let map_data :=
    <[240%nat := 0]> (<[0%nat := 0]> (Scene.createMap random 50 50)) in
  let map_node := Main.createNodes 50 50 map_data in
  (Scene.createGameScene random = Throw TypeError ↔
   ¬ rtc (linked map_node) 240%nat 0%nat) ∧
  (rtc (linked map_node) 240%nat 0%nat →
   ∃ black path,
     Scene.createGameScene random = Return (black, Main.cells map_node path) ∧
     head path = Some 0%nat ∧ NoDup path ∧
     link_path map_node (240%nat :: reverse path)).
Proof.
  intros map_data map_node.
  assert (length map_data = 2500%nat) as Hlen.
  { unfold map_data, Scene.createMap.
    by rewrite !length_insert, length_fmap, length_seq. }
  assert (length map_node = 2500%nat) as Hlen'.
  { unfold map_node, Main.createNodes. by rewrite length_imap. }
  destruct (lookup_lt_is_Some_2 map_node 240%nat) as [s Hs]; [lia|].
  destruct (lookup_lt_is_Some_2 map_node 0%nat) as [e He]; [lia|].
  destruct (search_first_column 50 50 map_data 240%nat 0%nat e
              (Scene.search_fuel (length map_node))) as [res Hres].
  - lia.
  - by exists s.
  - exact He.
  - by destruct (createNodes_lookup _ _ _ _ _ He) as (_ & _ & _ & -> & _).
  - unfold Scene.search_fuel. lia.
  - fold map_node in Hres.
    assert (Scene.createGameScene random =
            match res with
            | Some path =>
                Return
                  (omap (λ n, if Main.v n =? 1
                              then Some (Main.x n, Main.y n) else None)
                     map_node, Main.cells map_node path)
            | None => Throw TypeError
            end) as Hscene.
    { unfold Scene.createGameScene. cbv zeta. fold map_data. fold map_node.
      by rewrite Hres. }
    destruct (search_spec _ _ _ _ _ (createNodes_fresh 50 50 map_data) Hres)
      as [[[=] _]|[_ Hcases]].
    rewrite Hscene. destruct res as [path|].
    + destruct Hcases as (Hhead & _ & Hnodup & Hpath).
      assert (rtc (linked map_node) 240%nat 0%nat) as Hreach.
      { apply (link_path_rtc map_node (reverse path)); [done|].
        destruct path as [|e' l]; [done|]. injection Hhead as ->.
        rewrite reverse_cons, app_comm_cons. by rewrite last_snoc. }
      split; [split; [done|by intros []]|].
      intros _. by eexists _, path.
    + split; [done|]. intros Hreach. by destruct Hcases.
Qed.

(** ** The square map view *)

Lemma Node_induction (P : MapView2.Node → Prop) :
  (∀ row col g h f, P (MapView2.mkNode row col g h f None)) →
  (∀ row col g h f parent,
     P parent → P (MapView2.mkNode row col g h f (Some parent))) →
  ∀ n, P n.
Proof.
  intros Hroot Hchild. fix IH 1. intros [row col g h f [parent|]].
  - apply Hchild, IH.
  - apply Hroot.
Qed.

Lemma getNeighbors2_spec this node n :
  n ∈ MapView2.getNeighbors this node ↔
  ∃ q, MapView2.step this (MapView2.cell node) q ∧
       n = MapView2.mkNode q.1 q.2 0 0 0 None.
Proof.
  unfold MapView2.getNeighbors, MapView2.step, MapView2.passable,
    MapView2.isObstacle, MapView2.cell.
  rewrite list_elem_of_In, in_flat_map. split.
  - intros ([d1 d2] & Hd%list_elem_of_In & Hn%list_elem_of_In). simpl in Hn.
    destruct (_ && _) eqn:Hrange; [|by apply not_elem_of_nil in Hn].
    destruct (bool_decide _) eqn:Hobs; simpl in Hn;
      [by apply not_elem_of_nil in Hn|].
    apply list_elem_of_singleton in Hn as ->.
    apply bool_decide_eq_false in Hobs.
    exists (MapView2.row node + d1, MapView2.col node + d2). simpl.
    split; [|done]. split; [split; [lia|done]|].
    by replace (MapView2.row node + d1 - MapView2.row node) with d1 by lia;
      replace (MapView2.col node + d2 - MapView2.col node) with d2 by lia.
  - intros ([q1 q2] & [[Hrange Hobs] Hd] & ->). cbn [fst snd] in *.
    exists (q1 - MapView2.row node, q2 - MapView2.col node).
    split; [by apply list_elem_of_In|]. cbn [fst snd].
    replace (MapView2.row node + (q1 - MapView2.row node)) with q1 by lia.
    replace (MapView2.col node + (q2 - MapView2.col node)) with q2 by lia.
    replace (_ && _) with true by lia.
    rewrite bool_decide_eq_false_2 by done. simpl. by left.
Qed.

Lemma isInList_spec node list :
  MapView2.isInList node list = true ↔
  MapView2.cell node ∈ MapView2.cell <$> list.
Proof.
  unfold MapView2.isInList. rewrite existsb_exists, list_elem_of_fmap.
  unfold MapView2.cell. split.
  - intros (item & Hitem%list_elem_of_In & Heq). exists item.
    split; [|done]. f_equal; lia.
  - intros (item & [= Hr Hc] & Hitem). exists item.
    split; [by apply list_elem_of_In|]. lia.
Qed.

Lemma getMinFNode2_elem minNode rest :
  MapView2.getMinFNode minNode rest ∈ minNode :: rest.
Proof.
  unfold MapView2.getMinFNode. revert minNode.
  induction rest as [|n rest IH]; intros minNode; simpl; [by left|].
  destruct (MapView2.f n <? MapView2.f minNode).
  - right. apply IH.
  - pose proof (IH minNode) as [Heq|Hin]%elem_of_cons.
    + rewrite Heq. by left.
    + right. by right.
Qed.

Lemma visitNeighbor2_cases end_ cur closedList openList nb :
  MapView2.visitNeighbor end_ cur closedList openList nb =
  if MapView2.isInList nb closedList || MapView2.isInList nb openList
  then openList
  else
    openList ++
    [MapView2.mkNode (MapView2.row nb) (MapView2.col nb) (MapView2.g cur + 1)
       (Z.abs (end_.1 - MapView2.row nb) + Z.abs (end_.2 - MapView2.col nb))
       (MapView2.g cur + 1 +
        (Z.abs (end_.1 - MapView2.row nb) + Z.abs (end_.2 - MapView2.col nb)))
       (Some cur)].
Proof.
  unfold MapView2.visitNeighbor.
  destruct (MapView2.isInList nb closedList); [done|].
  destruct (MapView2.isInList nb openList); simpl; [|done].
  by destruct (_ <? _).
Qed.

(** The loop over the neighbours of the current node. *)
Lemma visit_all2 this start end_ cur closedList nbs : ∀ openList,
  (∀ nb, nb ∈ nbs → MapView2.step this (MapView2.cell cur) (MapView2.cell nb)) →
  MapView2.rooted this start cur →
  (∀ n, n ∈ openList →
     MapView2.rooted this start n ∧ MapView2.passable this (MapView2.cell n)) →
  NoDup (MapView2.cell <$> openList) →
  (∀ n, n ∈ openList → MapView2.cell n ∉ MapView2.cell <$> closedList) →
  let openList' :=
    foldl (MapView2.visitNeighbor end_ cur closedList) openList nbs in
  (∀ n, n ∈ openList' →
     MapView2.rooted this start n ∧ MapView2.passable this (MapView2.cell n)) ∧
  NoDup (MapView2.cell <$> openList') ∧
  (∀ n, n ∈ openList' → MapView2.cell n ∉ MapView2.cell <$> closedList) ∧
  (∀ n, n ∈ openList → n ∈ openList') ∧
  (∀ nb, nb ∈ nbs →
     MapView2.cell nb ∈ MapView2.cell <$> closedList ∨
     MapView2.cell nb ∈ MapView2.cell <$> openList').
Proof.
  induction nbs as [|nb nbs IH]; intros openList Hnbs Hcur Hopen Hnodup Hdisj.
  { simpl. do 4 (split; [done|]). intros nb Hnb.
    by apply not_elem_of_nil in Hnb. }
  simpl. rewrite visitNeighbor2_cases.
  assert (∀ nb', nb' ∈ nbs →
            MapView2.step this (MapView2.cell cur) (MapView2.cell nb'))
    as Hnbs' by (intros; apply Hnbs; by right).
  destruct (MapView2.isInList nb closedList) eqn:Hclosed; simpl.
  { destruct (IH openList Hnbs' Hcur Hopen Hnodup Hdisj)
      as (H1 & H2 & H3 & H4 & H5).
    do 4 (split; [done|]).
    intros nb' [->|Hnb']%elem_of_cons; [|by apply H5].
    left. by apply isInList_spec. }
  destruct (MapView2.isInList nb openList) eqn:Hopened.
  { destruct (IH openList Hnbs' Hcur Hopen Hnodup Hdisj)
      as (H1 & H2 & H3 & H4 & H5).
    do 4 (split; [done|]).
    intros nb' [->|Hnb']%elem_of_cons; [|by apply H5].
    right. apply isInList_spec in Hopened.
    apply list_elem_of_fmap in Hopened as (n & Heq & Hn).
    apply list_elem_of_fmap. exists n. split; [done|]. by apply H4. }
  set (nb' := MapView2.mkNode _ _ _ _ _ _).
  assert (MapView2.cell nb' = MapView2.cell nb) as Hcell by done.
  assert (MapView2.cell nb ∉ MapView2.cell <$> closedList) as Hnc.
  { intros Hin%isInList_spec. congruence. }
  assert (MapView2.cell nb ∉ MapView2.cell <$> openList) as Hno.
  { intros Hin%isInList_spec. congruence. }
  destruct (IH (openList ++ [nb'])) as (H1 & H2 & H3 & H4 & H5);
    [done|done|..].
  - intros n [Hn| ->%list_elem_of_singleton]%elem_of_app; [by apply Hopen|].
    assert (MapView2.step this (MapView2.cell cur) (MapView2.cell nb))
      as Hstep by (apply Hnbs; by left).
    split; [|by destruct Hstep]. simpl. split; [|done]. exact Hstep.
  - rewrite fmap_app. apply NoDup_app. split; [done|]. split.
    + intros c Hc [ ->|Hnil]%elem_of_cons; [by rewrite Hcell in Hc|].
      by apply not_elem_of_nil in Hnil.
    + apply NoDup_singleton.
  - intros n [Hn| ->%list_elem_of_singleton]%elem_of_app; [by apply Hdisj|].
    by rewrite Hcell.
  - split; [done|]. split; [done|]. split; [done|]. split.
    + intros n Hn. apply H4, elem_of_app. by left.
    + intros nb0 [ ->|Hnb0]%elem_of_cons; [|by apply H5].
      right. rewrite <-Hcell. apply list_elem_of_fmap. exists nb'.
      split; [done|]. apply H4, elem_of_app. right.
      by apply list_elem_of_singleton.
Qed.

(** A turn of the loop that does not end it keeps the invariant and
    closes one more node. *)
Lemma Lists_turn this start end_ minNode rest closedList :
  MapView2.Lists this start end_ (minNode :: rest) closedList →
  let cur := MapView2.getMinFNode minNode rest in
  MapView2.cell cur ≠ end_ →
  MapView2.Lists this start end_
    (foldl (MapView2.visitNeighbor end_ cur (closedList ++ [cur]))
       (filter (λ node, ¬ (MapView2.row node = MapView2.row cur ∧
                           MapView2.col node = MapView2.col cur))
          (minNode :: rest))
       (MapView2.getNeighbors this cur))
    (closedList ++ [cur]).
Proof.
  intros [Hrooted Hpass Hnodup Hstart Hend Hclosed] cur Hne.
  set (openList := minNode :: rest) in *.
  assert (cur ∈ openList) as Hcur by apply getMinFNode2_elem.
  set (openList1 := filter _ openList).
  assert (∀ n, n ∈ openList1 ↔ n ∈ openList ∧ MapView2.cell n ≠ MapView2.cell cur)
    as Hopen1.
  { intros n. unfold openList1. rewrite list_elem_of_filter.
    unfold MapView2.cell. split.
    - intros [Hn ?]. split; [done|]. intros [= ? ?]. by apply Hn.
    - intros [? Hn]. split; [|done]. intros [? ?]. apply Hn. by f_equal. }
  rewrite fmap_app in Hnodup. apply NoDup_app in Hnodup as (Hno & Hdisj & Hnc).
  assert (MapView2.cell cur ∉ MapView2.cell <$> closedList) as Hcurc.
  { apply Hdisj, list_elem_of_fmap. by exists cur. }
  assert (NoDup (MapView2.cell <$> closedList ++ [cur])) as Hnc1.
  { rewrite fmap_app. apply NoDup_app. split; [done|]. split.
    - intros c Hc [->|Hnil]%elem_of_cons; [done|].
      by apply not_elem_of_nil in Hnil.
    - apply NoDup_singleton. }
  destruct (visit_all2 this start end_ cur (closedList ++ [cur])
              (MapView2.getNeighbors this cur) openList1)
    as (H1 & H2 & H3 & H4 & H5).
  - intros nb (q & Hq & ->)%getNeighbors2_spec. by destruct q.
  - apply Hrooted, elem_of_app. by left.
  - intros n [Hn _]%Hopen1. split.
    + apply Hrooted, elem_of_app. by left.
    + apply Hpass, elem_of_app. by left.
  - apply (sublist_NoDup _ (MapView2.cell <$> openList)); [done|].
    apply fmap_sublist, sublist_filter.
  - intros n [Hn Hncur]%Hopen1. rewrite fmap_app.
    intros [Hin|Hin%list_elem_of_singleton]%elem_of_app; [|done].
    apply (Hdisj (MapView2.cell n)); [|done].
    apply list_elem_of_fmap. by exists n.
  - split.
    + intros n [Hn|[Hn| ->%list_elem_of_singleton]%elem_of_app]%elem_of_app.
      * by apply H1.
      * apply Hrooted, elem_of_app. by right.
      * apply Hrooted, elem_of_app. by left.
    + intros n [Hn|[Hn| ->%list_elem_of_singleton]%elem_of_app]%elem_of_app.
      * by apply H1.
      * apply Hpass, elem_of_app. by right.
      * apply Hpass, elem_of_app. by left.
    + rewrite fmap_app. apply NoDup_app. split; [done|]. split; [|done].
      intros c (n & -> & Hn)%list_elem_of_fmap. by apply H3.
    + rewrite fmap_app in Hstart. rewrite !fmap_app.
      apply elem_of_app in Hstart as [(n & -> & Hn)%list_elem_of_fmap|Hs].
      * destruct (decide (MapView2.cell n = MapView2.cell cur)) as [->|Hncur].
        -- apply elem_of_app. right. apply elem_of_app. right.
           by apply list_elem_of_singleton.
        -- apply elem_of_app. left. apply list_elem_of_fmap. exists n.
           split; [done|]. apply H4, Hopen1. done.
      * apply elem_of_app. right. apply elem_of_app. by left.
    + rewrite fmap_app. intros [?|Hin%list_elem_of_singleton]%elem_of_app;
        [done|]. by apply Hne.
    + intros n q [Hn| ->%list_elem_of_singleton]%elem_of_app Hstep.
      * specialize (Hclosed n q Hn Hstep). rewrite !fmap_app in *.
        apply elem_of_app in Hclosed
          as [(m & -> & Hm)%list_elem_of_fmap|Hq].
        -- destruct (decide (MapView2.cell m = MapView2.cell cur))
             as [->|Hmcur].
           ++ apply elem_of_app. right. apply elem_of_app. right.
              by apply list_elem_of_singleton.
           ++ apply elem_of_app. left. apply list_elem_of_fmap. exists m.
              split; [done|]. apply H4, Hopen1. done.
        -- apply elem_of_app. right. apply elem_of_app. by left.
      * destruct (H5 (MapView2.mkNode q.1 q.2 0 0 0 None)) as [Hq|Hq].
        -- apply getNeighbors2_spec. by exists q.
        -- rewrite fmap_app. apply elem_of_app. right.
           by destruct q.
        -- rewrite fmap_app. apply elem_of_app. left. by destruct q.
Qed.

Lemma fill_Return this position color :
  is_Some (MapView2.grids this !! position) →
  MapView2.fill this position color =
  Return (MapView2.mk (MapView2.obstacles this) (MapView2.startPos this)
            (MapView2.endPos this)
            (<[position := color]> (MapView2.grids this))).
Proof. unfold MapView2.fill. by intros [? ->]. Qed.

Lemma isStartOrEnd_spec this s e row col :
  MapView2.startPos this = Some s → MapView2.endPos this = Some e →
  MapView2.isStartOrEnd this row col = true ↔ (row, col) = s ∨ (row, col) = e.
Proof.
  intros Hs He. unfold MapView2.isStartOrEnd. rewrite Hs, He.
  destruct s as [s1 s2], e as [e1 e2]. simpl.
  rewrite orb_true_iff, !andb_true_iff, !Z.eqb_eq. split.
  - intros [[-> ->]|[-> ->]]; auto.
  - intros [[= -> ->]|[= -> ->]]; auto.
Qed.

(** The path is drawn from the end back to the start, on the cells that
    are neither. *)
Lemma drawPath_spec this0 s e n :
  MapView2.rooted this0 s n →
  ∀ this,
    MapView2.obstacles this = MapView2.obstacles this0 →
    MapView2.startPos this = Some s → MapView2.endPos this = Some e →
    (∀ p, MapView2.passable this0 p →
       is_Some (MapView2.grids this !! AStar.key p.1 p.2)) →
    ∃ g',
      MapView2.drawPath this n =
        Return (MapView2.mk (MapView2.obstacles this0) (Some s) (Some e) g') ∧
      (∀ c, c ∈ MapView2.cells n → c ≠ s → c ≠ e →
         g' !! AStar.key c.1 c.2 = Some 0x0000FF) ∧
      (∀ k, (∀ c, c ∈ MapView2.cells n → c ≠ s → c ≠ e →
               AStar.key c.1 c.2 ≠ k) →
         g' !! k = MapView2.grids this !! k) ∧
      (∀ k, g' !! k = Some 0x0000FF ∨ g' !! k = MapView2.grids this !! k).
Proof.
  induction n as [row col g h f|row col g h f parent IH] using Node_induction.
  - intros Hroot this Hobs Hs He Hshapes. simpl in *.
    exists (MapView2.grids this). split.
    { destruct this. simpl in *. by rewrite Hobs, Hs, He. }
    split; [|by auto].
    intros c ->%list_elem_of_singleton Hc. by rewrite Hroot in Hc.
  - intros [Hstep Hroot] this Hobs Hs He Hshapes. simpl.
    destruct (MapView2.isStartOrEnd this row col) eqn:Hse.
    + apply (isStartOrEnd_spec _ s e _ _ Hs He) in Hse.
      destruct (IH Hroot this Hobs Hs He Hshapes)
        as (g' & Hrun & Hblue & Hkept & Hall).
      exists g'. split; [done|]. split; [|split; [|done]].
      * intros c [->|Hc]%elem_of_cons Hcs Hce; [by destruct Hse|].
        by apply Hblue.
      * intros k Hk. apply Hkept. intros c Hc. apply Hk. by right.
    + assert (¬ ((row, col) = s ∨ (row, col) = e)) as Hnot.
      { intros Hor. apply (isStartOrEnd_spec this s e row col Hs He) in Hor.
        congruence. }
      rewrite fill_Return by (apply (Hshapes (row, col)); by destruct Hstep).
      rewrite bind_Return. set (this1 := MapView2.mk _ _ _ _).
      destruct (IH Hroot this1 Hobs Hs He)
        as (g' & Hrun & Hblue & Hkept & Hall).
      { intros p Hp. unfold this1. simpl.
        destruct (decide (AStar.key row col = AStar.key p.1 p.2)) as [->|?].
        - rewrite lookup_insert_eq. by eexists.
        - rewrite lookup_insert_ne by done. by apply Hshapes. }
      exists g'. split; [done|]. split; [|split].
      * intros c [->|Hc]%elem_of_cons Hcs Hce; [|by apply Hblue].
        destruct (Hall (AStar.key row col)) as [?|Heq]; [done|].
        simpl. rewrite Heq. unfold this1. simpl. apply lookup_insert_eq.
      * intros k Hk. rewrite Hkept.
        -- unfold this1. simpl. apply lookup_insert_ne.
           apply (Hk (row, col)); [by left|naive_solver|naive_solver].
        -- intros c Hc. apply Hk. by right.
      * intros k. destruct (Hall k) as [?|Heq]; [by left|].
        rewrite Heq. unfold this1. simpl.
        destruct (decide (AStar.key row col = k)) as [->|?].
        -- left. apply lookup_insert_eq.
        -- right. by apply lookup_insert_ne.
Qed.

Lemma steps_snoc this l p q :
  MapView2.steps this (l ++ [p]) → MapView2.step this p q →
  MapView2.steps this (l ++ [p; q]).
Proof.
  induction l as [|x l IH]; simpl; [done|].
  destruct l as [|y l]; simpl in *.
  - intros [? _] ?. done.
  - intros [? ?] ?. split; [done|]. by apply IH.
Qed.

(** Read from the root, the cells of a node are a walk from the start. *)
Lemma rooted_path this s n :
  MapView2.rooted this s n →
  head (reverse (MapView2.cells n)) = Some s ∧
  last (reverse (MapView2.cells n)) = Some (MapView2.cell n) ∧
  MapView2.steps this (reverse (MapView2.cells n)).
Proof.
  induction n as [row col g h f|row col g h f parent IH] using Node_induction.
  - intros Hroot. simpl in *. subst s. done.
  - intros [Hstep Hroot]. simpl.
    destruct (IH Hroot) as (Hhead & Hlast & Hsteps).
    rewrite reverse_cons. split; [|split].
    + destruct (reverse (MapView2.cells parent)); [done|]. done.
    + by rewrite last_snoc.
    + destruct (reverse (MapView2.cells parent)) as [|c l] eqn:Hrev using rev_ind;
        [done|].
      rewrite last_snoc in Hlast. injection Hlast as ->.
      rewrite <-app_assoc. by apply steps_snoc.
Qed.

Lemma closed_bound2 this (l : list MapView2.Node) :
  NoDup (MapView2.cell <$> l) →
  (∀ n, n ∈ l → MapView2.passable this (MapView2.cell n)) →
  (length l ≤ 64)%nat.
Proof.
  intros Hnodup Hpass.
  assert (MapView2.cell <$> l ⊆+ cells (AStar.mkAStar 8 ∅ None)) as Hsub.
  { apply NoDup_submseteq; [done|].
    intros [r c] (n & Heq & Hn)%list_elem_of_fmap.
    destruct (Hpass n Hn) as [Hrange _]. rewrite <-Heq in Hrange.
    apply cells_spec, isValidCoordinate_spec. simpl in *.
    unfold MapView2.MAP_SIZE in Hrange. lia. }
  apply submseteq_length in Hsub. rewrite length_fmap in Hsub.
  pose proof (cells_length (AStar.mkAStar 8 ∅ None)) as Hlen.
  cbn [AStar.mapSize] in Hlen. lia.
Qed.

(** The loop of [findPath], from any state that the invariant allows. *)
Lemma findPath2_loop this s e :
  MapView2.startPos this = Some s → MapView2.endPos this = Some e →
  (∀ p, MapView2.passable this p →
     is_Some (MapView2.grids this !! AStar.key p.1 p.2)) →
  ∀ fuel openList closedList,
    MapView2.Lists this s e openList closedList →
    (64 < fuel + length closedList)%nat →
    ∃ g',
      MapView2.findPath_loop fuel this e openList closedList =
        Return (MapView2.mk (MapView2.obstacles this) (Some s) (Some e) g') ∧
      ((¬ rtc (MapView2.step this) s e ∧ g' = MapView2.grids this) ∨
       (∃ path,
          head path = Some s ∧ last path = Some e ∧
          MapView2.steps this path ∧
          (∀ c, c ∈ path → c ≠ s → c ≠ e →
             g' !! AStar.key c.1 c.2 = Some 0x0000FF) ∧
          (∀ k, (∀ c, c ∈ path → c ≠ s → c ≠ e → AStar.key c.1 c.2 ≠ k) →
             g' !! k = MapView2.grids this !! k))).
Proof.
  intros Hs He Hshapes.
  induction fuel as [|fuel IH]; intros openList closedList HL Hfuel.
  { destruct HL as [_ Hpass Hnodup _ _ _].
    rewrite fmap_app in Hnodup. apply NoDup_app in Hnodup as (_ & _ & Hnc).
    pose proof (closed_bound2 this closedList Hnc) as Hbound.
    simpl in Hfuel. assert (length closedList ≤ 64)%nat; [|lia].
    apply Hbound. intros n Hn. apply Hpass, elem_of_app. by right. }
  simpl. destruct openList as [|minNode rest].
  { exists (MapView2.grids this). split.
    { destruct this. simpl in *. by rewrite Hs, He. }
    left. split; [|done]. intros Hreach.
    destruct HL as [_ _ _ Hstart Hend Hclosed]. simpl in *.
    apply Hend. revert Hreach.
    apply (rtc_ind_r (λ x, x ∈ MapView2.cell <$> closedList)); [done|].
    intros x y _ Hxy (n & -> & Hn)%list_elem_of_fmap.
    by apply (Hclosed n y). }
  set (cur := MapView2.getMinFNode minNode rest).
  destruct ((MapView2.row cur =? e.1) && (MapView2.col cur =? e.2)) eqn:Hend.
  - assert (MapView2.cell cur = e) as Hcell.
    { unfold MapView2.cell. destruct e. simpl in *. f_equal; lia. }
    assert (MapView2.rooted this s cur) as Hroot.
    { apply (MapView2.lists_rooted _ _ _ _ _ HL), elem_of_app. left.
      apply getMinFNode2_elem. }
    destruct (drawPath_spec this s e cur Hroot this eq_refl Hs He Hshapes)
      as (g' & Hrun & Hblue & Hkept & _).
    exists g'. split; [done|]. right.
    destruct (rooted_path this s cur Hroot) as (Hhead & Hlast & Hsteps).
    exists (reverse (MapView2.cells cur)).
    split; [done|]. split; [by rewrite Hlast, Hcell|]. split; [done|].
    split.
    + intros c Hc. apply Hblue. by apply elem_of_reverse.
    + intros k Hk. apply Hkept. intros c Hc. apply Hk.
      by apply elem_of_reverse.
  - apply IH.
    + apply Lists_turn; [done|]. fold cur. intros <-.
      unfold MapView2.cell in Hend. simpl in Hend.
      by rewrite !Z.eqb_refl in Hend.
    + rewrite length_app. simpl. lia.
Qed.

Lemma findPath2_spec this s e :
  MapView2.startPos this = Some s → MapView2.endPos this = Some e →
  MapView2.passable this s → MapView2.passable this e →
  (∀ p, MapView2.passable this p →
     is_Some (MapView2.grids this !! AStar.key p.1 p.2)) →
  ∃ g',
    MapView2.findPath this =
      Return (MapView2.mk (MapView2.obstacles this) (Some s) (Some e) g') ∧
    ((¬ rtc (MapView2.step this) s e ∧ g' = MapView2.grids this) ∨
     (∃ path,
        head path = Some s ∧ last path = Some e ∧
        MapView2.steps this path ∧
        (∀ c, c ∈ path → c ≠ s → c ≠ e →
           g' !! AStar.key c.1 c.2 = Some 0x0000FF) ∧
        (∀ k, (∀ c, c ∈ path → c ≠ s → c ≠ e → AStar.key c.1 c.2 ≠ k) →
           g' !! k = MapView2.grids this !! k))).
Proof.
  intros Hs He Hps Hpe Hshapes. unfold MapView2.findPath. rewrite Hs, He.
  apply (findPath2_loop this s e Hs He Hshapes).
  - split; simpl.
    + intros n ->%list_elem_of_singleton. simpl. by destruct s.
    + intros n ->%list_elem_of_singleton. unfold MapView2.cell. simpl.
      by destruct s.
    + apply NoDup_singleton.
    + apply list_elem_of_singleton. unfold MapView2.cell. simpl. by destruct s.
    + apply not_elem_of_nil.
    + intros n q Hn. by apply not_elem_of_nil in Hn.
  - unfold MapView2.findPath_fuel. simpl. lia.
Qed.

(** X27. When the start and the end are passable cells of the map and
    every passable cell has its shape, [findPath] of [MapView2] returns
    within its 65 turns.  If no sequence of steps along rows and columns
    over passable cells leads from the start to the end it draws nothing;
    otherwise it draws in blue the cells between the start and the end of
    one such sequence, and nothing else. *)
Theorem findPath2_draws_path this s e :
  MapView2.startPos this = Some s → MapView2.endPos this = Some e →
  MapView2.passable this s → MapView2.passable this e →
  (∀ p, MapView2.passable this p →
     is_Some (MapView2.grids this !! AStar.key p.1 p.2)) →
  ∃ g',
    MapView2.findPath this =
      Return (MapView2.mk (MapView2.obstacles this) (Some s) (Some e) g') ∧
    ((¬ rtc (MapView2.step this) s e ∧ g' = MapView2.grids this) ∨
     (∃ path,
        head path = Some s ∧ last path = Some e ∧
        MapView2.steps this path ∧
        (∀ c, c ∈ path → c ≠ s → c ≠ e →
           g' !! AStar.key c.1 c.2 = Some 0x0000FF) ∧
        (∀ k, (∀ c, c ∈ path → c ≠ s → c ≠ e → AStar.key c.1 c.2 ≠ k) →
           g' !! k = MapView2.grids this !! k))).
Proof. apply findPath2_spec. Qed.

Lemma findPath2_draws_path_witness :
  ∃ g',
    MapView2.findPath
      (MapView2.initMap (MapView2.mk ["0,1"] (Some (0, 0)) (Some (0, 2)) ∅))
    = Return (MapView2.mk ["0,1"] (Some (0, 0)) (Some (0, 2)) g').
Proof.
  destruct (findPath2_draws_path
    (MapView2.initMap (MapView2.mk ["0,1"] (Some (0, 0)) (Some (0, 2)) ∅))
    (0, 0) (0, 2)) as (g' & Hrun & _).
  - reflexivity.
  - reflexivity.
  - split; [unfold MapView2.MAP_SIZE; simpl; lia|by_evaluation].
  - split; [unfold MapView2.MAP_SIZE; simpl; lia|by_evaluation].
  - intros [r c] [[Hr Hc] _].
    unfold MapView2.MAP_SIZE in *. simpl in Hr, Hc.
    assert (r ∈ seqZ 0 8 ∧ c ∈ seqZ 0 8) as [Hr' Hc']
      by (split; apply elem_of_seqZ; lia).
    cbn in Hr', Hc'.
    repeat (apply elem_of_cons in Hr' as [->|Hr']);
      try (by apply not_elem_of_nil in Hr');
      repeat (apply elem_of_cons in Hc' as [->|Hc']);
      try (by apply not_elem_of_nil in Hc'); by_evaluation.
  - by exists g'.
Defined.

(** X26. [getNeighbors] of [MapView2] lists at most four nodes; their cells
    are exactly the passable cells of the map directly above, below, left
    and right of the cell of the node; each is made with [g], [h] and [f]
    at 0 and no parent.  Between passable cells the steps go both ways. *)
Theorem getNeighbors2_shape this node :
  (length (MapView2.getNeighbors this node) ≤ 4)%nat ∧
  (∀ q, q ∈ MapView2.cell <$> MapView2.getNeighbors this node ↔
        MapView2.step this (MapView2.cell node) q) ∧
  Forall (λ n, MapView2.g n = 0 ∧ MapView2.h n = 0 ∧ MapView2.f n = 0 ∧
               MapView2.parent n = None)
    (MapView2.getNeighbors this node) ∧
  (∀ p q, MapView2.passable this p →
     MapView2.step this p q → MapView2.step this q p).
Proof.
  split; [|split; [|split]].
  - unfold MapView2.getNeighbors, MapView2.directions. simpl.
    rewrite !length_app. simpl.
    repeat match goal with
    | |- context [if ?b then _ else _] => destruct b; simpl
    end; lia.
  - intros q. rewrite list_elem_of_fmap. split.
    + intros (n & -> & (q' & Hq' & ->)%getNeighbors2_spec). by destruct q'.
    + intros Hq. exists (MapView2.mkNode q.1 q.2 0 0 0 None).
      split; [by destruct q|]. apply getNeighbors2_spec. by exists q.
  - apply Forall_forall. intros n (q & _ & ->)%getNeighbors2_spec. done.
  - intros [p1 p2] [q1 q2] Hp [Hq Hd]. split; [done|].
    unfold MapView2.directions in *. simpl in *.
    repeat (apply elem_of_cons in Hd as [[= Hd1 Hd2]|Hd]);
      try (by apply not_elem_of_nil in Hd).
    + replace (p1 - q1) with 1 by lia. replace (p2 - q2) with 0 by lia.
      set_solver.
    + replace (p1 - q1) with (-1) by lia. replace (p2 - q2) with 0 by lia.
      set_solver.
    + replace (p1 - q1) with 0 by lia. replace (p2 - q2) with 1 by lia.
      set_solver.
    + replace (p1 - q1) with 0 by lia. replace (p2 - q2) with (-1) by lia.
      set_solver.
Qed.

Lemma positions2_spec p :
  p ∈ MapView2.positions ↔
  0 ≤ p.1 < MapView2.MAP_SIZE ∧ 0 ≤ p.2 < MapView2.MAP_SIZE.
Proof.
  destruct p as [r c]. unfold MapView2.positions.
  rewrite list_elem_of_bind. split.
  - intros (row & (col & Hp & Hcol)%list_elem_of_bind & Hrow).
    apply list_elem_of_singleton in Hp as [= -> ->].
    apply elem_of_seqZ in Hcol, Hrow. simpl. lia.
  - intros [Hr Hc]. cbn [fst snd] in *.
    exists r. split; [|apply elem_of_seqZ; lia].
    apply list_elem_of_bind. exists c. split; [|apply elem_of_seqZ; lia].
    by apply list_elem_of_singleton.
Qed.

Lemma initMap2_grids this p :
  0 ≤ p.1 < MapView2.MAP_SIZE ∧ 0 ≤ p.2 < MapView2.MAP_SIZE →
  is_Some (MapView2.grids (MapView2.initMap this) !! AStar.key p.1 p.2).
Proof.
  intros Hin%positions2_spec. unfold MapView2.initMap.
  cbn [MapView2.grids].
  revert Hin. generalize (MapView2.grids this). generalize MapView2.positions.
  intros l. induction l as [|q l IH]; intros g Hin; simpl.
  { by apply not_elem_of_nil in Hin. }
  destruct (decide (p ∈ l)) as [Hl|Hl]; [by apply IH|].
  apply elem_of_cons in Hin as [<-|?]; [|done].
  generalize (if MapView2.isObstacle this (AStar.key p.1 p.2)
              then 0xFF0000 else 0xFFFFFF). intros c.
  assert (is_Some (<[AStar.key p.1 p.2 := c]> g !! AStar.key p.1 p.2)) as Hc
    by (rewrite lookup_insert_eq; by eexists).
  revert Hc. generalize (<[AStar.key p.1 p.2 := c]> g). clear.
  induction l as [|q l IH]; intros g' Hg'; simpl; [done|].
  apply IH.
  destruct (decide (AStar.key q.1 q.2 = AStar.key p.1 p.2)) as [->|?].
  - rewrite lookup_insert_eq. by eexists.
  - by rewrite lookup_insert_ne.
Qed.

Lemma start_view2_Ready obstacles :
  MapView2.Ready (MapView2.start_view obstacles).
Proof.
  unfold MapView2.start_view. split.
  - intros p Hp. by apply initMap2_grids.
  - intros p [=].
  - intros p [=].
Qed.

(** A loop that fills the shapes of some of the cells of a list. *)
Lemma forEach_fill (k : Z * Z → string) (skip : list string → Z * Z → bool)
    (c : Z) (body : MapView2.t → Z * Z → outcome MapView2.t) l :
  (∀ this a, body this a =
     if skip (MapView2.obstacles this) a then Return this
     else MapView2.fill this (k a) c) →
  ∀ this,
    (∀ a, a ∈ l → skip (MapView2.obstacles this) a = false →
       is_Some (MapView2.grids this !! k a)) →
    ∃ g',
      forEach body l this =
        Return (MapView2.mk (MapView2.obstacles this) (MapView2.startPos this)
                  (MapView2.endPos this) g') ∧
      (∀ s, is_Some (MapView2.grids this !! s) → is_Some (g' !! s)).
Proof.
  intros Hbody. induction l as [|a l IH]; intros this Hshapes.
  { exists (MapView2.grids this). simpl. split; [by destruct this|done]. }
  rewrite forEach_cons, Hbody.
  destruct (skip (MapView2.obstacles this) a) eqn:Hskip.
  - destruct (IH this) as (g' & Hrun & Hkept).
    { intros a' Ha'. apply Hshapes. by right. }
    exists g'. done.
  - rewrite fill_Return by (apply Hshapes; [by left|done]).
    set (this1 := MapView2.mk _ _ _ _).
    assert (∀ s, is_Some (MapView2.grids this !! s) →
              is_Some (MapView2.grids this1 !! s)) as Hmono.
    { intros s Hs. unfold this1. cbn [MapView2.grids].
      destruct (decide (k a = s)) as [->|Hne].
      - rewrite lookup_insert_eq. by eexists.
      - by rewrite lookup_insert_ne. }
    destruct (IH this1) as (g' & Hrun & Hkept).
    { intros a' Ha' Hs. apply Hmono. apply Hshapes; [by right|done]. }
    exists g'. split; [done|]. intros s Hs. by apply Hkept, Hmono.
Qed.

Lemma passable_obstacles this this' p :
  MapView2.obstacles this' = MapView2.obstacles this →
  MapView2.passable this p → MapView2.passable this' p.
Proof. intros Hobs [Hrange Hfree]. split; [done|]. by rewrite Hobs. Qed.

(** A click on a passable cell returns and keeps the view ready for the
    next click. *)
Lemma click2_Ready this row col :
  MapView2.Ready this → MapView2.passable this (row, col) →
  ∃ this',
    MapView2.onGridClick this row col = Return this' ∧
    MapView2.Ready this' ∧
    MapView2.obstacles this' = MapView2.obstacles this.
Proof.
  intros HR Hclick. pose proof Hclick as [Hrange Hfree].
  assert (∀ this0 color,
    (∀ s, is_Some (MapView2.grids this !! s) →
          is_Some (MapView2.grids this0 !! s)) →
    ∃ g',
      MapView2.fill this0 (AStar.key row col) color =
        Return (MapView2.mk (MapView2.obstacles this0)
                  (MapView2.startPos this0) (MapView2.endPos this0) g') ∧
      ∀ s, is_Some (MapView2.grids this !! s) → is_Some (g' !! s)) as Hfill.
  { intros this0 color Hmono. eexists. split.
    - apply fill_Return, Hmono.
      apply (MapView2.ready_grids _ HR (row, col) Hrange).
    - intros s Hs. destruct (decide (AStar.key row col = s)) as [->|Hne].
      + rewrite lookup_insert_eq. by eexists.
      + rewrite lookup_insert_ne by done. by apply Hmono. }
  unfold MapView2.onGridClick.
  destruct (MapView2.startPos this) as [s|] eqn:Hs.
  2:{ (* the start is chosen *)
    rewrite bind_Return, Hs.
    destruct (Hfill (MapView2.mk (MapView2.obstacles this) (Some (row, col))
                       (MapView2.endPos this) (MapView2.grids this)) 0x00FF00)
      as (g' & -> & Hmono); [done|].
    eexists. split; [done|]. split; [|done].
    split; cbn [MapView2.grids MapView2.startPos MapView2.endPos].
    - intros p Hp. by apply Hmono, (MapView2.ready_grids _ HR).
    - intros p [= <-]. exact Hclick.
    - intros p Hp. destruct (MapView2.ready_end _ HR p Hp) as [_ [? Hsome]].
      congruence. }
  destruct (MapView2.endPos this) as [e|] eqn:He.
  - (* the map is reset and the start is chosen *)
    destruct (forEach_fill (λ p, AStar.key p.1 p.2)
      (λ obstacles p, bool_decide (AStar.key p.1 p.2 ∈ obstacles)) 0xFFFFFF
      (λ this p,
         if negb (MapView2.isObstacle this (AStar.key p.1 p.2))
         then MapView2.fill this (AStar.key p.1 p.2) 0xFFFFFF
         else Return this)
      MapView2.positions) with (this := this) as (g1 & Hrun & Hmono1).
    { intros this0 a. unfold MapView2.isObstacle. by destruct (bool_decide _). }
    { intros p Hp%positions2_spec _. by apply (MapView2.ready_grids _ HR). }
    unfold MapView2.resetMap. cbv zeta. rewrite Hrun, !bind_Return.
    cbn [MapView2.grids MapView2.startPos MapView2.endPos MapView2.obstacles].
    destruct (Hfill (MapView2.mk (MapView2.obstacles this) (Some (row, col))
                       None g1) 0x00FF00) as (g' & -> & Hmono); [done|].
    eexists. split; [done|]. split; [|done].
    split; cbn [MapView2.grids MapView2.startPos MapView2.endPos].
    + intros p Hp. by apply Hmono, (MapView2.ready_grids _ HR).
    + intros p [= <-]. exact Hclick.
    + intros p [=].
  - (* the end is chosen and the path is drawn *)
    rewrite bind_Return, Hs, He.
    destruct (Hfill (MapView2.mk (MapView2.obstacles this) (Some s)
                       (Some (row, col)) (MapView2.grids this)) 0xFF00FF)
      as (g1 & -> & Hmono1); [done|].
    rewrite bind_Return. set (this1 := MapView2.mk _ _ _ _).
    pose proof (MapView2.ready_start _ HR s Hs) as Hps.
    destruct (findPath2_spec this1 s (row, col) eq_refl eq_refl Hps Hclick)
      as (g' & Hrun & Hcases).
    { intros p [Hp _]. by apply Hmono1, (MapView2.ready_grids _ HR). }
    eexists. split; [exact Hrun|]. split; [|done].
    split; cbn [MapView2.grids MapView2.startPos MapView2.endPos].
    + intros p Hp.
      assert (is_Some (g1 !! AStar.key p.1 p.2)) as Hbefore
        by (by apply Hmono1, (MapView2.ready_grids _ HR)).
      destruct Hcases as [[_ ->]|(path & _ & _ & _ & Hblue & Hkept)];
        [done|].
      destruct (decide (p ∈ path ∧ p ≠ s ∧ p ≠ (row, col)))
        as [(Hp1 & Hp2 & Hp3)|Hnot].
      * rewrite (Hblue p Hp1 Hp2 Hp3). by eexists.
      * rewrite Hkept; [done|]. intros c Hc Hcs Hce [? ?]%key_inj.
        apply Hnot. by replace p with c by (destruct p, c; simpl in *; congruence).
    + intros p [= <-]. exact Hps.
    + intros p [= <-]. split; [exact Hclick|by eexists].
Qed.

Lemma clicks2_Ready cs : ∀ this,
  MapView2.Ready this → Forall (MapView2.passable this) cs →
  ∃ this',
    MapView2.clicks this cs = Return this' ∧ MapView2.Ready this' ∧
    MapView2.obstacles this' = MapView2.obstacles this.
Proof.
  unfold MapView2.clicks.
  induction cs as [|[row col] cs IH]; intros this HR Hcs.
  { exists this. done. }
  apply Forall_cons in Hcs as [Hc Hcs].
  destruct (click2_Ready this row col HR Hc) as (this1 & Hrun & HR1 & Hobs1).
  destruct (IH this1 HR1) as (this' & Hrun' & HR' & Hobs').
  { eapply Forall_impl; [exact Hcs|]. intros p.
    by apply passable_obstacles. }
  exists this'. rewrite forEach_cons. cbn [fst snd]. rewrite Hrun, bind_Return.
  split; [exact Hrun'|]. split; [exact HR'|congruence].
Qed.

(** X29. Whatever the list of obstacle keys, no sequence of clicks on
    passable cells of the 8 x 8 map (the cells that [initMap] of [MapView2]
    gives a handler) makes a handler throw or [findPath] run on: every
    search ends within its 65 turns, every shape that is filled exists, and
    between clicks every cell of the map has its shape and the chosen cells
    are passable. *)
Theorem clicks2_never_throw obstacles cs :
  Forall (MapView2.passable (MapView2.start_view obstacles)) cs →
  ∃ this,
    MapView2.clicks (MapView2.start_view obstacles) cs = Return this ∧
    MapView2.Ready this ∧ MapView2.obstacles this = obstacles.
Proof.
  intros Hcs.
  destruct (clicks2_Ready cs (MapView2.start_view obstacles)
              (start_view2_Ready obstacles) Hcs) as (this & Hrun & HR & Hobs).
  exists this. split; [exact Hrun|]. split; [exact HR|exact Hobs].
Qed.

Lemma clicks2_never_throw_witness :
  ∃ this,
    MapView2.clicks (MapView2.start_view ["0,1"]) [(0, 0); (0, 2); (5, 5)]
    = Return this.
Proof.
  destruct (clicks2_never_throw ["0,1"] [(0, 0); (0, 2); (5, 5)])
    as (this & Hrun & _).
  - assert (∀ p, (0 ≤ p.1 < 8 ∧ 0 ≤ p.2 < 8) →
              AStar.key p.1 p.2 ∉ ["0,1"] →
              MapView2.passable (MapView2.start_view ["0,1"]) p) as Hc.
    { intros p Hp Hk. split; [exact Hp|exact Hk]. }
    constructor; [apply Hc; [simpl; lia|by_evaluation]|].
    constructor; [apply Hc; [simpl; lia|by_evaluation]|].
    constructor; [apply Hc; [simpl; lia|by_evaluation]|].
    constructor.
  - exists this. exact Hrun.
Defined.

(** ** The obstacles of the views *)

Lemma generateObstacles_loop_spec n draws obs :
  NoDup obs →
  (MapView.generateObstacles_loop n draws obs = OutOfFuel ∧
   Z.of_nat (size (list_to_set (C:=gset string)
                (obs ++ ((λ d, AStar.key d.1 d.2) <$> draws)))) < n) ∨
  (∃ res, MapView.generateObstacles_loop n draws obs = Return res ∧
     NoDup res ∧
     (∀ k, k ∈ res → k ∈ obs ∨ ∃ d, d ∈ draws ∧ k = AStar.key d.1 d.2) ∧
     (Z.of_nat (length obs) ≤ n → Z.of_nat (length res) = n)).
Proof.
  revert obs. induction draws as [|[c r] draws IH]; intros obs Hnd.
  - cbn [MapView.generateObstacles_loop]. rewrite fmap_nil, app_nil_r.
    case_bool_decide as Hlt.
    + left. split; [done|]. by rewrite size_list_to_set.
    + right. exists obs. split; [done|]. split; [done|].
      split; [by left|lia].
  - cbn [MapView.generateObstacles_loop]. case_bool_decide as Hlt.
    2:{ right. exists obs. split; [done|]. split; [done|].
        split; [by left|lia]. }
    rewrite fmap_cons. cbn [fst snd]. cbv zeta.
    set (k := AStar.key c r). case_bool_decide as Hin.
    + destruct (IH obs Hnd) as [[Hrun Hsz]|(res & Hrun & Hnd' & Hsub & Hlen)].
      * left. split; [done|].
        replace (list_to_set (obs ++ k :: _))
          with (list_to_set (C:=gset string)
                  (obs ++ ((λ d, AStar.key d.1 d.2) <$> draws))); [done|].
        apply set_eq. intros x.
        rewrite !elem_of_list_to_set, !elem_of_app, elem_of_cons.
        split; [tauto|]. intros [?|[->|?]]; tauto.
      * right. exists res. split; [done|]. split; [done|]. split; [|done].
        intros x [?|(d & Hd & ->)]%Hsub; [by left|].
        right. exists d. split; [by right|done].
    + destruct (IH (obs ++ [k])) as [[Hrun Hsz]|(res & Hrun & Hnd' & Hsub & Hlen)].
      { apply NoDup_app. split; [done|]. split; [|apply NoDup_singleton].
        by intros x Hx ->%list_elem_of_singleton. }
      * left. split; [done|]. by rewrite <-app_assoc in Hsz.
      * right. exists res. split; [done|]. split; [done|]. split.
        -- intros x [[?| ->%list_elem_of_singleton]%elem_of_app
                    |(d & Hd & ->)]%Hsub.
           ++ by left.
           ++ right. exists (c, r). split; [by left|done].
           ++ right. exists d. split; [by right|done].
        -- intros _. apply Hlen. rewrite length_app. simpl. lia.
Qed.

Lemma generateObstacles2_loop :
  MapView2.generateObstacles_loop = MapView.generateObstacles_loop.
Proof. reflexivity. Qed.

(** Fewer keys than a square map has cells leave a cell of the map out. *)
Lemma free_cell (n : Z) (obs : list string) :
  0 < n → Z.of_nat (length obs) < n * n →
  ∃ p, (0 ≤ p.1 < n ∧ 0 ≤ p.2 < n) ∧ AStar.key p.1 p.2 ∉ obs.
Proof.
  intros Hn Hlen.
  set (cells := (λ i, (i `mod` n, i `div` n)) <$> seqZ 0 (n * n)).
  destruct (decide (Forall (λ p, AStar.key p.1 p.2 ∈ obs) cells))
    as [Hall|Hex].
  - exfalso.
    assert (NoDup ((λ p, AStar.key p.1 p.2) <$> cells)) as Hnd.
    { apply NoDup_fmap_2_strong.
      { intros [x y] [x' y'] _ _ [Hx Hy]%key_inj. simpl in *. congruence. }
      apply NoDup_fmap_2_strong; [|apply NoDup_seqZ].
      intros i j _ _ [= Hm Hd].
      rewrite (Z.div_mod i n), (Z.div_mod j n) by lia. congruence. }
    assert (((λ p, AStar.key p.1 p.2) <$> cells) ⊆+ obs) as Hsub.
    { apply NoDup_submseteq; [done|].
      intros k (p & -> & Hp)%list_elem_of_fmap.
      by apply (proj1 (Forall_forall _ _) Hall). }
    apply submseteq_length in Hsub. unfold cells in Hsub.
    rewrite !length_fmap, length_seqZ in Hsub. lia.
  - apply not_Forall_Exists in Hex; [|apply _].
    apply Exists_exists in Hex as (p & Hp & Hnot). exists p. split; [|done].
    apply list_elem_of_fmap in Hp as (i & -> & Hi%elem_of_seqZ). simpl.
    split; [apply Z.mod_pos_bound; lia|].
    split; [apply Z.div_pos; lia|apply Z.div_lt_upper_bound; lia].
Qed.

Lemma onAddToStage_spec count draws :
  0 ≤ count < 100 →
  (MapView.onAddToStage MapView.constructor count draws = OutOfFuel ∧
   Z.of_nat (size (list_to_set (C:=gset string)
                ((λ d, AStar.key d.1 d.2) <$> draws))) < count + 600) ∨
  (∃ obs,
     MapView.onAddToStage MapView.constructor count draws
     = Return (MapView.start_view obs) ∧
     NoDup obs ∧ Z.of_nat (length obs) = count + 600 ∧
     (∀ k, k ∈ obs → ∃ d, d ∈ draws ∧ k = AStar.key d.1 d.2) ∧
     ∃ p, MapView.clickable (MapView.start_view obs) p).
Proof.
  intros Hcount.
  unfold MapView.onAddToStage, MapView.generateObstacles, MapView.constructor.
  cbv zeta. cbn [MapView.obstacles MapView.startPos MapView.endPos
                 MapView.grids].
  destruct (generateObstacles_loop_spec (count + 600) draws [] (NoDup_nil_2))
    as [[Hrun Hsz]|(obs & Hrun & Hnd & Hsub & Hlen)].
  - left. rewrite Hrun. split; [reflexivity|exact Hsz].
  - right. exists obs. rewrite Hrun, !bind_Return.
    split; [reflexivity|]. split; [exact Hnd|].
    assert (Z.of_nat (length obs) = count + 600) as Hl
      by (apply Hlen; simpl; lia).
    split; [exact Hl|]. split.
    + intros k [Hk|Hk]%Hsub; [by apply not_elem_of_nil in Hk|exact Hk].
    + destruct (free_cell MapView.MAP_SIZE obs) as (p & Hp & Hfree).
      { done. }
      { unfold MapView.MAP_SIZE. lia. }
      exists p. apply start_view_clickable. by split.
Qed.

Lemma onAddToStage2_spec count draws :
  0 ≤ count < 3 →
  (MapView2.onAddToStage MapView2.constructor count draws = OutOfFuel ∧
   Z.of_nat (size (list_to_set (C:=gset string)
                ((λ d, AStar.key d.1 d.2) <$> draws))) < count + 3) ∨
  (∃ obs,
     MapView2.onAddToStage MapView2.constructor count draws
     = Return (MapView2.start_view obs) ∧
     NoDup obs ∧ Z.of_nat (length obs) = count + 3 ∧
     (∀ k, k ∈ obs → ∃ d, d ∈ draws ∧ k = AStar.key d.1 d.2) ∧
     ∃ p, MapView2.passable (MapView2.start_view obs) p).
Proof.
  intros Hcount.
  unfold MapView2.onAddToStage, MapView2.generateObstacles,
    MapView2.constructor.
  cbv zeta. cbn [MapView2.obstacles MapView2.startPos MapView2.endPos
                 MapView2.grids].
  rewrite generateObstacles2_loop.
  destruct (generateObstacles_loop_spec (count + 3) draws [] (NoDup_nil_2))
    as [[Hrun Hsz]|(obs & Hrun & Hnd & Hsub & Hlen)].
  - left. rewrite Hrun. split; [reflexivity|exact Hsz].
  - right. exists obs. rewrite Hrun, !bind_Return.
    split; [reflexivity|]. split; [exact Hnd|].
    assert (Z.of_nat (length obs) = count + 3) as Hl
      by (apply Hlen; simpl; lia).
    split; [exact Hl|]. split.
    + intros k [Hk|Hk]%Hsub; [by apply not_elem_of_nil in Hk|exact Hk].
    + destruct (free_cell MapView2.MAP_SIZE obs) as (p & Hp & Hfree).
      { done. }
      { unfold MapView2.MAP_SIZE. lia. }
      exists p. split; [exact Hp|exact Hfree].
Qed.

(** X30. When a view is added to the stage, [generateObstacles] either is
    still drawing, the cells drawn so far being fewer than the obstacles it
    wants, or it ends and [initMap] shows a map whose obstacles are as many
    distinct keys of drawn cells as wanted (600 to 699 for [MapView], 3 to
    5 for [MapView2]), which leaves the map a cell to click on. *)
Theorem onAddToStage_obstacles count draws count2 draws2 :
  0 ≤ count < 100 → 0 ≤ count2 < 3 →
  ((MapView.onAddToStage MapView.constructor count draws = OutOfFuel ∧
    Z.of_nat (size (list_to_set (C:=gset string)
                 ((λ d, AStar.key d.1 d.2) <$> draws))) < count + 600) ∨
   (∃ obs,
      MapView.onAddToStage MapView.constructor count draws
      = Return (MapView.start_view obs) ∧
      NoDup obs ∧ Z.of_nat (length obs) = count + 600 ∧
      (∀ k, k ∈ obs → ∃ d, d ∈ draws ∧ k = AStar.key d.1 d.2) ∧
      ∃ p, MapView.clickable (MapView.start_view obs) p)) ∧
  ((MapView2.onAddToStage MapView2.constructor count2 draws2 = OutOfFuel ∧
    Z.of_nat (size (list_to_set (C:=gset string)
                 ((λ d, AStar.key d.1 d.2) <$> draws2))) < count2 + 3) ∨
   (∃ obs,
      MapView2.onAddToStage MapView2.constructor count2 draws2
      = Return (MapView2.start_view obs) ∧
      NoDup obs ∧ Z.of_nat (length obs) = count2 + 3 ∧
      (∀ k, k ∈ obs → ∃ d, d ∈ draws2 ∧ k = AStar.key d.1 d.2) ∧
      ∃ p, MapView2.passable (MapView2.start_view obs) p)).
Proof.
  intros Hcount Hcount2. split.
  - by apply onAddToStage_spec.
  - by apply onAddToStage2_spec.
Qed.

Lemma onAddToStage_obstacles_witness :
  ∃ obs,
    MapView2.onAddToStage MapView2.constructor 0
      [(1, 1); (1, 1); (2, 3); (4, 4)]
    = Return (MapView2.start_view obs) ∧
    length obs = 3%nat.
Proof.
  destruct (onAddToStage_obstacles 0 [(1, 1)] 0
              [(1, 1); (1, 1); (2, 3); (4, 4)])
    as [_ [[_ Hsz]|(obs & Hrun & _ & Hlen & _)]]; try lia.
  - exfalso. revert Hsz. by_evaluation.
  - exists obs. split; [exact Hrun|]. lia.
Defined.

(** * The two strategies on one graph *)

(** ** Cells and nodes *)

Lemma createNodes_at n data p :
  length data = Z.to_nat (n * n) → 0 ≤ p.1 < n → 0 ≤ p.2 < n →
  ∃ nd, Main.createNodes n n data !! cell_index n p = Some nd ∧
    Main.x nd = p.1 ∧ Main.y nd = p.2 ∧
    data !! cell_index n p = Some (Main.v nd).
Proof.
  intros Hlen Hx Hy. destruct p as [x y]. simpl in *.
  destruct (cell_index_pos n n x y Hx Hy) as (Hrem & Hquot & Hlt).
  destruct (lookup_lt_is_Some_2 data (cell_index n (x, y))) as [d Hd]; [lia|].
  eexists. split.
  { unfold Main.createNodes. rewrite list_lookup_imap, Hd. reflexivity. }
  cbn [Main.x Main.y Main.v]. by rewrite Hrem, Hquot, Hd.
Qed.

Lemma createNodes_cell n data j m :
  0 < n → length data = Z.to_nat (n * n) →
  Main.createNodes n n data !! j = Some m →
  j = cell_index n (Main.x m, Main.y m) ∧
  0 ≤ Main.x m < n ∧ 0 ≤ Main.y m < n.
Proof.
  intros Hn Hlen Hm.
  destruct (createNodes_lookup _ _ _ _ _ Hm) as (d & Hd & _ & Hx & Hy & _).
  apply lookup_lt_Some in Hd. rewrite Hx, Hy.
  rewrite Z.rem_mod_nonneg, Z.quot_div_nonneg by lia.
  unfold cell_index. cbn [fst snd].
  pose proof (Z.div_mod (Z.of_nat j) n ltac:(lia)) as Hdm.
  pose proof (Z.mod_pos_bound (Z.of_nat j) n Hn) as Hmod.
  assert (0 ≤ Z.of_nat j / n < n) as Hdiv.
  { split; [apply Z.div_pos; lia|apply Z.div_lt_upper_bound; lia]. }
  split; [|done].
  rewrite (Z.mul_comm (Z.of_nat j / n) n). lia.
Qed.

Lemma cell_index_inj n p q :
  0 ≤ p.1 < n → 0 ≤ p.2 → 0 ≤ q.1 < n → 0 ≤ q.2 →
  cell_index n p = cell_index n q → p = q.
Proof.
  destruct p as [x y], q as [x' y']. unfold cell_index. simpl.
  intros Hx Hy Hx' Hy' Heq.
  destruct (rem_quot_cell n x y Hx Hy) as [Hr Hq].
  destruct (rem_quot_cell n x' y' Hx' Hy') as [Hr' Hq'].
  rewrite Heq in Hr, Hq. congruence.
Qed.

Lemma cells_elem graph l q :
  q ∈ Main.cells graph l ↔
  ∃ j m, j ∈ l ∧ graph !! j = Some m ∧ q = (Main.x m, Main.y m).
Proof.
  unfold Main.cells. rewrite list_elem_of_omap. split.
  - intros (j & Hj & Hf). destruct (graph !! j) as [m|] eqn:Hm; [|done].
    simpl in Hf. injection Hf as <-. by exists j, m.
  - intros (j & m & Hj & Hm & ->). exists j. split; [done|]. by rewrite Hm.
Qed.

(** [createNodes] links a node to the node up right and to the node down
    right of it when the entry of that node is 0. *)
Lemma createNodes_diagonal w h data x y s nd :
  0 ≤ x → x + 1 < w → 0 ≤ y < h → 0 ≤ y + s < h → s = 1 ∨ s = -1 →
  Main.createNodes w h data !! cell_index w (x, y) = Some nd →
  data !! cell_index w (x + 1, y + s) = Some 0 →
  cell_index w (x + 1, y + s) ∈ Main.nodes nd.
Proof.
  intros Hx Hx1 Hy Hys Hs Hnd Hd.
  destruct (cell_index_pos w h x y ltac:(lia) Hy) as (Hrem & Hquot & _).
  revert Hnd. unfold Main.createNodes. rewrite list_lookup_imap.
  destruct (data !! cell_index w (x, y)) as [d|]; [|done].
  simpl. intros [= <-]. cbn [Main.nodes].
  unfold Main.idx_to_pos_x, Main.idx_to_pos_y, Main.pos_to_idx.
  rewrite Hrem, Hquot.
  assert (∀ y', y' = y + s →
            Main.link data (x + 1 + y' * w) = [cell_index w (x + 1, y + s)])
    as Hlink.
  { intros y' ->. unfold Main.link, cell_index in *. simpl in *.
    by rewrite Hd. }
  destruct (Z.ltb_spec x (w - 1)) as [_|?]; [|lia].
  destruct Hs as [-> | ->].
  - do 3 (apply elem_of_app; right).
    destruct (Z.ltb_spec y (h - 1)) as [_|?]; [|lia].
    apply elem_of_app. right. rewrite Hlink by lia.
    by apply list_elem_of_singleton.
  - do 2 (apply elem_of_app; right). apply elem_of_app. left.
    destruct (Z.ltb_spec 0 y) as [_|?]; [|lia].
    apply elem_of_app. right. rewrite Hlink by lia.
    by apply list_elem_of_singleton.
Qed.

Lemma walk_rtc this p q k : walk this p q k → rtc (hop this) p q.
Proof.
  induction 1 as [p|p q r k Hq _ IH]; [done|].
  by apply (rtc_l _ _ q).
Qed.

(** ** What the common links allow *)

Section common.
Context (this : AStar.t) (data : list Z) (start : Z * Z).
Context (Hlen : length data
                = Z.to_nat (AStar.mapSize this * AStar.mapSize this)).
Context (Hstart : AStar.isValidPosition this start.1 start.2 = true).
Context (Hsame : same_links this data start).

Local Abbreviation n := (AStar.mapSize this).
Local Abbreviation graph := (Main.createNodes n n data).

Lemma common_size : 0 < n.
Proof using All.
  apply isValidPosition_spec in Hstart as [Hc _].
  apply isValidCoordinate_spec in Hc. lia.
Qed.

Lemma reach_valid p :
  rtc (hop this) start p → AStar.isValidPosition this p.1 p.2 = true.
Proof using All.
  intros Hp. destruct (rtc_inv_r _ _ Hp) as [<-|(p' & _ & Hstep)]; [done|].
  by apply neighbors_of_spec in Hstep as [? _].
Qed.

Lemma reach_box p :
  rtc (hop this) start p → 0 ≤ p.1 < n ∧ 0 ≤ p.2 < n.
Proof using All.
  intros Hp%reach_valid.
  apply isValidPosition_spec in Hp as [Hc _].
  by apply isValidCoordinate_spec in Hc.
Qed.

Lemma reach_node p :
  rtc (hop this) start p →
  ∃ nd, graph !! cell_index n p = Some nd ∧
    Main.x nd = p.1 ∧ Main.y nd = p.2.
Proof using All.
  intros [Hx Hy]%reach_box.
  destruct (createNodes_at n data p Hlen Hx Hy) as (nd & ? & ? & ? & _).
  by exists nd.
Qed.

(** A step of the grid from a cell within reach is a link of the graph. *)
Lemma hop_link p q :
  rtc (hop this) start p → q ∈ neighbors_of this p →
  ∃ nd m, graph !! cell_index n p = Some nd ∧
    cell_index n q ∈ Main.nodes nd ∧
    graph !! cell_index n q = Some m ∧
    Main.x nd = p.1 ∧ Main.y nd = p.2 ∧
    Main.x m = q.1 ∧ Main.y m = q.2.
Proof using All.
  intros Hp Hq.
  destruct (reach_node p Hp) as (nd & Hnd & Hx & Hy).
  pose proof (proj1 (Hsame p nd Hp Hnd q) Hq) as Hc.
  apply cells_elem in Hc as (j & m & Hj & Hm & Heq).
  destruct (createNodes_cell n data j m common_size Hlen Hm) as (Hjm & _).
  exists nd, m. rewrite Heq, <-Hjm. done.
Qed.

(** A link of the graph from the node of a cell within reach is a step of
    the grid. *)
Lemma link_hop p nd j m :
  rtc (hop this) start p →
  graph !! cell_index n p = Some nd → j ∈ Main.nodes nd →
  graph !! j = Some m →
  (Main.x m, Main.y m) ∈ neighbors_of this p ∧
  j = cell_index n (Main.x m, Main.y m).
Proof using All.
  intros Hp Hnd Hj Hm. split.
  - apply (Hsame p nd Hp Hnd), cells_elem. by exists j, m.
  - by destruct (createNodes_cell n data j m common_size Hlen Hm).
Qed.

(** Every step from a cell within reach is a step along a row or a
    column: [createNodes] has no link back along a diagonal. *)
Lemma reach_axis p q :
  rtc (hop this) start p → q ∈ neighbors_of this p → axis_adjacent p q.
Proof using All.
  intros Hp Hq.
  destruct (hop_link p q Hp Hq)
    as (nd & m & Hnd & Hj & Hm & Hx & Hy & Hmx & Hmy).
  destruct (createNodes_link n n data _ nd _ common_size Hnd Hj)
    as (m' & Hm' & _ & Hoff).
  assert (m' = m) as -> by congruence.
  rewrite Hx, Hy, Hmx, Hmy in Hoff.
  assert (rtc (hop this) start q) as Hq' by (by eapply rtc_r).
  assert ((q.1 - p.1 = 1 ∧ (q.2 - p.2 = 1 ∨ q.2 - p.2 = -1)) → False)
    as Hdiag.
  { intros [Hdx Hdy].
    assert (p ∈ neighbors_of this q) as Hback.
    { apply neighbors_of_sym; [by apply reach_valid|done]. }
    destruct (hop_link q p Hq' Hback)
      as (nq & mp & Hnq & Hjp & Hmp & Hqx & Hqy' & Hpx & Hpy').
    destruct (createNodes_link n n data _ nq _ common_size Hnq Hjp)
      as (mp' & Hmp' & _ & Hoff').
    assert (mp' = mp) as -> by congruence.
    rewrite Hqx, Hqy', Hpx, Hpy' in Hoff'. unfold link_offsets in Hoff'.
    repeat (apply elem_of_cons in Hoff' as [[= Hdx' Hdy']|Hoff']);
      try (by apply not_elem_of_nil in Hoff'); lia. }
  unfold link_offsets in Hoff. unfold axis_adjacent.
  destruct p as [px py], q as [qx qy]. simpl in *.
  repeat (apply elem_of_cons in Hoff as [[= Hdx Hdy]|Hoff]);
    try (by apply not_elem_of_nil in Hoff);
    try (exfalso; apply Hdiag; lia).
  - right. left. f_equal; lia.
  - left. f_equal; lia.
  - do 3 right. f_equal; lia.
  - do 2 right. left. f_equal; lia.
Qed.

(** A cell that a step leads to has the entry 0 in [data]. *)
Lemma reach_data p' p :
  rtc (hop this) start p' → p ∈ neighbors_of this p' →
  data !! cell_index n p = Some 0.
Proof using All.
  intros Hp' Hp.
  destruct (hop_link p' p Hp' Hp) as (nd & m & Hnd & Hj & Hm & _).
  destruct (createNodes_link n n data _ nd _ common_size Hnd Hj)
    as (m' & Hm' & Hv & _).
  assert (m' = m) as -> by congruence.
  destruct (createNodes_lookup _ _ _ _ _ Hm) as (d & Hd & Hvd & _).
  congruence.
Qed.

(** No two cells within reach lie on a diagonal of the squares: the graph
    would link the left one to the right one, which is no step along a row
    or a column. *)
Lemma no_diagonal a b p' :
  rtc (hop this) start a → rtc (hop this) start p' →
  b ∈ neighbors_of this p' →
  b.1 = a.1 + 1 → b.2 = a.2 + 1 ∨ b.2 = a.2 - 1 → False.
Proof using All.
  intros Ha Hp' Hb Hx Hy.
  assert (rtc (hop this) start b) as Hb' by (by eapply rtc_r).
  pose proof (reach_box a Ha) as [Hax Hay].
  pose proof (reach_box b Hb') as [Hbx Hby].
  destruct (reach_node a Ha) as (nd & Hnd & _).
  destruct (reach_node b Hb') as (m & Hm & Hmx & Hmy).
  pose proof (reach_data p' b Hp' Hb) as Hd.
  assert (∃ s, (s = 1 ∨ s = -1) ∧ b = (a.1 + 1, a.2 + s)) as (s & Hs & Heq).
  { destruct b as [bx by_]. simpl in *.
    destruct Hy as [-> | ->]; [exists 1|exists (-1)];
      (split; [lia|f_equal; lia]). }
  assert (cell_index n b ∈ Main.nodes nd) as Hlink.
  { rewrite Heq. rewrite Heq in Hd, Hby. simpl in Hby.
    destruct a as [ax ay]. simpl in *.
    by apply (createNodes_diagonal n n data ax ay s nd); try lia. }
  assert (b ∈ neighbors_of this a) as Hstep.
  { apply (Hsame a nd Ha Hnd), cells_elem. exists (cell_index n b), m.
    split; [done|]. split; [done|]. destruct b; simpl in *. congruence. }
  pose proof (reach_axis a b Ha Hstep) as Haxis. unfold axis_adjacent in Haxis.
  rewrite Heq in Haxis.
  destruct Haxis as [H|[H|[H|H]]];
    pose proof (f_equal fst H) as H1; pose proof (f_equal snd H) as H2;
    simpl in H1, H2; lia.
Qed.

(** A way within reach that does not turn back goes straight on. *)
Lemma no_corner p q r :
  rtc (hop this) start p → q ∈ neighbors_of this p →
  r ∈ neighbors_of this q → r ≠ p →
  r.1 - q.1 = q.1 - p.1 ∧ r.2 - q.2 = q.2 - p.2.
Proof using All.
  intros Hp Hq Hr Hne.
  assert (rtc (hop this) start q) as Hq' by (by eapply rtc_r).
  assert (rtc (hop this) start r) as Hr' by (by eapply rtc_r).
  assert (p ∈ neighbors_of this q) as Hback.
  { apply neighbors_of_sym; [by apply reach_valid|done]. }
  pose proof (no_diagonal p r q Hp Hq' Hr) as Hpr.
  pose proof (no_diagonal r p q Hr' Hq' Hback) as Hrp.
  pose proof (reach_axis p q Hp Hq) as Hpq.
  pose proof (reach_axis q r Hq' Hr) as Hqr.
  assert (r.1 ≠ p.1 ∨ r.2 ≠ p.2) as Hne'.
  { destruct (decide (r.1 = p.1)) as [H1|]; [|by left].
    destruct (decide (r.2 = p.2)) as [H2|]; [|by right].
    destruct Hne. destruct r, p; simpl in *; congruence. }
  unfold axis_adjacent in *.
  destruct p as [px py], q as [qx qy], r as [rx ry]. simpl in *.
  destruct Hpq as [[= -> ->]|[[= -> ->]|[[= -> ->]|[= -> ->]]]];
    destruct Hqr as [[= -> ->]|[[= -> ->]|[[= -> ->]|[= -> ->]]]];
    try lia; exfalso; first [apply Hpr; lia|apply Hrp; lia].
Qed.

Lemma straight l : ∀ p q,
  rtc (hop this) start p →
  stepwise this (p :: q :: l) → NoDup (p :: q :: l) →
  ∀ i c, (q :: l) !! i = Some c →
    c.1 = q.1 + Z.of_nat i * (q.1 - p.1) ∧
    c.2 = q.2 + Z.of_nat i * (q.2 - p.2).
Proof using All.
  induction l as [|r l IH]; intros p q Hp Hst Hnd i c Hc.
  - destruct i as [|i]; [|done]. injection Hc as <-. lia.
  - destruct i as [|i]; [injection Hc as <-; lia|].
    destruct Hst as [Hq Hst]. pose proof Hst as [Hr _].
    apply NoDup_cons in Hnd as [Hnot Hnd].
    assert (r ≠ p) as Hne.
    { intros ->. apply Hnot. right. by left. }
    destruct (no_corner p q r Hp Hq Hr Hne) as [Hdx Hdy].
    destruct (IH q r (rtc_r _ _ _ Hp Hq) Hst Hnd i c Hc) as [Hc1 Hc2].
    rewrite Hdx in Hc1. rewrite Hdy in Hc2.
    rewrite Nat2Z.inj_succ, !Z.mul_succ_l. lia.
Qed.

(** A way without repetition from [start] is as long as the larger of the
    coordinate distances of its ends. *)
Lemma straight_span q l e :
  stepwise this (start :: q :: l) → NoDup (start :: q :: l) →
  last (q :: l) = Some e →
  span start e = Z.of_nat (S (length l)) ∧
  e.1 - start.1 = Z.of_nat (S (length l)) * (q.1 - start.1) ∧
  e.2 - start.2 = Z.of_nat (S (length l)) * (q.2 - start.2).
Proof using All.
  intros Hst Hnd Hlast. rewrite last_lookup in Hlast. simpl in Hlast.
  destruct (straight l start q (rtc_refl _ _) Hst Hnd _ e Hlast) as [H1 H2].
  destruct Hst as [Hq _].
  pose proof (reach_axis start q (rtc_refl _ _) Hq) as Haxis.
  rewrite Nat2Z.inj_succ, !Z.mul_succ_l. unfold span, axis_adjacent in *.
  destruct start as [sx sy], q as [qx qy], e as [ex ey]. simpl in *.
  destruct Haxis as [[= -> ->]|[[= -> ->]|[[= -> ->]|[= -> ->]]]]; lia.
Qed.

Lemma straight_unique l1 l2 e :
  stepwise this (start :: l1) → NoDup (start :: l1) →
  last (start :: l1) = Some e →
  stepwise this (start :: l2) → NoDup (start :: l2) →
  last (start :: l2) = Some e →
  l1 = l2.
Proof using All.
  assert (∀ q l, NoDup (start :: q :: l) →
            last (start :: q :: l) ≠ Some start) as Hloop.
  { intros q l [Hnot _]%NoDup_cons Hlast. apply Hnot.
    rewrite last_cons_cons in Hlast. by apply last_Some_elem_of. }
  intros Hst1 Hnd1 Hl1 Hst2 Hnd2 Hl2.
  destruct l1 as [|q1 l1], l2 as [|q2 l2]; [done|..].
  - injection Hl1 as <-. by destruct (Hloop q2 l2).
  - injection Hl2 as <-. by destruct (Hloop q1 l1).
  - rewrite last_cons_cons in Hl1, Hl2.
    destruct (straight_span q1 l1 e Hst1 Hnd1 Hl1) as (Hs1 & Hx1 & Hy1).
    destruct (straight_span q2 l2 e Hst2 Hnd2 Hl2) as (Hs2 & Hx2 & Hy2).
    assert (length l1 = length l2) as Hlen12 by lia.
    pose proof (reach_axis start q1 (rtc_refl _ _) (proj1 Hst1)) as Ha1.
    pose proof (reach_axis start q2 (rtc_refl _ _) (proj1 Hst2)) as Ha2.
    assert (q1.1 - start.1 = q2.1 - start.1 ∧
            q1.2 - start.2 = q2.2 - start.2) as [Hdx Hdy].
    { rewrite Hlen12 in Hx1, Hy1. rewrite Nat2Z.inj_succ in *.
      unfold axis_adjacent in *.
      destruct start as [sx sy], q1 as [x1 y1], q2 as [x2 y2]. simpl in *.
      destruct Ha1 as [[= -> ->]|[[= -> ->]|[[= -> ->]|[= -> ->]]]];
        destruct Ha2 as [[= -> ->]|[[= -> ->]|[[= -> ->]|[= -> ->]]]];
        lia. }
    apply (list_eq_same_length _ _ (S (length l2))); [done|simpl; lia|].
    intros i c1 c2 _ Hc1 Hc2.
    destruct (straight l1 start q1 (rtc_refl _ _) Hst1 Hnd1 i c1 Hc1)
      as [Hc1x Hc1y].
    destruct (straight l2 start q2 (rtc_refl _ _) Hst2 Hnd2 i c2 Hc2)
      as [Hc2x Hc2y].
    rewrite Hdx in Hc1x. rewrite Hdy in Hc1y.
    destruct c1, c2; simpl in *. f_equal; lia.
Qed.

(** ** The two graphs *)

Lemma hop_rtc_linked q :
  rtc (hop this) start q →
  rtc (linked graph) (cell_index n start) (cell_index n q).
Proof using All.
  intros Hq. pattern q. revert q Hq. apply rtc_ind_r; [done|].
  intros p q Hp Hq IH.
  destruct (hop_link p q Hp Hq) as (nd & m & Hnd & Hj & Hm & _).
  eapply rtc_r; [exact IH|]. exists nd. split; [done|]. split; [done|].
  by eexists.
Qed.

Lemma rtc_linked_hop j :
  rtc (linked graph) (cell_index n start) j →
  ∃ q, rtc (hop this) start q ∧ j = cell_index n q.
Proof using All.
  intros Hj. pattern j. revert j Hj. apply rtc_ind_r.
  { by exists start. }
  intros i j _ (nd & Hnd & Hj & [m Hm]) (p & Hp & ->).
  destruct (link_hop p nd j m Hp Hnd Hj Hm) as [Hstep Hjm].
  exists (Main.x m, Main.y m). split; [|done]. by eapply rtc_r.
Qed.

Lemma cells_cons g j m l :
  g !! j = Some m →
  Main.cells g (j :: l) = (Main.x m, Main.y m) :: Main.cells g l.
Proof. intros Hm. unfold Main.cells. simpl. by rewrite Hm. Qed.

(** The nodes of a way along the links from the node of a cell within
    reach are the nodes of the cells of a way of the grid. *)
Lemma link_path_cells l : ∀ p,
  rtc (hop this) start p → link_path graph (cell_index n p :: l) →
  ∃ cs, l = cell_index n <$> cs ∧
    Main.cells graph (cell_index n p :: l) = p :: cs ∧
    stepwise this (p :: cs) ∧
    Forall (λ c, rtc (hop this) start c) cs.
Proof using All.
  induction l as [|j l IH]; intros p Hp Hl.
  - exists []. split; [done|].
    destruct (reach_node p Hp) as (nd & Hnd & Hx & Hy).
    rewrite (cells_cons _ _ _ _ Hnd), Hx, Hy. by destruct p.
  - destruct Hl as [(nd & Hnd & Hj & [m Hm]) Hl].
    destruct (link_hop p nd j m Hp Hnd Hj Hm) as [Hstep Hjm].
    set (q := (Main.x m, Main.y m)) in *.
    assert (rtc (hop this) start q) as Hq by (by eapply rtc_r).
    rewrite Hjm in Hl. destruct (IH q Hq Hl) as (cs & -> & Hcells & Hst & Hall).
    exists (q :: cs). split; [by rewrite Hjm|].
    destruct (reach_node p Hp) as (nd' & Hnd' & Hx & Hy).
    split.
    { rewrite (cells_cons _ _ _ _ Hnd'), Hx, Hy, Hjm, Hcells. by destruct p. }
    split; [by split|]. by constructor.
Qed.

End common.

(** ** The comparison *)


(** On the grid with the free middle column the links of [createNodes] are
    the steps of [getNeighbors] at the three free cells. *)
Lemma column_links : same_links grid_column data_column (1, 0).
Proof.
  assert (neighbors_of grid_column (1, 0) = [(1, 1)]) as E0
    by (vm_compute; reflexivity).
  assert (neighbors_of grid_column (1, 1) = [(1, 0); (1, 2)]) as E1
    by (vm_compute; reflexivity).
  assert (neighbors_of grid_column (1, 2) = [(1, 1)]) as E2
    by (vm_compute; reflexivity).
  assert (∀ p, rtc (hop grid_column) (1, 0) p →
            p = (1, 0) ∨ p = (1, 1) ∨ p = (1, 2)) as Hreach.
  { apply rtc_ind_r; [by left|]. intros p q _ Hq Hp. unfold hop in Hq.
    destruct Hp as [-> |[-> | ->]].
    - rewrite E0 in Hq. set_solver.
    - rewrite E1 in Hq. set_solver.
    - rewrite E2 in Hq. set_solver. }
  unfold same_links. cbv zeta. intros p nd Hp Hnd q.
  destruct (Hreach p Hp) as [-> |[-> | ->]].
  - rewrite E0. vm_compute in Hnd. injection Hnd as <-.
    change (q ∈ [(1, 1)] ↔ q ∈ [(1, 1)]). done.
  - rewrite E1. vm_compute in Hnd. injection Hnd as <-.
    change (q ∈ [(1, 0); (1, 2)] ↔ q ∈ [(1, 0); (1, 2)]). done.
  - rewrite E2. vm_compute in Hnd. injection Hnd as <-.
    change (q ∈ [(1, 1)] ↔ q ∈ [(1, 1)]). done.
Qed.

